(** * RSLM maths library: a shallow embedding and its checked properties

    The C++ sources under [src/maths] compute with a scalar type
    [rslm::cfg::real], a typedef that is [double] by default and [float]
    when [RSLM_REAL_FLOAT] is defined.  The embedding follows that
    design: every function is written once over an interface [Real] of
    scalar operations, and is then read at two instances,

    - [binary64]: IEEE-754 double precision (the kernel's primitive
      floats: round to nearest even, every operation rounded on its own,
      a single NaN), which is what the library computes with by default;
    - [exactR]: the real numbers, i.e. the arithmetic that the
      mathematical documentation of the library has in mind.

    Statements about "the code" are made at [binary64]; statements that
    only hold without rounding are made at [exactR] and say so.

    Fixed-size arrays [T[4]] are records of four components indexed by a
    four-valued index type; loops over [0..3] are folds over the list of
    indices, in the order of the source.  Reference parameters are passed
    in and returned.  The mutable singleton [units::C()] is an explicit
    argument [K] of the functions that read it.  Telemetry calls
    ([TRACE_*]) are observational only and are left out, except for the
    warning of [project_signature]: it is returned beside the result, and
    is emitted under the two conditions of the logger that gate it. *)

From Stdlib Require Import ZArith List Bool Lia.
From Stdlib Require Import Uint63 Floats.
From Stdlib Require Import Reals Lra Psatz RNsatz.
Import ListNotations.

Set Implicit Arguments.

(* ------------------------------------------------------------------ *)
(** ** Indices and fixed-size arrays *)
(* ------------------------------------------------------------------ *)

Inductive idx : Type := I0 | I1 | I2 | I3.

Definition idx_nat (i : idx) : nat :=
  match i with I0 => 0 | I1 => 1 | I2 => 2 | I3 => 3 end.

Definition idx_eqb (i j : idx) : bool := Nat.eqb (idx_nat i) (idx_nat j).
Definition idx_ltb (i j : idx) : bool := Nat.ltb (idx_nat i) (idx_nat j).
Definition idx_leb (i j : idx) : bool := Nat.leb (idx_nat i) (idx_nat j).

(** [for (int i=0;i<4;++i)] *)
Definition all_idx : list idx := [I0; I1; I2; I3].
(** [for (int r=k+1;r<4;++r)] *)
Definition after (k : idx) : list idx := filter (idx_ltb k) all_idx.
(** [for (int r=0;r<k;++r)] *)
Definition below (k : idx) : list idx := filter (fun r => idx_ltb r k) all_idx.
(** [for (int j=0;j<=i;++j)] *)
Definition upto (i : idx) : list idx := filter (fun j => idx_leb j i) all_idx.
(** [for (int c=k;c<4;++c)] *)
Definition from (k : idx) : list idx := filter (idx_leb k) all_idx.

Record V4 (T : Type) : Type := mkV4 { e0 : T; e1 : T; e2 : T; e3 : T }.

Definition get {T} (i : idx) (v : V4 T) : T :=
  match i with I0 => e0 v | I1 => e1 v | I2 => e2 v | I3 => e3 v end.

Definition upd {T} (i : idx) (x : T) (v : V4 T) : V4 T :=
  match i with
  | I0 => mkV4 x (e1 v) (e2 v) (e3 v)
  | I1 => mkV4 (e0 v) x (e2 v) (e3 v)
  | I2 => mkV4 (e0 v) (e1 v) x (e3 v)
  | I3 => mkV4 (e0 v) (e1 v) (e2 v) x
  end.

Definition tab {T} (f : idx -> T) : V4 T := mkV4 (f I0) (f I1) (f I2) (f I3).

Definition vmap {T U} (f : T -> U) (v : V4 T) : V4 U :=
  mkV4 (f (e0 v)) (f (e1 v)) (f (e2 v)) (f (e3 v)).

(* ------------------------------------------------------------------ *)
(** ** config.hpp: the scalar type [real] *)
(* ------------------------------------------------------------------ *)

(** The operations the sources apply to [real].  [lit m e] is the decimal
    literal [m * 10^e] converted to [real] (as in [real(1e-14)]); [a > b]
    and [a >= b] of the source are [rltb b a] and [rleb b a]. *)
Class Real (real : Type) : Type := {
  lit   : Z -> Z -> real;
  radd  : real -> real -> real;
  rsub  : real -> real -> real;
  rmul  : real -> real -> real;
  rdiv  : real -> real -> real;
  ropp  : real -> real;
  rabs  : real -> real;
  rsqrt : real -> real;
  rltb  : real -> real -> bool;
  rleb  : real -> real -> bool;
  reqb  : real -> real -> bool
}.

Declare Scope real_scope.
Delimit Scope real_scope with real.
Infix "+" := radd : real_scope.
Infix "-" := rsub : real_scope.
Infix "*" := rmul : real_scope.
Infix "/" := rdiv : real_scope.
Notation "- x" := (ropp x) : real_scope.
Infix "<?" := rltb : real_scope.
Infix "<=?" := rleb : real_scope.
Infix "=?" := reqb : real_scope.

(** *** Instance: IEEE-754 binary64 *)

Definition float_of_Z (z : Z) : float :=
  match z with
  | Z0 => PrimFloat.zero
  | Zpos _ => PrimFloat.of_uint63 (Uint63.of_Z z)
  | Zneg p => PrimFloat.opp (PrimFloat.of_uint63 (Uint63.of_Z (Zpos p)))
  end.

(** A decimal literal [m * 10^e] with [|m|, 10^|e| < 2^53] is the correctly
    rounded quotient or product of two exactly represented integers. *)
Definition float_lit (m e : Z) : float :=
  if (0 <=? e)%Z then float_of_Z (m * 10 ^ e)
  else PrimFloat.div (float_of_Z m) (float_of_Z (10 ^ (- e))).

#[export] Instance binary64 : Real float := {
  lit := float_lit;
  radd := PrimFloat.add;
  rsub := PrimFloat.sub;
  rmul := PrimFloat.mul;
  rdiv := PrimFloat.div;
  ropp := PrimFloat.opp;
  rabs := PrimFloat.abs;
  rsqrt := PrimFloat.sqrt;
  rltb := PrimFloat.ltb;
  rleb := PrimFloat.leb;
  reqb := PrimFloat.eqb
}.

(** *** Instance: exact real arithmetic *)

Definition R_lit (m e : Z) : R :=
  if (0 <=? e)%Z then IZR (m * 10 ^ e) else (IZR m / IZR (10 ^ (- e)))%R.

Definition R_ltb (x y : R) : bool := if Rlt_dec x y then true else false.
Definition R_leb (x y : R) : bool := if Rle_dec x y then true else false.
Definition R_eqb (x y : R) : bool := if Req_dec_T x y then true else false.

#[export] Instance exactR : Real R := {
  lit := R_lit;
  radd := Rplus;
  rsub := Rminus;
  rmul := Rmult;
  rdiv := Rdiv;
  ropp := Ropp;
  rabs := Rabs;
  rsqrt := sqrt;
  rltb := R_ltb;
  rleb := R_leb;
  reqb := R_eqb
}.

(* ------------------------------------------------------------------ *)
(** ** telemetry/logger.hpp, telemetry/trace.hpp *)
(* ------------------------------------------------------------------ *)

Module Telemetry.

(** [enum class Level { trace=0, debug=1, info=2, warn=3, error_=4 }] *)
Inductive Level : Type := trace | debug | info | warn | error_.

Definition level_int (l : Level) : Z :=
  match l with
  | trace => 0 | debug => 1 | info => 2 | warn => 3 | error_ => 4
  end%Z.

(** The fields of [Logger] that decide whether a record is written. *)
Record Logger : Type := { enabled_ : bool; min_level_ : Level }.

(** The member initialisers [enabled_ = true], [min_level_ = Level::trace]
    (the constructor clears [enabled_] when the environment variable
    [RSLM_TRACE] is ["0"]). *)
Definition default_logger : Logger :=
  {| enabled_ := true; min_level_ := trace |}.

(** Whether a [TRACE_*] macro of level [lvl] writes its record:
    [if (_L.enabled()) _L.log(lvl, ...)], where [Logger::log] begins with
    [if (!enabled_) return; if (lvl < min_level_) return;]. *)
Definition logs (lg : Logger) (lvl : Level) : bool :=
  enabled_ lg && negb (level_int lvl <? level_int (min_level_ lg))%Z.

End Telemetry.

(* ------------------------------------------------------------------ *)
(** ** linalg.hpp *)
(* ------------------------------------------------------------------ *)

Section Linalg.
Context {real : Type} {RR : Real real}.
Local Open Scope real_scope.

Definition vec4 : Type := V4 real.
(** [m[r][c]], row-major *)
Definition mat4 : Type := V4 (V4 real).
(** [struct sym4 : mat4]: the same storage; symmetry is established by the
    constructor [sym4_of] only. *)
Definition sym4 : Type := mat4.

Definition mget (A : mat4) (r c : idx) : real := get c (get r A).
Definition mset (A : mat4) (r c : idx) (x : real) : mat4 :=
  upd r (upd c x (get r A)) A.
Definition mtab (f : idx -> idx -> real) : mat4 := tab (fun r => tab (f r)).

(** [vec4()], [mat4()]: zero-initialised *)
Definition vec4_zero : vec4 := tab (fun _ => lit 0 0).
Definition mat4_zero : mat4 := mtab (fun _ _ => lit 0 0).

(** [explicit sym4(const mat4& A)] *)
Definition sym4_of (A : mat4) : sym4 :=
  mtab (fun r c => lit 5 (-1) * (mget A r c + mget A c r)).

Definition from_diag (a0 a1 a2 a3 : real) : sym4 :=
  let S := mat4_zero in
  let S := mset S I0 I0 a0 in
  let S := mset S I1 I1 a1 in
  let S := mset S I2 I2 a2 in
  mset S I3 I3 a3.

Definition identity : mat4 :=
  mtab (fun r c => if idx_eqb r c then lit 1 0 else lit 0 0).

Definition diag (a0 a1 a2 a3 : real) : mat4 := from_diag a0 a1 a2 a3.

Definition minkowski_eta : sym4 :=
  from_diag (lit (-1) 0) (lit 1 0) (lit 1 0) (lit 1 0).

Definition transpose (A : mat4) : mat4 := mtab (fun r c => mget A c r).

(** The accumulation [real s=0; for (k...) s += f(k);] *)
Definition sum_over (ks : list idx) (f : idx -> real) : real :=
  fold_left (fun s k => s + f k) ks (lit 0 0).

Definition mul (A B : mat4) : mat4 :=
  mtab (fun r c => sum_over all_idx (fun k => mget A r k * mget B k c)).

Definition mulv (A : mat4) (x : vec4) : vec4 :=
  tab (fun r => sum_over all_idx (fun k => mget A r k * get k x)).

Definition norm_inf (A : mat4) : real :=
  fold_left
    (fun best r =>
       let s := sum_over all_idx (fun c => rabs (mget A r c)) in
       if best <? s then s else best)
    all_idx (lit 0 0).

(** The pivot search shared by [det] and [inverse]:
    [piv = k; amax = fabs(col[k]); for r>k: v = fabs(col[r]); if (v > amax) ...] *)
Definition pivot_search (col : idx -> real) (k : idx) : idx * real :=
  fold_left
    (fun pa r =>
       let v := rabs (col r) in
       if snd pa <? v then (r, v) else pa)
    (after k) (k, rabs (col k)).

Definition swap_rows {T} (i j : idx) (A : V4 T) : V4 T :=
  upd j (get i A) (upd i (get j A) A).

(** *** [det] *)

Record det_state : Type := { d_A : mat4; d_sign : Z; d_det : real }.

Definition det_step (st : det_state) (k : idx) : option det_state :=
  let A := d_A st in
  let (piv, amax) := pivot_search (fun r => mget A r k) k in
  if amax =? lit 0 0 then None
  else
    let A1 := if idx_eqb piv k then A else swap_rows piv k A in
    let sign1 := if idx_eqb piv k then d_sign st else (- d_sign st)%Z in
    let akk := mget A1 k k in
    let A2 :=
      fold_left
        (fun M r =>
           let f := mget M r k / akk in
           fold_left (fun M' c => mset M' r c (mget M' r c - f * mget M' k c))
                     (from k) M)
        (after k) A1 in
    Some {| d_A := A2; d_sign := sign1; d_det := d_det st * akk |}.

Fixpoint det_loop (st : det_state) (ks : list idx) : option det_state :=
  match ks with
  | [] => Some st
  | k :: ks' =>
      match det_step st k with
      | None => None
      | Some st' => det_loop st' ks'
      end
  end.

Definition det (A : mat4) : real :=
  match det_loop {| d_A := A; d_sign := 1; d_det := lit 1 0 |} all_idx with
  | None => lit 0 0
  | Some st => d_det st * lit (d_sign st) 0
  end.

(** *** [inverse]: Gauss-Jordan on [real aug[4][8]] *)

(** One row of the augmented system: columns 0..3 and columns 4..7. *)
Record augrow : Type := { lft : V4 real; rgt : V4 real }.

Definition row_scale (s : real) (row : augrow) : augrow :=
  {| lft := vmap (fun v => v * s) (lft row);
     rgt := vmap (fun v => v * s) (rgt row) |}.

(** [for (c<8) aug[r][c] -= f * aug[k][c]] *)
Definition row_axpy (f : real) (rk rr : augrow) : augrow :=
  {| lft := tab (fun c => get c (lft rr) - f * get c (lft rk));
     rgt := tab (fun c => get c (rgt rr) - f * get c (rgt rk)) |}.

Definition aget (aug : V4 augrow) (r c : idx) : real := get c (lft (get r aug)).

(** [real f = aug[r][k]; if (f==0) continue; aug[r][:] -= f*aug[k][:]] *)
Definition eliminate (k : idx) (aug : V4 augrow) (r : idx) : V4 augrow :=
  let f := aget aug r k in
  if f =? lit 0 0 then aug
  else upd r (row_axpy f (get k aug) (get r aug)) aug.

Record elim_state : Type := { g_aug : V4 augrow; g_sign : Z; g_det : real }.

Definition init_aug (A : mat4) : V4 augrow :=
  tab (fun r =>
         {| lft := tab (fun c => mget A r c);
            rgt := tab (fun c => if idx_eqb r c then lit 1 0 else lit 0 0) |}).

(** The largest pivot candidate of column [k], before the tolerance test. *)
Definition pivot_of (st : elim_state) (k : idx) : idx * real :=
  pivot_search (fun r => aget (g_aug st) r k) k.

Definition forward_step (eps : real) (st : elim_state) (k : idx)
  : option elim_state :=
  let (piv, amax) := pivot_of st k in
  if amax <? eps then None
  else
    let aug1 := if idx_eqb piv k then g_aug st else swap_rows piv k (g_aug st) in
    let sign1 := if idx_eqb piv k then g_sign st else (- g_sign st)%Z in
    let akk := aget aug1 k k in
    let inv_akk := lit 1 0 / akk in
    let aug2 := upd k (row_scale inv_akk (get k aug1)) aug1 in
    let aug3 := fold_left (eliminate k) (after k) aug2 in
    Some {| g_aug := aug3; g_sign := sign1; g_det := g_det st * akk |}.

(** The forward loop; [inl d] is the early [return false], with the value
    [out_det] holds at that moment. *)
Fixpoint forward (eps : real) (st : elim_state) (ks : list idx)
  : real + elim_state :=
  match ks with
  | [] => inr st
  | k :: ks' =>
      match forward_step eps st k with
      | None => inl (g_det st)
      | Some st' => forward eps st' ks'
      end
  end.

(** [for (int k=3;k>=0;--k) for (int r=0;r<k;++r) ...] *)
Definition back_substitute (aug : V4 augrow) : V4 augrow :=
  fold_left (fun a k => fold_left (eliminate k) (below k) a)
            [I3; I2; I1; I0] aug.

(** The reference parameters [Ainv], [out_det], [out_cond_inf] are passed
    in with their values before the call and returned with their values
    after it. *)
Record inverse_result : Type :=
  { r_ok : bool; r_Ainv : mat4; r_det : real; r_cond_inf : real }.

(** [inverse(A, Ainv, out_det, out_cond_inf, eps)].  The source reads [A]
    when it sets up the augmented system, before anything is written, and
    once more in [real nA = norm_inf(A)], after [Ainv] has been written.
    [A] and [Ainv] are references: [in_place] tells whether the caller
    passed the same object for both, in which case that last read sees the
    inverse just written.  ([out_det] and [out_cond_inf] are taken to be
    distinct objects.) *)
Definition inverse_call (in_place : bool) (A Ainv0 : mat4) (det0 cond0 : real)
  (eps : real) : inverse_result :=
  match forward eps {| g_aug := init_aug A; g_sign := 1; g_det := lit 1 0 |}
                all_idx with
  | inl d =>
      {| r_ok := false; r_Ainv := Ainv0; r_det := d; r_cond_inf := cond0 |}
  | inr st =>
      let d := g_det st * lit (g_sign st) 0 in
      let aug := back_substitute (g_aug st) in
      let Ainv := mtab (fun r c => get c (rgt (get r aug))) in
      let nA := norm_inf (if in_place then Ainv else A) in
      let nInv := norm_inf Ainv in
      {| r_ok := true; r_Ainv := Ainv; r_det := d; r_cond_inf := nA * nInv |}
  end.

(** The call with an output object [Ainv] other than [A], which holds
    [Ainv0] on entry: this is how the library calls [inverse]
    ([prepare_metric]). *)
Definition inverse (A Ainv0 : mat4) (det0 cond0 : real) (eps : real)
  : inverse_result :=
  inverse_call false A Ainv0 det0 cond0 eps.

(** The call [inverse(A, A, out_det, out_cond_inf, eps)]. *)
Definition inverse_in_place (A : mat4) (det0 cond0 : real) (eps : real)
  : inverse_result :=
  inverse_call true A A det0 cond0 eps.

(** The default tolerance [real eps = real(1e-14)]. *)
Definition inverse_default_eps : real := lit 1 (-14).

End Linalg.

Arguments vec4 real : clear implicits.
Arguments mat4 real : clear implicits.
Arguments sym4 real : clear implicits.

(* ------------------------------------------------------------------ *)
(** ** eigen_jacobi.hpp *)
(* ------------------------------------------------------------------ *)

Section EigenJacobi.
Context {real : Type} {RR : Real real}.
Local Open Scope real_scope.

Definition max_offdiag_abs (A : mat4 real) : idx * idx * real :=
  fold_left
    (fun st i =>
       fold_left
         (fun (pqv : idx * idx * real) j =>
            let v := rabs (mget A i j) in
            if snd pqv <? v then (i, j, v) else pqv)
         (after i) st)
    all_idx (I0, I1, rabs (mget A I0 I1)).

(** [A.m[a][b] = A.m[b][a] = x;] assigns right to left. *)
Definition mset2 (A : mat4 real) (a b : idx) (x : real) : mat4 real :=
  mset (mset A b a x) a b x.

Definition jacobi_rotate (A Q : mat4 real) (p q : idx)
  : mat4 real * mat4 real :=
  if idx_eqb p q then (A, Q)
  else
    let app := mget A p p in
    let aqq := mget A q q in
    let apq := mget A p q in
    if apq =? lit 0 0 then (A, Q)
    else
      let tau := (aqq - app) / (lit 2 0 * apq) in
      let t :=
        if lit 0 0 <=? tau
        then lit 1 0 / (tau + rsqrt (lit 1 0 + tau * tau))
        else lit 1 0 / (tau - rsqrt (lit 1 0 + tau * tau)) in
      let c := lit 1 0 / rsqrt (lit 1 0 + t * t) in
      let s := t * c in
      let A := mset A p p (app - t * apq) in
      let A := mset A q q (aqq + t * apq) in
      let A := mset2 A p q (lit 0 0) in
      let A :=
        fold_left
          (fun A k =>
             if idx_eqb k p || idx_eqb k q then A
             else
               let aik := mget A p k in
               let akq := mget A q k in
               let A := mset2 A p k (c * aik - s * akq) in
               mset2 A q k (s * aik + c * akq))
          all_idx A in
      let Q :=
        fold_left
          (fun Q k =>
             let qkp := mget Q k p in
             let qkq := mget Q k q in
             let Q := mset Q k p (c * qkp - s * qkq) in
             mset Q k q (s * qkp + c * qkq))
          all_idx Q in
      (A, Q).

(** [for (sweep<max_sweeps) { max_offdiag_abs; if (off < tol) break; rotate }] *)
Fixpoint jacobi_sweeps (max_sweeps : nat) (tol : real) (A Q : mat4 real)
  : mat4 real * mat4 real :=
  match max_sweeps with
  | O => (A, Q)
  | S n =>
      let '(p, q, off) := max_offdiag_abs A in
      if off <? tol then (A, Q)
      else let (A', Q') := jacobi_rotate A Q p q in jacobi_sweeps n tol A' Q'
  end.

(** Returns [(Q_out, lam)]; the boolean result of the source is always
    [true]. *)
Definition jacobi_symmetric_4x4 (A_in : mat4 real) (max_sweeps : nat)
  (tol : real) : mat4 real * vec4 real :=
  let (A, Q) := jacobi_sweeps max_sweeps tol A_in identity in
  (Q, tab (fun i => mget A i i)).

End EigenJacobi.

(* ------------------------------------------------------------------ *)
(** ** metric.hpp *)
(* ------------------------------------------------------------------ *)

Section Metric.
Context {real : Type} {RR : Real real}.
Local Open Scope real_scope.

(** [std::max(a,b)] is [(a < b) ? b : a]. *)
Definition rmax (a b : real) : real := if a <? b then b else a.
(** [std::min(a,b)] is [(b < a) ? b : a]. *)
Definition rmin (a b : real) : real := if b <? a then b else a.

Definition from_A (A : mat4 real) : sym4 real :=
  sym4_of (mul (mul (transpose A) minkowski_eta) A).

(** Inertia counts [(nneg, npos, nzero)]. *)
Definition validate_signature (g : sym4 real) (eps : real) : Z * Z * Z :=
  let (_, lam) := jacobi_symmetric_4x4 g 64 (lit 1 (-14)) in
  fold_left
    (fun (n : Z * Z * Z) i =>
       let '(nneg, npos, nzero) := n in
       if get i lam <? - eps then (nneg + 1, npos, nzero)%Z
       else if eps <? get i lam then (nneg, npos + 1, nzero)%Z
       else (nneg, npos, nzero + 1)%Z)
    all_idx (0, 0, 0)%Z.

Definition validate_default_eps : real := lit 1 (-10).
Definition project_default_eps : real := lit 1 (-9).

(** The index that receives the negative sign: the negative eigenvalue of
    largest magnitude or, when no eigenvalue is negative, the one of
    smallest magnitude.  [neg_idx = -1] of the source is [None]. *)
Definition choose_negative (lam : vec4 real) : option idx :=
  let absv := vmap rabs lam in
  let '(neg_count, neg_idx) :=
    fold_left
      (fun (st : Z * option idx) i =>
         if get i lam <? lit 0 0 then
           ((fst st + 1)%Z,
            match snd st with
            | None => Some i
            | Some j => if get j absv <? get i absv then Some i else Some j
            end)
         else st)
      all_idx (0%Z, None) in
  if (neg_count =? 0)%Z then
    Some (fold_left (fun minabs i =>
                       if get i absv <? get minabs absv then i else minabs)
                    (after I0) I0)
  else neg_idx.

(** The signed, floored spectrum [L]. *)
Definition repaired_spectrum (lam : vec4 real) (eps : real) : vec4 real :=
  let neg_idx := choose_negative lam in
  tab (fun i =>
         let a := rmax (rabs (get i lam)) eps in
         match neg_idx with
         | Some j => if idx_eqb i j then - a else a
         | None => a
         end).

(** The matrix [out] that [project_signature] returns. *)
Definition project_signature (g_in : sym4 real) (eps : real) : sym4 real :=
  let (Q, lam) := jacobi_symmetric_4x4 g_in 64 (lit 1 (-14)) in
  let L := repaired_spectrum lam eps in
  let D := mtab (fun r c => if idx_eqb r c then get r L else lit 0 0) in
  let tmp := mul Q D in
  let gP := mul tmp (transpose Q) in
  sym4_of gP.

(** [project_signature] with its effect: the matrix it returns and, when
    the record [project_signature_warn] is written, the inertia that the
    record carries.  The record is written when the inertia measured on
    the result is not (1,3) and the logger [lg] writes records of level
    [warn]. *)
Definition project_signature_traced (lg : Telemetry.Logger)
  (g_in : sym4 real) (eps : real) : sym4 real * option (Z * Z * Z) :=
  let out := project_signature g_in eps in
  let '(nneg, npos, nzero) := validate_signature out validate_default_eps in
  (out,
   if negb ((nneg =? 1)%Z && (npos =? 3)%Z)
      && Telemetry.logs lg Telemetry.warn
   then Some (nneg, npos, nzero) else None).

End Metric.

(* ------------------------------------------------------------------ *)
(** ** units.hpp, field.hpp, deriv.hpp *)
(* ------------------------------------------------------------------ *)

Section Fields.
Context {real : Type} {RR : Real real}.
Local Open Scope real_scope.

(** [struct Constants]; the singleton [units::C()] is threaded through the
    functions that read it. *)
Record Constants : Type :=
  { c_light : real; g_eps : real; fd_h : real; dtau_default : real }.

(** The member initialisers of [Constants]. *)
Definition default_constants : Constants :=
  {| c_light := lit 1 0; g_eps := lit 1 (-12);
     fd_h := lit 1 (-4); dtau_default := lit 5 (-1) |}.

(** [IMetricField::g] and [IPotential::V]. *)
Definition IMetricField : Type := vec4 real -> sym4 real.
Definition IPotential : Type := vec4 real -> real.

Definition MinkowskiField : IMetricField := fun _ => minkowski_eta.
Definition ZeroPotential : IPotential := fun _ => lit 0 0.
Definition RadialPotential (k : real) : IPotential :=
  fun x => lit 5 (-1) * k
           * (get I1 x * get I1 x + get I2 x * get I2 x + get I3 x * get I3 x).

(** [xp.v[a] += h] and [xm.v[a] -= h] *)
Definition shift_plus (x : vec4 real) (a : idx) (h : real) : vec4 real :=
  upd a (get a x + h) x.
Definition shift_minus (x : vec4 real) (a : idx) (h : real) : vec4 real :=
  upd a (get a x - h) x.

Definition dmetric (F : IMetricField) (x : vec4 real) (a : idx) (h : real)
  : mat4 real :=
  let gp := F (shift_plus x a h) in
  let gm := F (shift_minus x a h) in
  let s := lit 5 (-1) / h in
  mtab (fun r c => (mget gp r c - mget gm r c) * s).

(** [struct DMetric4 { mat4 dg[4]; }] *)
Definition DMetric4 : Type := V4 (mat4 real).

Definition dmetric4 (F : IMetricField) (x : vec4 real) (h : real) : DMetric4 :=
  tab (fun a => dmetric F x a h).

Definition gradV (P : IPotential) (x : vec4 real) (h : real) : vec4 real :=
  tab (fun a =>
         let vp := P (shift_plus x a h) in
         let vm := P (shift_minus x a h) in
         (vp - vm) * (lit 5 (-1) / h)).

End Fields.

Arguments Constants real : clear implicits.
Arguments IMetricField real : clear implicits.
Arguments IPotential real : clear implicits.
Arguments DMetric4 real : clear implicits.

(* ------------------------------------------------------------------ *)
(** ** quadform.hpp, connection.hpp, curvature.hpp *)
(* ------------------------------------------------------------------ *)

Section Geometry.
Context {real : Type} {RR : Real real}.
Local Open Scope real_scope.

Definition qform (g : mat4 real) (v : vec4 real) : real :=
  fold_left
    (fun s r =>
       let row := sum_over all_idx (fun c => mget g r c * get c v) in
       s + get r v * row)
    all_idx (lit 0 0).

Definition lower (g : mat4 real) (v : vec4 real) : vec4 real :=
  tab (fun r => sum_over all_idx (fun c => mget g r c * get c v)).

Definition raise (g_inv : mat4 real) (v : vec4 real) : vec4 real :=
  tab (fun r => sum_over all_idx (fun c => mget g_inv r c * get c v)).

(** [G[mu][a][b]] *)
Definition Gamma : Type := V4 (V4 (V4 real)).
Definition Gget (G : Gamma) (mu a b : idx) : real := get b (get a (get mu G)).

Record MetricPack : Type :=
  { g : sym4 real; g_inv : mat4 real; dg : DMetric4 real; inv_ok : bool }.

Definition prepare_metric (K : Constants real) (F : IMetricField real)
  (x : vec4 real) : MetricPack :=
  let gx := F x in
  let res := inverse gx mat4_zero (lit 0 0) (lit 0 0) (lit 1 (-14)) in
  {| g := gx; g_inv := r_Ainv res;
     dg := dmetric4 F x (fd_h K); inv_ok := r_ok res |}.

Definition christoffel (M : MetricPack) : Gamma :=
  tab (fun mu => tab (fun a => tab (fun b =>
    let s :=
      sum_over all_idx
        (fun nu =>
           let term := mget (get a (dg M)) nu b + mget (get b (dg M)) nu a
                       - mget (get nu (dg M)) a b in
           mget (g_inv M) mu nu * term) in
    lit 5 (-1) * s))).

Definition dGamma_dir (K : Constants real) (F : IMetricField real)
  (x : vec4 real) (a : idx) (h : real) : Gamma :=
  let Gp := christoffel (prepare_metric K F (shift_plus x a h)) in
  let Gm := christoffel (prepare_metric K F (shift_minus x a h)) in
  let s := lit 5 (-1) / h in
  tab (fun mu => tab (fun nu => tab (fun b =>
    (Gget Gp mu nu b - Gget Gm mu nu b) * s))).

(** [R[mu][nu][a][b]] *)
Definition Riemann : Type := V4 (V4 (V4 (V4 real))).
Definition Rget (R : Riemann) (mu nu a b : idx) : real :=
  get b (get a (get nu (get mu R))).

(** The component loop body of [riemann_at], from [Gamma] and its four
    directional differences. *)
Definition riemann_component (G : Gamma) (dG : V4 Gamma) (mu nu a b : idx)
  : real :=
  fold_left
    (fun s sig =>
       let s := s + Gget G mu sig a * Gget G sig nu b in
       s - Gget G mu sig b * Gget G sig nu a)
    all_idx (Gget (get a dG) mu nu b - Gget (get b dG) mu nu a).

Definition riemann_at (K : Constants real) (F : IMetricField real)
  (x : vec4 real) : Riemann :=
  let G := christoffel (prepare_metric K F x) in
  let dG := tab (fun a => dGamma_dir K F x a (fd_h K)) in
  tab (fun mu => tab (fun nu => tab (fun a => tab (fun b =>
    riemann_component G dG mu nu a b)))).

Definition ricci (R : Riemann) : mat4 real :=
  mtab (fun a b => sum_over all_idx (fun mu => Rget R mu a mu b)).

Definition scalar (ginv Ric : mat4 real) : real :=
  fold_left
    (fun s a => fold_left (fun s b => s + mget ginv a b * mget Ric a b)
                          all_idx s)
    all_idx (lit 0 0).

End Geometry.

Arguments Gamma real : clear implicits.
Arguments Riemann real : clear implicits.
Arguments MetricPack real : clear implicits.

(* ------------------------------------------------------------------ *)
(** ** integrators.hpp *)
(* ------------------------------------------------------------------ *)

Section Integrators.
Context {real : Type} {RR : Real real}.
Local Open Scope real_scope.

(** [const IPotential* P]: [None] is [nullptr]. *)
Definition accel (K : Constants real) (M : MetricPack real) (G : Gamma real)
  (u : vec4 real) (P : option (IPotential real)) (x : vec4 real) : vec4 real :=
  let a : vec4 real :=
    tab (fun mu =>
           - fold_left
               (fun s a_ =>
                  fold_left (fun s b => s + Gget G mu a_ b * get a_ u * get b u)
                            all_idx s)
               all_idx (lit 0 0)) in
  match P with
  | None => a
  | Some V =>
      let gV := gradV V x (fd_h K) in
      tab (fun mu =>
             let s := sum_over all_idx
                        (fun nu => mget (g_inv M) mu nu * get nu gV) in
             get mu a + - s)
  end.

Definition renormalize_timelike (gm : mat4 real) (u : vec4 real) : vec4 real :=
  let s := qform gm u in
  if lit 0 0 <=? s then u
  else
    let k := lit 1 0 / rsqrt (- s) in
    vmap (fun ui => ui * k) u.

(** The position after the half-step update and the velocity before the
    final renormalisation, as [geodesic_step] forms them. *)
Definition verlet_update (K : Constants real) (F : IMetricField real)
  (P : option (IPotential real)) (x u : vec4 real) (dtau : real)
  : vec4 real * vec4 real * MetricPack real :=
  let M := prepare_metric K F x in
  let G := christoffel M in
  let a0 := accel K M G u P x in
  let uh := tab (fun i => get i u + lit 5 (-1) * dtau * get i a0) in
  let x1 := tab (fun i => get i x + dtau * get i uh) in
  let M1 := prepare_metric K F x1 in
  let G1 := christoffel M1 in
  let a1 := accel K M1 G1 uh P x1 in
  let u1 := tab (fun i => get i uh + lit 5 (-1) * dtau * get i a1) in
  (x1, u1, M1).

(** Returns the updated [(x, u)]. *)
Definition geodesic_step (K : Constants real) (F : IMetricField real)
  (P : option (IPotential real)) (x u : vec4 real) (dtau : real)
  : vec4 real * vec4 real :=
  let '(x1, u1, M1) := verlet_update K F P x u dtau in
  (x1, renormalize_timelike (g M1) u1).

Definition rk4_geodesic (K : Constants real) (F : IMetricField real)
  (x u : vec4 real) (dtau : real) (P : option (IPotential real))
  : vec4 real * vec4 real :=
  geodesic_step K F P x u dtau.

(** The caller's loop: [n] successive steps on the same worldline state. *)
Fixpoint geodesic_steps (n : nat) (K : Constants real) (F : IMetricField real)
  (P : option (IPotential real)) (xu : vec4 real * vec4 real) (dtau : real)
  : vec4 real * vec4 real :=
  match n with
  | O => xu
  | S n' => let (x, u) := geodesic_steps n' K F P xu dtau in
            geodesic_step K F P x u dtau
  end.

End Integrators.

(* ------------------------------------------------------------------ *)
(** ** physics/einstein_fit.hpp, audits/pd_proxy.hpp *)
(* ------------------------------------------------------------------ *)

Section Physics.
Context {real : Type} {RR : Real real}.
Local Open Scope real_scope.

Definition to_sym4 (A : mat4 real) : sym4 real :=
  mtab (fun i j => lit 5 (-1) * (mget A i j + mget A j i)).

Definition einstein_at (K : Constants real) (F : IMetricField real)
  (x : vec4 real) : sym4 real :=
  let Rm := riemann_at K F x in
  let Rc := ricci Rm in
  let gx := F x in
  let R := scalar (g_inv (prepare_metric K F x)) Rc in
  mtab (fun i j => mget Rc i j - lit 5 (-1) * mget gx i j * R).

Definition pd_proxy_square (gm : sym4 real) : mat4 real := mul gm gm.

(** One entry of the factorisation: [None] is the early [return false]. *)
Definition cholesky_entry (A : mat4 real) (eps : real) (L : mat4 real)
  (i j : idx) : option (mat4 real) :=
  let sum := fold_left (fun s k => s - mget L i k * mget L j k)
                       (below j) (mget A i j) in
  if idx_eqb i j then
    if sum <=? eps then None else Some (mset L i j (rsqrt sum))
  else Some (mset L i j (sum / mget L j j)).

Fixpoint cholesky_loop (A : mat4 real) (eps : real) (L : mat4 real)
  (ij : list (idx * idx)) : bool * mat4 real :=
  match ij with
  | [] => (true, L)
  | (i, j) :: rest =>
      match cholesky_entry A eps L i j with
      | None => (false, L)
      | Some L' => cholesky_loop A eps L' rest
      end
  end.

(** [for (i<4) for (j<=i)] *)
Definition lower_triangle : list (idx * idx) :=
  flat_map (fun i => map (fun j => (i, j)) (upto i)) all_idx.

Definition cholesky4 (A : mat4 real) (eps : real) : bool * mat4 real :=
  cholesky_loop A eps mat4_zero lower_triangle.

Record PDReport : Type :=
  { pd_ok : bool; min_diagL : real; max_diagL : real }.

Definition check_pd (A : mat4 real) : PDReport :=
  let (ok, L) := cholesky4 A (lit 0 0) in
  if ok then
    let mn := fold_left (fun m i => rmin m (mget L i i)) all_idx (mget L I0 I0) in
    let mx := fold_left (fun m i => rmax m (mget L i i)) all_idx (mget L I0 I0) in
    {| pd_ok := true; min_diagL := mn; max_diagL := mx |}
  else {| pd_ok := false; min_diagL := lit 0 0; max_diagL := lit 0 0 |}.

End Physics.

(* ------------------------------------------------------------------ *)
(** ** Predicates used in the statements *)
(* ------------------------------------------------------------------ *)

Section Predicates.
Context {real : Type} {RR : Real real}.
Local Open Scope real_scope.

(** [M[i][j] == M[j][i]] for all [i], [j]. *)
Definition symmetric (A : mat4 real) : Prop :=
  forall i j : idx, mget A i j = mget A j i.

(** A scalar that compares equal to zero ([x == real(0)]). *)
Definition is_zero (x : real) : Prop := (x =? lit 0 0) = true.

(** Row [r] of [A] consists of zeros. *)
Definition zero_row (A : mat4 real) (r : idx) : Prop :=
  forall c : idx, is_zero (mget A r c).

(** The state of the elimination when step [k] begins, i.e. after the
    steps before [k] have all found an acceptable pivot. *)
Fixpoint forward_prefix (eps : real) (st : elim_state) (ks : list idx)
  : option elim_state :=
  match ks with
  | [] => Some st
  | k :: ks' =>
      match forward_step eps st k with
      | None => None
      | Some st' => forward_prefix eps st' ks'
      end
  end.

Definition state_at_step (eps : real) (A : mat4 real) (k : idx)
  : option elim_state :=
  forward_prefix eps {| g_aug := init_aug A; g_sign := 1; g_det := lit 1 0 |}
                 (below k).

(** Trivial kernel: the mathematical meaning of "non-singular". *)
Definition nonsingular (A : mat4 real) : Prop :=
  forall v : vec4 real, mulv A v = vec4_zero -> v = vec4_zero.

End Predicates.

(* ------------------------------------------------------------------ *)
(** ** Auxiliary definitions for the proofs *)
(* ------------------------------------------------------------------ *)

(** [n] applications of [f], as in a caller's loop. *)
Fixpoint iterate {A : Type} (n : nat) (f : A -> A) (x : A) : A :=
  match n with O => x | S n' => f (iterate n' f x) end.

(** The left block (columns 0..3) of row [r] of the augmented system
    compares equal to zero. *)
Definition zero_left {real : Type} {RR : Real real} (aug : V4 augrow) (r : idx)
  : Prop :=
  forall c, is_zero (aget aug r c).

(** Binary64 values that are zeros, subnormal or normal numbers. *)
Definition SF_finite (x : spec_float) : Prop :=
  match x with S754_zero _ | S754_finite _ _ _ => True | _ => False end.

(** A binary64 zero of either sign. *)
Definition fzero (z : float) : Prop := z = 0%float \/ z = (-0)%float.

(* ------------------------------------------------------------------ *)
(** ** Concrete inputs (binary64) *)
(* ------------------------------------------------------------------ *)

Module Inputs.
Local Open Scope float_scope.

Definition origin : vec4 float := mkV4 0 0 0 0.
Definition ones : vec4 float := mkV4 1 1 1 1.
(** The velocity [(1,0,0,0)] of a particle at rest. *)
Definition u_rest : vec4 float := mkV4 1 0 0 0.
Definition minus_zeros : vec4 float := mkV4 (-0) (-0) (-0) (-0).
(** The connection of flat spacetime: all 64 coefficients are [+0]. *)
Definition zero_gamma : Gamma float :=
  tab (fun _ => tab (fun _ => tab (fun _ => 0))).

(** The step size [0.1] (the double nearest to it). *)
Definition tenth : float := lit 1 (-1).

(** The metric field [diag(-1, 1 + 100 t + 200 x, 1, 1)]: symmetric at
    every point, of Lorentzian signature around the origin. *)
Definition slope_field : IMetricField float :=
  fun x => mset minkowski_eta I1 I1 (1 + 100 * get I0 x + 200 * get I1 x).

(** The conformally flat metric field [(1 + t + 2 x + 3 y) * eta]. *)
Definition conformal_field : IMetricField float :=
  fun x =>
    let f := 1 + get I0 x + 2 * get I1 x + 3 * get I2 x in
    mtab (fun r c => mget minkowski_eta r c * f).

(** The rank-one matrix with all sixteen entries [1e8]. *)
Definition rank_one : sym4 float := mtab (fun _ _ => 100000000).

(** A symmetric matrix of determinant [-2^-27], whose leading 2x2 block
    [[1, 1], [1, 1 + 2^-27]] is close to singular. *)
Definition near_singular : sym4 float :=
  mkV4 (mkV4 1 1 0 0) (mkV4 1 (1 + 0x1p-27) 0 0) (mkV4 0 0 1 0) (mkV4 0 0 0 (-1)).

(** A metric field that is singular everywhere. *)
Definition null_field : IMetricField float := fun _ => mat4_zero.

(** A matrix whose third row is zero. *)
Definition zero_row_matrix : mat4 float :=
  mkV4 (mkV4 2 1 0 0) (mkV4 1 3 1 0) (mkV4 0 0 0 0) (mkV4 0 1 0 4).

End Inputs.

(** The velocity [(1,0,0,0)] in exact arithmetic. *)
Definition u_rest_exact : vec4 R := mkV4 1%R 0%R 0%R 0%R.

(* ================================================================== *)
(** * Further parts of the library *)
(* ================================================================== *)

(* ------------------------------------------------------------------ *)
(** ** Literals of the sources that [lit] does not reach *)
(* ------------------------------------------------------------------ *)

(** [real(1e-30)]: at binary64 the double nearest to [1e-30]; the power
    [10^30] is beyond the integers that [lit] converts exactly. *)
Class RealTiny (real : Type) : Type := { lit_1e_30 : real }.

#[export] Instance binary64_tiny : RealTiny float :=
  { lit_1e_30 := 0x1.4484bfeebc2ap-100%float }.

#[export] Instance exactR_tiny : RealTiny R :=
  { lit_1e_30 := R_lit 1 (-30) }.

(* ------------------------------------------------------------------ *)
(** ** tetrad.hpp *)
(* ------------------------------------------------------------------ *)

Section Tetrad.
Context {real : Type} {RR : Real real}.
Local Open Scope real_scope.

(** [int neg_idx = 0; for (i<4) if (lam[i] < 0) { neg_idx = i; break; }] *)
Definition first_negative (lam : vec4 real) : idx :=
  match find (fun i => get i lam <? lit 0 0) all_idx with
  | Some i => i
  | None => I0
  end.

(** [(i==j) ? (i==0 ? real(-1) : real(1)) : real(0)] *)
Definition eta_entry (i j : idx) : real :=
  if idx_eqb i j then (if idx_eqb i I0 then lit (-1) 0 else lit 1 0)
  else lit 0 0.

(** [real fro=0; for r, c: fro += M[r][c]*M[r][c];] *)
Definition sum_squares (M : mat4 real) : real :=
  fold_left
    (fun s r => fold_left (fun s c => s + mget M r c * mget M r c) all_idx s)
    all_idx (lit 0 0).

(** The returned error and the reference parameters [E_out],
    [g_tilde_out]. *)
Record tetrad_result : Type :=
  { t_fro : real; t_E : mat4 real; t_gtilde : mat4 real }.

Definition build_tetrad (g_in : sym4 real) (eps : real) : tetrad_result :=
  let gP := project_signature g_in (rmax (lit 1 (-12)) eps) in
  let (Q, lam) := jacobi_symmetric_4x4 gP 64 (lit 1 (-14)) in
  let neg_idx := first_negative lam in
  let Dinv :=
    mtab (fun i j =>
            if idx_eqb i j
            then lit 1 0 / rsqrt (rmax (rabs (get i lam)) eps)
            else lit 0 0) in
  let E0 := mul Q Dinv in
  (** [for (r<4) std::swap(E.m[r][0], E.m[r][neg_idx])] *)
  let E := if idx_eqb neg_idx I0 then E0
           else vmap (swap_rows I0 neg_idx) E0 in
  let M := mul (mul (transpose E) gP) E in
  let M := mtab (fun i j => mget M i j - eta_entry i j) in
  {| t_fro := rsqrt (sum_squares M);
     t_E := E;
     t_gtilde := mul E (transpose E) |}.

Definition build_tetrad_default_eps : real := lit 1 (-12).

Definition is_pd (Gt : mat4 real) (eps : real) : bool :=
  let (_, lam) := jacobi_symmetric_4x4 Gt 64 (lit 1 (-14)) in
  forallb (fun i => negb (get i lam <=? eps)) all_idx.

End Tetrad.

(* ------------------------------------------------------------------ *)
(** ** audits/time_dilation.hpp *)
(* ------------------------------------------------------------------ *)

Section TimeDilation.
Context {real : Type} {RR : Real real} {RT : RealTiny real}.
Local Open Scope real_scope.

Record TDReport : Type := { td_gamma : real; td_v_norm : real; td_q_u : real }.

(** [jacobi_symmetric_4x4(g, V, evals)] runs with the default arguments
    [max_sweeps = 32], [tol = 1e-12]. *)
Definition timelike_unit (gm : sym4 real) : vec4 real :=
  let (V, evals) := jacobi_symmetric_4x4 gm 32 (lit 1 (-12)) in
  let k := fold_left (fun k i => if get i evals <? get k evals then i else k)
                     (after I0) I0 in
  let e := tab (fun r => mget V r k) in
  let lam := get k evals in
  let scale := lit 1 0 / rsqrt (rmax lit_1e_30 (- lam)) in
  tab (fun i => get i e * scale).

Definition time_dilation (gm : sym4 real) (u : vec4 real) : TDReport :=
  let q_u := qform gm u in
  let t := timelike_unit gm in
  let gut :=
    fold_left
      (fun s i =>
         fold_left (fun s j => s + get i u * mget gm i j * get j t) all_idx s)
      all_idx (lit 0 0) in
  let gamma := - gut in
  let w := tab (fun i => get i u - gamma * get i t) in
  let gw := qform gm w in
  let v2 := gw / rmax lit_1e_30 (gamma * gamma) in
  {| td_gamma := gamma; td_v_norm := rsqrt (rmax (lit 0 0) v2); td_q_u := q_u |}.

End TimeDilation.

(* ------------------------------------------------------------------ *)
(** ** physics/stress_energy.hpp *)
(* ------------------------------------------------------------------ *)

Module StressEnergy.
Section StressEnergy.
Context {real : Type} {RR : Real real}.
(** [std::exp], which the interface [Real] does not provide. *)
Variable rexp : real -> real.
Local Open Scope real_scope.

Record Event : Type :=
  { ev_x : vec4 real; ev_u : vec4 real; ev_E : real; ev_m : real }.

Record TSParams : Type :=
  { sigma : real; eta : real; kappa : real; c2 : real }.

(** The member initialisers of [TSParams]. *)
Definition default_params : TSParams :=
  {| sigma := lit 1 0; eta := lit 1 (-2); kappa := lit 1 (-1); c2 := lit 1 0 |}.

Definition lower_u_outer (gm : sym4 real) (u : vec4 real) : mat4 real :=
  let ulim := tab (fun mu => sum_over all_idx (fun a => mget gm mu a * get a u)) in
  mtab (fun mu nu => get mu ulim * get nu ulim).

Definition scaled (A : mat4 real) (s : real) : mat4 real :=
  mtab (fun i j => mget A i j * s).

Definition add (A B : mat4 real) : mat4 real :=
  mtab (fun i j => mget A i j + mget B i j).

Definition kernel_exp (r2 sigma_ : real) : real :=
  let inv := lit 5 (-1) / (sigma_ * sigma_) in
  rexp (- r2 * inv).

(** The lambda [d2] of [stress_energy_at]. *)
Definition d2 (gtilde : mat4 real) (x xi : vec4 real) : real :=
  let d := tab (fun i => get i x - get i xi) in
  let y := tab (fun i => sum_over all_idx (fun j => mget gtilde i j * get j d)) in
  sum_over all_idx (fun i => get i d * get i y).

Definition stress_energy_at (F : IMetricField real) (evs : list Event)
  (x : vec4 real) (P : TSParams) : mat4 real :=
  let gm := F x in
  let gtilde := pd_proxy_square gm in
  fold_left
    (fun T e =>
       let w := kernel_exp (d2 gtilde x (ev_x e)) (sigma P) in
       let umu_unu := lower_u_outer gm (ev_u e) in
       let term1 := scaled umu_unu (ev_E e) in
       let gmat := mtab (fun i j => mget gm i j) in
       let term2 := scaled gmat (eta P * ev_m e * c2 P) in
       add T (scaled (add term1 term2) w))
    evs mat4_zero.

End StressEnergy.
End StressEnergy.

(* ------------------------------------------------------------------ *)
(** ** diagnostics/grid.hpp, physics/einstein_fit.hpp *)
(* ------------------------------------------------------------------ *)

Section Diagnostics.
Context {real : Type} {RR : Real real}.
Local Open Scope real_scope.

Definition curv_scalar (K : Constants real) (F : IMetricField real)
  (x : vec4 real) : real :=
  let P := prepare_metric K F x in
  let Rm := riemann_at K F x in
  let Rc := ricci Rm in
  scalar (g_inv P) Rc.

Definition to_mat4 (gm : sym4 real) : mat4 real := mtab (fun i j => mget gm i j).

End Diagnostics.

(* ------------------------------------------------------------------ *)
(** ** Reference notions of linear algebra (exact arithmetic) *)
(* ------------------------------------------------------------------ *)

Section Reference.
Local Open Scope R_scope.

Definition det2 (a b c d : R) : R := a * d - b * c.

Definition det3 (a b c d e f g h i : R) : R :=
  a * det2 e f h i - b * det2 d f g i + c * det2 d e g h.

(** The determinant of a 4x4 matrix, by cofactor expansion along the
    first row. *)
Definition laplace_det (A : mat4 R) : R :=
  let a := mget A in
    a I0 I0 * det3 (a I1 I1) (a I1 I2) (a I1 I3)
                   (a I2 I1) (a I2 I2) (a I2 I3)
                   (a I3 I1) (a I3 I2) (a I3 I3)
  - a I0 I1 * det3 (a I1 I0) (a I1 I2) (a I1 I3)
                   (a I2 I0) (a I2 I2) (a I2 I3)
                   (a I3 I0) (a I3 I2) (a I3 I3)
  + a I0 I2 * det3 (a I1 I0) (a I1 I1) (a I1 I3)
                   (a I2 I0) (a I2 I1) (a I2 I3)
                   (a I3 I0) (a I3 I1) (a I3 I3)
  - a I0 I3 * det3 (a I1 I0) (a I1 I1) (a I1 I2)
                   (a I2 I0) (a I2 I1) (a I2 I2)
                   (a I3 I0) (a I3 I1) (a I3 I2).

(** The trace. *)
Definition trace (A : mat4 R) : R :=
  mget A I0 I0 + mget A I1 I1 + mget A I2 I2 + mget A I3 I3.

(** [Q^T Q = I]. *)
Definition orthogonal (Q : mat4 R) : Prop :=
  mul (transpose Q) Q = identity.

Definition positive_definite (A : mat4 R) : Prop :=
  forall v : vec4 R, v <> vec4_zero -> 0 < qform A v.

End Reference.

(** The state of [det] when the step for column [n] begins: the columns
    before [n] are zero below the diagonal. *)
Definition sub_diag_zero (n : nat) (M : mat4 R) : Prop :=
  forall r j : idx,
    (idx_nat j < n)%nat -> (idx_nat j < idx_nat r)%nat -> mget M r j = 0%R.

Definition diag_prod (n : nat) (M : mat4 R) : R :=
  fold_left (fun p j => if Nat.ltb (idx_nat j) n then (p * mget M j j)%R else p)
            all_idx 1%R.

Definition det_inv (A0 : mat4 R) (n : nat) (st : det_state) : Prop :=
  (d_sign st = 1 \/ d_sign st = -1)%Z /\
  sub_diag_zero n (d_A st) /\
  d_det st = diag_prod n (d_A st) /\
  (IZR (d_sign st) * laplace_det (d_A st) = laplace_det A0)%R.

Section GaussJordanInvariants.
Local Open Scope R_scope.

(** The row vector [v A]. *)
Definition row_times (v : vec4 R) (A : mat4 R) : vec4 R :=
  tab (fun c => sum_over all_idx (fun j => (get j v * mget A j c)%real)).

(** A row [(l | r)] of the augmented system of [inverse] stands for the
    equation [l = r A]. *)
Definition row_rel (A : mat4 R) (row : augrow) : Prop :=
  lft row = row_times (rgt row) A.

(** The left block of the augmented system. *)
Definition lblock (aug : V4 (@augrow R)) : mat4 R :=
  mtab (fun r c => aget aug r c).

(** The right block of the augmented system. *)
Definition rblock (aug : V4 (@augrow R)) : mat4 R :=
  mtab (fun r c => get c (rgt (get r aug))).

(** The columns before [n] of the left block are unit columns below and on
    the diagonal. *)
Definition unit_cols (n : nat) (M : mat4 R) : Prop :=
  forall j : idx, (idx_nat j < n)%nat ->
    mget M j j = 1 /\
    forall r : idx, (idx_nat j < idx_nat r)%nat -> mget M r j = 0.

Definition fwd_inv (A : mat4 R) (n : nat) (st : @elim_state R) : Prop :=
  (forall r, row_rel A (get r (g_aug st))) /\
  unit_cols n (lblock (g_aug st)) /\
  (g_sign st = 1 \/ g_sign st = -1)%Z /\
  g_det st <> 0 /\
  IZR (g_sign st) * g_det st * laplace_det (lblock (g_aug st)) = laplace_det A.

(** The adjugate: the transposed matrix of cofactors. *)
Definition adjugate (A : mat4 R) : mat4 R :=
  let a := mget A in
  let minor (r c : idx) : R :=
    (* the determinant of [A] without row [r] and column [c] *)
    let rows := filter (fun i => negb (idx_eqb i r)) all_idx in
    let cols := filter (fun j => negb (idx_eqb j c)) all_idx in
    match rows, cols with
    | [r0; r1; r2], [c0; c1; c2] =>
        det3 (a r0 c0) (a r0 c1) (a r0 c2)
             (a r1 c0) (a r1 c1) (a r1 c2)
             (a r2 c0) (a r2 c1) (a r2 c2)
    | _, _ => 0
    end in
  mtab (fun i j =>
          if Nat.even (idx_nat i + idx_nat j) then minor j i else - minor j i).

End GaussJordanInvariants.

(** The plane rotation by which [jacobi_rotate] updates [Q]: the identity
    except for the entries [(p,p) = (q,q) = c], [(p,q) = s], [(q,p) = -s]. *)
Definition givens (p q : idx) (c s : R) : mat4 R :=
  mtab (fun i j =>
          if idx_eqb i p && idx_eqb j p then c
          else if idx_eqb i q && idx_eqb j q then c
          else if idx_eqb i p && idx_eqb j q then s
          else if idx_eqb i q && idx_eqb j p then (- s)%R
          else if idx_eqb i j then 1%R else 0%R).

(** The relation between the input [A0] of [jacobi_symmetric_4x4] and the
    pair [(A, Q)] it iterates on. *)
Definition jacobi_inv (A0 A Q : mat4 R) : Prop :=
  symmetric A /\ orthogonal Q /\ mul (mul (transpose Q) A0) Q = A.

(* ------------------------------------------------------------------ *)
(** ** The order of binary64 values *)
(* ------------------------------------------------------------------ *)

(** The position of a binary64 value other than NaN in the order that
    [<] tests: a class (infinities, finite negative, zero, finite
    positive), then the exponent, then the mantissa. *)
Definition rank (x : spec_float) : Z * Z * Z :=
  match x with
  | S754_infinity true => (-2, 0, 0)
  | S754_finite true m e => (-1, - e, - Zpos m)
  | S754_zero _ => (0, 0, 0)
  | S754_nan => (0, 0, 0)
  | S754_finite false m e => (1, e, Zpos m)
  | S754_infinity false => (2, 0, 0)
  end%Z.

Definition lex_lt (a b : Z * Z * Z) : Prop :=
  let '(a1, a2, a3) := a in
  let '(b1, b2, b3) := b in
  (a1 < b1 \/ (a1 = b1 /\ (a2 < b2 \/ (a2 = b2 /\ a3 < b3))))%Z.

Definition not_nan (x : float) : Prop := Prim2SF x <> S754_nan.

(** One step of a search for a largest value, as the sources write it:
    [if (v > best) { best = v; arg = x; }]. *)
Definition argmax_step (T : Type) (val : T -> float) (st : T * float) (x : T)
  : T * float :=
  if PrimFloat.ltb (snd st) (val x) then (x, val x) else st.

(** The pairs [(i, j)], [i < j], in the order in which [max_offdiag_abs]
    visits them. *)
Definition offdiag_pairs : list (idx * idx) :=
  flat_map (fun i => map (fun j => (i, j)) (after i)) all_idx.

(** The absolute row sum that [norm_inf] maximises. *)
Definition row_sum (A : mat4 R) (r : idx) : R :=
  sum_over all_idx (fun c => rabs (mget A r c)).

(** The curvature tensor of flat spacetime: all 256 components are [+0]. *)
Definition zero_riemann : Riemann float :=
  tab (fun _ => tab (fun _ => tab (fun _ => tab (fun _ => 0%float)))).

(* ================================================================== *)
(** * Properties *)
(* ================================================================== *)

Unset Implicit Arguments.

(* ------------------------------------------------------------------ *)
(** ** Fixed-size arrays *)
(* ------------------------------------------------------------------ *)

Lemma get_tab {T} (f : idx -> T) (i : idx) : get i (tab f) = f i.
Proof. destruct i; reflexivity. Qed.

Lemma get_upd_same {T} (i : idx) (x : T) (v : V4 T) : get i (upd i x v) = x.
Proof. destruct i; reflexivity. Qed.

Lemma get_upd_other {T} (i j : idx) (x : T) (v : V4 T) :
  i <> j -> get i (upd j x v) = get i v.
Proof. destruct i, j; intros H; try reflexivity; now elim H. Qed.

Lemma get_vmap {T U} (f : T -> U) (v : V4 T) (i : idx) :
  get i (vmap f v) = f (get i v).
Proof. destruct i; reflexivity. Qed.

Lemma V4_ext {T} (v w : V4 T) : (forall i, get i v = get i w) -> v = w.
Proof.
  intros H. destruct v, w.
  generalize (H I0), (H I1), (H I2), (H I3). simpl. congruence.
Qed.

Lemma idx_eqb_eq (i j : idx) : idx_eqb i j = true <-> i = j.
Proof. destruct i, j; simpl; split; intros H; try reflexivity; discriminate. Qed.

Lemma idx_eqb_neq (i j : idx) : idx_eqb i j = false <-> i <> j.
Proof. destruct i, j; simpl; split; intros H; try reflexivity; try discriminate; try congruence. Qed.

Section Generic.
Context {real : Type} {RR : Real real}.
Local Open Scope real_scope.

Lemma mget_mtab (f : idx -> idx -> real) (r c : idx) : mget (mtab f) r c = f r c.
Proof. unfold mget, mtab. now rewrite !get_tab. Qed.

Lemma sum_over_ext (ks : list idx) (f h : idx -> real) :
  (forall k, f k = h k) -> sum_over ks f = sum_over ks h.
Proof.
  intros E. unfold sum_over. generalize (lit 0 0). 
  induction ks as [|k ks IH]; intros s; simpl; [reflexivity|].
  now rewrite E, IH.
Qed.

Section Commutative.
Hypothesis radd_comm : forall x y : real, x + y = y + x.
Hypothesis rmul_comm : forall x y : real, x * y = y * x.

Lemma sym4_of_symmetric_comm (A : mat4 real) : symmetric (sym4_of A).
Proof.
  intros i j. unfold sym4_of. rewrite !mget_mtab. 
  now rewrite (radd_comm (mget A i j)).
Qed.

Lemma christoffel_symmetric_comm (M : MetricPack real) :
  (forall a, symmetric (get a (dg M))) ->
  forall mu a b, Gget (christoffel M) mu a b = Gget (christoffel M) mu b a.
Proof.
  intros Hs mu a b. unfold christoffel, Gget. rewrite !get_tab.
  f_equal. apply sum_over_ext. intros nu.
  rewrite (radd_comm (mget (get a (dg M)) nu b)).
  now rewrite (Hs nu a b).
Qed.

Lemma mul_self_symmetric_comm (gm : mat4 real) :
  symmetric gm -> symmetric (mul gm gm).
Proof.
  intros Hs i j. unfold mul. rewrite !mget_mtab.
  apply sum_over_ext. intros k.
  now rewrite (Hs j k), (Hs k i), rmul_comm.
Qed.

End Commutative.

Lemma inverse_failure_keeps_output (A Ainv0 : mat4 real) (d0 c0 eps : real) :
  r_ok (inverse A Ainv0 d0 c0 eps) = false ->
  r_Ainv (inverse A Ainv0 d0 c0 eps) = Ainv0 /\
  r_cond_inf (inverse A Ainv0 d0 c0 eps) = c0.
Proof.
  unfold inverse, inverse_call, inverse_call. destruct (forward _ _ _); simpl; [auto | discriminate].
Qed.

End Generic.

(* ------------------------------------------------------------------ *)
(** ** Gauss-Jordan elimination: pivots and zero rows *)
(* ------------------------------------------------------------------ *)

Section Pivoting.
Context {real : Type} {RR : Real real}.
Local Open Scope real_scope.

Lemma pivot_search_spec (col : idx -> real) (k : idx) :
  snd (pivot_search col k) = rabs (col (fst (pivot_search col k))) /\
  idx_leb k (fst (pivot_search col k)) = true.
Proof.
  unfold pivot_search.
  destruct k; cbn;
    repeat match goal with
           | |- context [if ?b then _ else _] => destruct b; cbn
           end; auto.
Qed.

Lemma eliminate_row_other (k r j : idx) (aug : V4 augrow) :
  r <> j -> get r (eliminate k aug j) = get r aug.
Proof.
  intros H. unfold eliminate.
  destruct (aget aug j k =? lit 0 0); [reflexivity|].
  now apply get_upd_other.
Qed.

Lemma eliminate_keeps_zero_left (k r j : idx) (aug : V4 augrow) :
  zero_left aug r -> get r (eliminate k aug j) = get r aug.
Proof.
  intros Hz. destruct (idx_eqb r j) eqn:E.
  - apply idx_eqb_eq in E. subst j. unfold eliminate.
    now rewrite (Hz k).
  - apply idx_eqb_neq in E. now apply eliminate_row_other.
Qed.

Lemma eliminate_fold_keeps_zero_left (k r : idx) (js : list idx) (aug : V4 augrow) :
  zero_left aug r -> get r (fold_left (eliminate k) js aug) = get r aug.
Proof.
  revert aug. induction js as [|j js IH]; intros aug Hz; simpl; [reflexivity|].
  rewrite IH.
  - now apply eliminate_keeps_zero_left.
  - intros c. unfold aget. rewrite eliminate_keeps_zero_left by assumption. apply Hz.
Qed.

Section ZeroRow.
Variable eps : real.
Hypothesis zero_below_eps : forall x : real, is_zero x -> (rabs x <? eps) = true.

Lemma forward_step_zero_row (st : elim_state) (k r : idx) :
  idx_leb k r = true -> zero_left (g_aug st) r ->
  match forward_step eps st k with
  | None => True
  | Some st' => exists r', idx_ltb k r' = true /\ zero_left (g_aug st') r'
  end.
Proof.
  intros Hkr Hz. unfold forward_step.
  pose proof (pivot_search_spec (fun r0 => aget (g_aug st) r0 k) k) as [Ha Hp].
  unfold pivot_of.
  destruct (pivot_search (fun r0 => aget (g_aug st) r0 k) k) as [piv amax].
  simpl in Ha, Hp.
  destruct (amax <? eps) eqn:Eamax; [exact I|].
  assert (Hne : piv <> r).
  { intros ->. rewrite Ha, (zero_below_eps _ (Hz k)) in Eamax. discriminate. }
  set (r' := if idx_eqb r k then piv else r).
  assert (Hr'k : idx_ltb k r' = true).
  { subst r'. destruct (idx_eqb r k) eqn:E.
    - apply idx_eqb_eq in E. subst r.
      destruct k, piv; simpl in *; try reflexivity; try discriminate; now elim Hne.
    - apply idx_eqb_neq in E. destruct k, r; simpl in *; try reflexivity; try discriminate; now elim E. }
  assert (Hr'nk : r' <> k).
  { intros E. rewrite E in Hr'k. destruct k; discriminate. }
  exists r'. split; [exact Hr'k|]. cbn [g_aug].
  set (aug1 := if idx_eqb piv k then g_aug st else swap_rows piv k (g_aug st)).
  assert (H1 : get r' aug1 = get r (g_aug st)).
  { subst aug1 r'. unfold swap_rows.
    destruct (idx_eqb piv k) eqn:Epk.
    - apply idx_eqb_eq in Epk. subst piv.
      destruct (idx_eqb r k) eqn:Erk; [apply idx_eqb_eq in Erk; congruence | reflexivity].
    - apply idx_eqb_neq in Epk.
      destruct (idx_eqb r k) eqn:Erk.
      + apply idx_eqb_eq in Erk. subst r.
        rewrite get_upd_other by exact Epk. now rewrite get_upd_same.
      + apply idx_eqb_neq in Erk.
        rewrite get_upd_other by exact Erk.
        rewrite get_upd_other by congruence. reflexivity. }
  set (aug2 := upd k _ aug1).
  assert (H2 : get r' aug2 = get r (g_aug st)).
  { subst aug2. rewrite get_upd_other by exact Hr'nk. exact H1. }
  assert (Hz2 : zero_left aug2 r').
  { intros c. unfold aget. rewrite H2. apply Hz. }
  intros c. unfold aget.
  rewrite eliminate_fold_keeps_zero_left by exact Hz2.
  apply Hz2.
Qed.

Lemma forward_zero_row (A : mat4 real) (r : idx) :
  zero_row A r ->
  exists d, forward eps {| g_aug := init_aug A; g_sign := 1; g_det := lit 1 0 |}
                    all_idx = inl d.
Proof.
  intros Hz.
  set (st0 := {| g_aug := init_aug A; g_sign := 1; g_det := lit 1 0 |}).
  assert (Hz0 : zero_left (g_aug st0) r).
  { intros c. unfold aget, st0, init_aug. cbn [g_aug lft].
    rewrite get_tab. cbn [lft]. rewrite get_tab. apply Hz. }
  assert (H0 : idx_leb I0 r = true) by (destruct r; reflexivity).
  unfold all_idx. cbn [forward].
  pose proof (forward_step_zero_row st0 I0 r H0 Hz0) as S0.
  destruct (forward_step eps st0 I0) as [st1|]; [|eauto].
  destruct S0 as [r1 [L1 Z1]].
  assert (H1 : idx_leb I1 r1 = true) by (destruct r1; try reflexivity; discriminate).
  pose proof (forward_step_zero_row st1 I1 r1 H1 Z1) as S1.
  destruct (forward_step eps st1 I1) as [st2|]; [|eauto].
  destruct S1 as [r2 [L2 Z2]].
  assert (H2 : idx_leb I2 r2 = true) by (destruct r2; try reflexivity; discriminate).
  pose proof (forward_step_zero_row st2 I2 r2 H2 Z2) as S2.
  destruct (forward_step eps st2 I2) as [st3|]; [|eauto].
  destruct S2 as [r3 [L3 Z3]].
  assert (H3 : idx_leb I3 r3 = true) by (destruct r3; try reflexivity; discriminate).
  pose proof (forward_step_zero_row st3 I3 r3 H3 Z3) as S3.
  destruct (forward_step eps st3 I3) as [st4|]; [|eauto].
  destruct S3 as [r4 [L4 _]]. destruct r4; discriminate.
Qed.

Lemma inverse_zero_row (A Ainv0 : mat4 real) (d0 c0 : real) (r : idx) :
  zero_row A r -> r_ok (inverse A Ainv0 d0 c0 eps) = false.
Proof.
  intros Hz. unfold inverse, inverse_call, inverse_call.
  destruct (forward_zero_row A r Hz) as [d ->]. reflexivity.
Qed.

End ZeroRow.

Lemma forward_prefix_app (eps : real) (ks1 ks2 : list idx) (st : elim_state) :
  forward eps st (ks1 ++ ks2) =
  match forward_prefix eps st ks1 with
  | Some st' => forward eps st' ks2
  | None => forward eps st ks1
  end.
Proof.
  revert st. induction ks1 as [|k ks1 IH]; intros st; simpl; [reflexivity|].
  destruct (forward_step eps st k) as [st'|]; [apply IH | reflexivity].
Qed.

Lemma all_idx_split (k : idx) : all_idx = below k ++ k :: after k.
Proof. destruct k; reflexivity. Qed.

Lemma inverse_small_pivot (A Ainv0 : mat4 real) (d0 c0 eps : real)
      (k : idx) (st : elim_state) :
  state_at_step eps A k = Some st ->
  (snd (pivot_of st k) <? eps) = true ->
  r_ok (inverse A Ainv0 d0 c0 eps) = false.
Proof.
  intros Hst Hp. unfold inverse, inverse_call, inverse_call.
  rewrite (all_idx_split k), forward_prefix_app.
  unfold state_at_step in Hst. rewrite Hst.
  cbn [forward]. unfold forward_step.
  destruct (pivot_of st k) as [piv amax]. simpl in Hp. rewrite Hp. reflexivity.
Qed.

(** Conversely, a failure of [inverse] stems from such a step. *)
Lemma inverse_failure_has_small_pivot (A Ainv0 : mat4 real) (d0 c0 eps : real) :
  r_ok (inverse A Ainv0 d0 c0 eps) = false ->
  exists k st, state_at_step eps A k = Some st /\
               (snd (pivot_of st k) <? eps) = true.
Proof.
  unfold inverse, inverse_call, state_at_step.
  set (st0 := {| g_aug := init_aug A; g_sign := 1; g_det := lit 1 0 |}).
  assert (step_none : forall st k, forward_step eps st k = None ->
                                   (snd (pivot_of st k) <? eps) = true).
  { intros st k. unfold forward_step. destruct (pivot_of st k) as [p a]; simpl.
    destruct (a <? eps); [reflexivity | discriminate]. }
  unfold all_idx. cbn [forward].
  destruct (forward_step eps st0 I0) as [st1|] eqn:E0.
  2:{ intros _. exists I0, st0. split; [reflexivity | now apply step_none]. }
  destruct (forward_step eps st1 I1) as [st2|] eqn:E1.
  2:{ intros _. exists I1, st1. split; [|now apply step_none].
      unfold below; cbn. fold st0. now rewrite E0. }
  destruct (forward_step eps st2 I2) as [st3|] eqn:E2.
  2:{ intros _. exists I2, st2. split; [|now apply step_none].
      unfold below; cbn. fold st0. now rewrite E0, E1. }
  destruct (forward_step eps st3 I3) as [st4|] eqn:E3.
  2:{ intros _. exists I3, st3. split; [|now apply step_none].
      unfold below; cbn. fold st0. now rewrite E0, E1, E2. }
  simpl. discriminate.
Qed.

End Pivoting.

(* ------------------------------------------------------------------ *)
(** ** Signature repair: the choice of the negative direction *)
(* ------------------------------------------------------------------ *)

Section Repair.
Context {real : Type} {RR : Real real}.
Local Open Scope real_scope.

(** The repair always selects exactly one index for the negative sign. *)
Lemma choose_negative_some (lam : vec4 real) :
  exists j, choose_negative lam = Some j.
Proof.
  unfold choose_negative, all_idx. cbn [fold_left fst snd].
  destruct (get I0 lam <? lit 0 0), (get I1 lam <? lit 0 0),
           (get I2 lam <? lit 0 0), (get I3 lam <? lit 0 0);
    cbn [fst snd Z.add Z.eqb Pos.add Pos.succ Pos.eqb];
    repeat match goal with
           | |- context [if ?b then _ else _] => destruct b
           end; eauto.
Qed.

Lemma repaired_spectrum_signs (lam : vec4 real) (eps : real) :
  exists j, forall i,
    get i (repaired_spectrum lam eps)
    = if idx_eqb i j then - rmax (rabs (get i lam)) eps
      else rmax (rabs (get i lam)) eps.
Proof.
  destruct (choose_negative_some lam) as [j Hj]. exists j. intros i.
  unfold repaired_spectrum. rewrite get_tab, Hj. reflexivity.
Qed.

(** The three counts of [validate_signature] add up to four. *)
Lemma validate_signature_total (gm : sym4 real) (eps : real) :
  let '(nneg, npos, nzero) := validate_signature gm eps in
  (0 <= nneg /\ 0 <= npos /\ 0 <= nzero /\ nneg + npos + nzero = 4)%Z.
Proof.
  unfold validate_signature.
  destruct (jacobi_symmetric_4x4 gm 64 (lit 1 (-14))) as [Q lam].
  unfold all_idx. cbn [fold_left].
  repeat match goal with
         | |- context [if ?b then _ else _] => destruct b
         end; cbn; lia.
Qed.

End Repair.

(* ------------------------------------------------------------------ *)
(** ** Binary64 arithmetic, from the specification of the primitive floats *)
(* ------------------------------------------------------------------ *)

Module Binary64.
Import Inputs.
Local Open Scope float_scope.

Lemma float_add_comm (x y : float) : x + y = y + x.
Proof.
  apply Prim2SF_inj. rewrite !add_spec. unfold SF64add, SFadd.
  destruct (Prim2SF x) as [sx|sx| |sx mx ex], (Prim2SF y) as [sy|sy| |sy my ey];
    try reflexivity; try (destruct sx, sy; reflexivity).
  rewrite (Z.min_comm ey ex), Z.add_comm. reflexivity.
Qed.

Lemma float_mul_comm (x y : float) : x * y = y * x.
Proof.
  apply Prim2SF_inj. rewrite !mul_spec. unfold SF64mul, SFmul.
  destruct (Prim2SF x) as [sx|sx| |sx mx ex], (Prim2SF y) as [sy|sy| |sy my ey];
    try reflexivity; try (rewrite (xorb_comm sy sx); reflexivity).
  rewrite (xorb_comm sy sx), (Pos.mul_comm my mx), (Z.add_comm ey ex). reflexivity.
Qed.

Lemma Prim2SF_zero : Prim2SF 0 = S754_zero false.
Proof. reflexivity. Qed.

Lemma Prim2SF_one : Prim2SF 1 = S754_finite false 4503599627370496 (-52).
Proof. reflexivity. Qed.

Lemma Prim2SF_half : Prim2SF 0.5 = S754_finite false 4503599627370496 (-53).
Proof. reflexivity. Qed.

Lemma float_is_zero_cases (x : float) :
  is_zero x -> x = 0 \/ x = -0.
Proof.
  unfold is_zero. change (x =? lit 0 0)%real with (x =? 0).
  rewrite eqb_spec, Prim2SF_zero. intros H.
  assert (E : exists s, Prim2SF x = S754_zero s).
  { destruct (Prim2SF x) as [s|s| |s m e]; try discriminate.
    - now exists s.
    - destruct s; discriminate.
    - destruct s; discriminate. }
  destruct E as [[|] E].
  - right. apply Prim2SF_inj. rewrite E. reflexivity.
  - left. apply Prim2SF_inj. rewrite E. reflexivity.
Qed.

(** [q < 0] excludes [q >= 0] (a NaN satisfies neither). *)
Lemma float_lt_not_ge (q : float) : (q <? 0) = true -> (0 <=? q) = false.
Proof.
  rewrite ltb_spec, leb_spec, Prim2SF_zero.
  destruct (Prim2SF q) as [s|s| |s m e]; cbn; try discriminate.
  - destruct s; [reflexivity | discriminate].
  - destruct s; [reflexivity | discriminate].
Qed.

Lemma is_finite_SF (x : float) :
  PrimFloat.is_finite x = true <-> SF_finite (Prim2SF x).
Proof.
  unfold PrimFloat.is_finite, PrimFloat.is_nan, PrimFloat.is_infinity.
  rewrite !eqb_spec, abs_spec.
  change (Prim2SF infinity) with (S754_infinity false).
  destruct (Prim2SF x) as [s|s| |s m e]; cbn [SFabs SF_finite].
  - cbn. tauto.
  - destruct s; cbn; intuition discriminate.
  - cbn. intuition discriminate.
  - unfold SFeqb, SFcompare. 
    destruct s; rewrite Z.compare_refl, Pos.compare_cont_refl; cbn; tauto.
Qed.

Lemma mul_pow52 (m : positive) : (4503599627370496 * m)%positive = Pos.iter xO m 52.
Proof. reflexivity. Qed.

(** The mantissa [m * 2^52] shifted right by 52 places is [m], exactly. *)
Lemma shr_52 (m : positive) :
  SpecFloat.iter_pos shr_1 52 (Build_shr_record (Zpos (Pos.iter xO m 52)) false false)
  = Build_shr_record (Zpos m) false false.
Proof. cbv. reflexivity. Qed.

Lemma digits_shift_52 (m : positive) :
  Zpos (digits2_pos (Pos.iter xO m 52)) = (Zpos (digits2_pos m) + 52)%Z.
Proof. cbn [Pos.iter digits2_pos]. lia. Qed.

Lemma bounded_inv (m : positive) (e : Z) :
  SpecFloat.bounded prec emax m e = true ->
  fexp prec emax (Zpos (digits2_pos m) + e) = e /\ (e <= emax - prec)%Z.
Proof.
  unfold SpecFloat.bounded, canonical_mantissa. intros V.
  apply andb_prop in V. destruct V as [C B].
  apply Z.eqb_eq in C. apply Z.leb_le in B. auto.
Qed.

Lemma shr_fexp_exact (m : positive) (e : Z) :
  fexp prec emax (Zpos (digits2_pos m) + e) = e ->
  shr_fexp prec emax (Zpos m) e loc_Exact
  = (Build_shr_record (Zpos m) false false, e).
Proof.
  intros C. unfold shr_fexp, Zdigits2. rewrite C, Z.sub_diag. reflexivity.
Qed.

Lemma shr_fexp_shift_52 (m : positive) (e : Z) :
  fexp prec emax (Zpos (digits2_pos m) + e) = e ->
  shr_fexp prec emax (Zpos (Pos.iter xO m 52)) (e + -52) loc_Exact
  = (Build_shr_record (Zpos m) false false, e).
Proof.
  intros C. unfold shr_fexp, Zdigits2. rewrite digits_shift_52.
  replace (Z.pos (digits2_pos m) + 52 + (e + -52))%Z
    with (Z.pos (digits2_pos m) + e)%Z by lia.
  rewrite C.
  replace (e - (e + -52))%Z with 52%Z by lia.
  unfold shr. cbn [shr_record_of_loc]. rewrite shr_52.
  f_equal. lia.
Qed.

(** Rounding [m * 2^52] at exponent [e - 52] gives back [(m, e)]. *)
Lemma round_shifted_52 (s : bool) (m : positive) (e : Z) :
  SpecFloat.bounded prec emax m e = true ->
  binary_round_aux prec emax s (Zpos (Pos.iter xO m 52)) (e + -52) loc_Exact
  = S754_finite s m e.
Proof.
  intros V. destruct (bounded_inv m e V) as [C B].
  unfold binary_round_aux. rewrite (shr_fexp_shift_52 m e C).
  cbn [shr_m loc_of_shr_record round_nearest_even].
  rewrite (shr_fexp_exact m e C). cbn [shr_m].
  apply Z.leb_le in B. now rewrite B.
Qed.

Lemma float_mul_one_r (x : float) : x * 1 = x.
Proof.
  apply Prim2SF_inj. rewrite mul_spec, Prim2SF_one.
  pose proof (Prim2SF_valid x) as V.
  destruct (Prim2SF x) as [s|s| |s m e]; unfold SF64mul, SFmul;
    try (now rewrite xorb_false_r).
  - reflexivity.
  - rewrite xorb_false_r, Pos.mul_comm, mul_pow52.
    now apply round_shifted_52.
Qed.

Lemma shr_53 (m : positive) :
  SpecFloat.iter_pos shr_1 53 (Build_shr_record (Zpos (Pos.iter xO m 52)) false false)
  = shr_1 (Build_shr_record (Zpos m) false false).
Proof. reflexivity. Qed.

Lemma digits_succ (p : positive) :
  (Zpos (digits2_pos (Pos.succ p)) <= Zpos (digits2_pos p) + 1)%Z.
Proof.
  induction p as [p IH|p IH|]; cbn [Pos.succ digits2_pos]; lia.
Qed.

(** The second rounding step at the smallest exponent keeps a mantissa of
    at most 53 bits as it is. *)
Lemma round_finish_subnormal (s : bool) (q : Z) :
  (0 <= q)%Z -> (Zdigits2 q <= 53)%Z ->
  SF_finite
    (let '(mrs, e) := shr_fexp prec emax q (-1074) loc_Exact in
     match shr_m mrs with
     | Z0 => S754_zero s
     | Zpos m => if Z.leb e (emax - prec) then S754_finite s m e
                 else S754_infinity s
     | Zneg _ => S754_nan
     end).
Proof.
  intros Hq Hd. unfold shr_fexp.
  replace (fexp prec emax (Zdigits2 q + -1074) - -1074)%Z with 0%Z
    by (unfold fexp, emin, prec, emax; lia).
  cbn [shr]. destruct q as [|p|p]; cbn; [exact I | exact I | lia].
Qed.

Lemma shr_fexp_shift_53 (m : positive) :
  (Zpos (digits2_pos m) <= 53)%Z ->
  shr_fexp prec emax (Zpos (Pos.iter xO m 52)) (-53 + -1074) loc_Exact
  = (shr_1 (Build_shr_record (Zpos m) false false), (-1074)%Z).
Proof.
  intros Hd. unfold shr_fexp, Zdigits2. rewrite digits_shift_52.
  replace (fexp prec emax (Z.pos (digits2_pos m) + 52 + (-53 + -1074))
           - (-53 + -1074))%Z with 53%Z
    by (unfold fexp, emin, prec, emax; lia).
  unfold shr. cbn [shr_record_of_loc]. rewrite shr_53. reflexivity.
Qed.

Lemma float_half_finite (x : float) :
  PrimFloat.is_finite x = true -> PrimFloat.is_finite (0.5 * x) = true.
Proof.
  rewrite !is_finite_SF, mul_spec, Prim2SF_half.
  pose proof (Prim2SF_valid x) as V.
  destruct (Prim2SF x) as [s|s| |s m e]; unfold SF64mul, SFmul;
    try (intros []); try exact I.
  cbn [xorb]. rewrite mul_pow52.
  destruct (bounded_inv m e V) as [C B].
  assert (Hd : (Zpos (digits2_pos m) <= 53)%Z /\
               ((Zpos (digits2_pos m) = 53)%Z \/ e = (-1074)%Z)).
  { revert C. unfold fexp, emin, prec, emax. lia. }
  destruct Hd as [Hd Hcase].
  unfold binary_round_aux.
  destruct (Z.eq_dec e (-1074)) as [->|Hne].
  - (* smallest exponent: one bit is shifted out and rounded *)
    rewrite (shr_fexp_shift_53 m Hd).
    destruct m as [p|p|]; cbn [shr_1 orb shr_m loc_of_shr_record round_nearest_even].
    + cbn [digits2_pos] in Hd.
      destruct (Z.even (Z.pos p)).
      * apply round_finish_subnormal; cbn [Zdigits2]; lia.
      * change (Z.pos p + 1)%Z with (Z.pos (p + 1)).
        rewrite Pos.add_1_r.
        apply round_finish_subnormal; [lia|]. cbn [Zdigits2].
        pose proof (digits_succ p). lia.
    + cbn [digits2_pos] in Hd.
      apply round_finish_subnormal; cbn [Zdigits2]; lia.
    + cbn [Z.even]. apply round_finish_subnormal; cbn [Zdigits2]; lia.
  - (* a normal number: the exponent drops by one *)
    assert (Hd53 : Zpos (digits2_pos m) = 53%Z) by (destruct Hcase; [assumption | contradiction]).
    assert (He : (-1074 < e)%Z).
    { revert C. unfold fexp, emin, prec, emax. lia. }
    assert (C' : fexp prec emax (Zpos (digits2_pos m) + (e - 1)) = (e - 1)%Z).
    { unfold fexp, emin, prec, emax. lia. }
    replace (-53 + e)%Z with ((e - 1) + -52)%Z by lia.
    rewrite (shr_fexp_shift_52 m (e - 1) C').
    cbn [shr_m loc_of_shr_record round_nearest_even].
    rewrite (shr_fexp_exact m (e - 1) C'). cbn [shr_m].
    destruct (Z.leb (e - 1) (emax - prec)) eqn:L; [exact I|].
    apply Z.leb_gt in L. lia.
Qed.

Lemma fzero_SF (z : float) : fzero z <-> exists s, Prim2SF z = S754_zero s.
Proof.
  split.
  - intros [-> | ->]; [now exists false | now exists true].
  - intros [[|] E]; [right | left]; apply Prim2SF_inj; rewrite E; reflexivity.
Qed.

Lemma float_mul_finite_zero (a z : float) :
  PrimFloat.is_finite a = true -> fzero z -> fzero (a * z).
Proof.
  rewrite is_finite_SF, !fzero_SF. intros Ha [s Ez].
  rewrite mul_spec, Ez. unfold SF64mul, SFmul.
  destruct (Prim2SF a) as [sa|sa| |sa m e]; try contradiction; eauto.
Qed.

Lemma float_add_zero_r (x z : float) :
  fzero z -> x + z = x \/ (x = -0 /\ x + z = 0).
Proof.
  intros Hz. apply fzero_SF in Hz. destruct Hz as [sz Ez].
  destruct (Prim2SF x) as [sx|sx| |sx m e] eqn:Ex.
  - destruct sx, sz.
    + left. apply Prim2SF_inj. rewrite add_spec, Ex, Ez. reflexivity.
    + right. split; apply Prim2SF_inj; [rewrite Ex | rewrite add_spec, Ex, Ez]; reflexivity.
    + left. apply Prim2SF_inj. rewrite add_spec, Ex, Ez. reflexivity.
    + left. apply Prim2SF_inj. rewrite add_spec, Ex, Ez. reflexivity.
  - left. apply Prim2SF_inj. rewrite add_spec, Ex, Ez. reflexivity.
  - left. apply Prim2SF_inj. rewrite add_spec, Ex, Ez. reflexivity.
  - left. apply Prim2SF_inj. rewrite add_spec, Ex, Ez. reflexivity.
Qed.

Lemma float_finite_of_half (x : float) :
  PrimFloat.is_finite x = true -> PrimFloat.is_finite (lit 5 (-1) * x)%real = true.
Proof. exact (float_half_finite x). Qed.

Lemma fzero_cancel (z : float) : fzero z -> z + z - z = 0.
Proof. intros [-> | ->]; reflexivity. Qed.

Lemma dmetric_minkowski (x : vec4 float) (a : idx) (h : float) :
  dmetric MinkowskiField x a h = mtab (fun _ _ => (0 * (lit 5 (-1) / h)%real)).
Proof.
  unfold dmetric, MinkowskiField, mtab.
  apply V4_ext. intros r. rewrite !get_tab.
  apply V4_ext. intros c. rewrite !get_tab.
  destruct r, c; reflexivity.
Qed.

Lemma christoffel_minkowski (K : Constants float) (x : vec4 float) :
  PrimFloat.is_finite (lit 5 (-1) / fd_h K)%real = true ->
  christoffel (prepare_metric K MinkowskiField x) = zero_gamma.
Proof.
  intros Hs.
  assert (Hz : fzero (0 * (lit 5 (-1) / fd_h K)%real)).
  { rewrite float_mul_comm. apply float_mul_finite_zero; [exact Hs | now left]. }
  unfold christoffel, zero_gamma.
  apply V4_ext. intros mu. rewrite !get_tab.
  apply V4_ext. intros a. rewrite !get_tab.
  apply V4_ext. intros b. rewrite !get_tab.
  unfold prepare_metric. cbn [dg g_inv]. unfold dmetric4.
  unfold sum_over, all_idx. cbn [fold_left].
  rewrite !get_tab, !dmetric_minkowski, !mget_mtab.
  change (fun z : float => (z + z - z)%real) with (fun z : float => z + z - z).
  cbn [radd rsub binary64].
  rewrite (fzero_cancel _ Hz).
  destruct mu; vm_compute; reflexivity.
Qed.

Lemma accel_at_rest (K : Constants float) (M : MetricPack float) (x : vec4 float) :
  accel K M zero_gamma u_rest None x = minus_zeros.
Proof. vm_compute. reflexivity. Qed.

Lemma kick_at_rest (dtau : float) :
  PrimFloat.is_finite dtau = true ->
  tab (fun i => (get i u_rest + lit 5 (-1) * dtau * get i minus_zeros)%real) = u_rest.
Proof.
  intros Hf.
  assert (Hz : fzero (lit 5 (-1) * dtau * -0)%real).
  { apply float_mul_finite_zero; [now apply float_finite_of_half | now right]. }
  change (tab (fun i => (get i u_rest + lit 5 (-1) * dtau * get i minus_zeros)%real))
    with (mkV4 (1 + (lit 5 (-1) * dtau * -0)%real) (0 + (lit 5 (-1) * dtau * -0)%real)
               (0 + (lit 5 (-1) * dtau * -0)%real) (0 + (lit 5 (-1) * dtau * -0)%real)).
  destruct Hz as [E | E]; rewrite E; reflexivity.
Qed.

Lemma renormalize_at_rest (K : Constants float) (x : vec4 float) :
  renormalize_timelike (g (prepare_metric K MinkowskiField x)) u_rest = u_rest.
Proof. vm_compute. reflexivity. Qed.

Lemma minkowski_step (K : Constants float) (x : vec4 float) (dtau : float) :
  PrimFloat.is_finite (lit 5 (-1) / fd_h K)%real = true ->
  PrimFloat.is_finite dtau = true ->
  geodesic_step K MinkowskiField None x u_rest dtau
  = (tab (fun i => (get i x + dtau * get i u_rest)%real), u_rest).
Proof.
  intros Hs Hf. unfold geodesic_step, verlet_update. cbv beta iota zeta.
  rewrite (christoffel_minkowski K x Hs), accel_at_rest, (kick_at_rest dtau Hf).
  rewrite (christoffel_minkowski K _ Hs), accel_at_rest, (kick_at_rest dtau Hf).
  rewrite renormalize_at_rest. reflexivity.
Qed.

Lemma minkowski_steps (K : Constants float) (x0 : vec4 float) (dtau : float)
      (n : nat) :
  PrimFloat.is_finite (lit 5 (-1) / fd_h K)%real = true ->
  PrimFloat.is_finite dtau = true ->
  geodesic_steps n K MinkowskiField None (x0, u_rest) dtau
  = (iterate n (fun x => tab (fun i => (get i x + dtau * get i u_rest)%real)) x0,
     u_rest).
Proof.
  intros Hs Hf. induction n as [|n IH]; [reflexivity|].
  cbn [geodesic_steps iterate]. rewrite IH. now apply minkowski_step.
Qed.

(** The time component after [n] steps. *)
Lemma minkowski_time (x0 : vec4 float) (dtau : float) (n : nat) :
  get I0 (iterate n (fun x => tab (fun i => (get i x + dtau * get i u_rest)%real)) x0)
  = iterate n (fun t => t + dtau) (get I0 x0).
Proof.
  induction n as [|n IH]; [reflexivity|].
  cbn [iterate]. rewrite get_tab, <- IH.
  cbn [get u_rest e0]. change (dtau * 1)%real with (dtau * 1).
  now rewrite float_mul_one_r.
Qed.

Lemma minkowski_space (x0 : vec4 float) (dtau : float) (n : nat) (i : idx) :
  PrimFloat.is_finite dtau = true -> i <> I0 ->
  let x := iterate n (fun x => tab (fun i => (get i x + dtau * get i u_rest)%real)) x0 in
  get i x = get i x0 \/ (get i x0 = -0 /\ get i x = 0).
Proof.
  intros Hf Hi. induction n as [|n IH]; [now left|].
  cbn [iterate] in *. rewrite get_tab.
  remember (iterate n (fun x => tab (fun i => (get i x + dtau * get i u_rest)%real)) x0)
    as xn eqn:Exn. clear Exn.
  assert (Hz : fzero (dtau * get i u_rest)%real).
  { apply float_mul_finite_zero; [exact Hf|].
    destruct i; [now elim Hi | now left | now left | now left]. }
  change (get i xn + dtau * get i u_rest)%real
    with (get i xn + (dtau * get i u_rest)%real).
  destruct (float_add_zero_r (get i xn) _ Hz) as [E | [E1 E2]].
  - rewrite E. exact IH.
  - rewrite E2. destruct IH as [IH | [IH1 IH2]].
    + right. split; [now rewrite <- IH | reflexivity].
    + right. split; [exact IH1 | reflexivity].
Qed.

End Binary64.

(* ------------------------------------------------------------------ *)
(** ** Exact arithmetic: the Cholesky factorisation of a squared metric *)
(* ------------------------------------------------------------------ *)

Module ExactR.
Local Open Scope R_scope.

Lemma R_lit_0 : @lit R exactR 0 0 = 0.
Proof. reflexivity. Qed.

Lemma R_leb_zero_false (x : R) : 0 < x -> (x <=? lit 0 0)%real = false.
Proof.
  intros H. cbn [rleb exactR]. unfold R_leb.
  destruct (Rle_dec x (lit 0 0)) as [L|L]; [|reflexivity].
  rewrite R_lit_0 in L. lra.
Qed.

Lemma pd_ok_check_pd (A : mat4 R) :
  pd_ok (check_pd A) = fst (cholesky4 A (lit 0 0)).
Proof.
  unfold check_pd. destruct (cholesky4 A (lit 0 0)) as [[|] L]; reflexivity.
Qed.

(** [vT (g g) v] is the squared length of [g v] when [g] is symmetric. *)
Lemma qform_square (gm : mat4 R) (v : vec4 R) :
  symmetric gm ->
  qform (pd_proxy_square gm) v
  = get I0 (mulv gm v) * get I0 (mulv gm v) + get I1 (mulv gm v) * get I1 (mulv gm v)
    + get I2 (mulv gm v) * get I2 (mulv gm v) + get I3 (mulv gm v) * get I3 (mulv gm v).
Proof.
  intros S.
  pose proof (S I0 I1) as S01. pose proof (S I0 I2) as S02.
  pose proof (S I0 I3) as S03. pose proof (S I1 I2) as S12.
  pose proof (S I1 I3) as S13. pose proof (S I2 I3) as S23.
  destruct gm as [[g00 g01 g02 g03] [g10 g11 g12 g13]
                  [g20 g21 g22 g23] [g30 g31 g32 g33]].
  destruct v as [v0 v1 v2 v3].
  cbn in S01, S02, S03, S12, S13, S23. subst.
  cbn. ring.
Qed.

Lemma qform_square_pos (gm : mat4 R) (v : vec4 R) :
  symmetric gm -> nonsingular gm -> v <> vec4_zero ->
  0 < qform (pd_proxy_square gm) v.
Proof.
  intros S N Hv. rewrite (qform_square gm v S).
  assert (Hw : mulv gm v <> vec4_zero) by (intros E; apply Hv, N, E).
  destruct (mulv gm v) as [w0 w1 w2 w3]. cbn [get e0 e1 e2 e3].
  destruct (Rle_or_lt (w0 * w0 + w1 * w1 + w2 * w2 + w3 * w3) 0) as [L|L];
    [|exact L].
  exfalso. apply Hw.
  assert (w0 = 0) by nra. assert (w1 = 0) by nra.
  assert (w2 = 0) by nra. assert (w3 = 0) by nra.
  subst. reflexivity.
Qed.


Lemma not_zero_vec (v : vec4 R) (i : idx) : get i v = 1 -> v <> vec4_zero.
Proof.
  intros H E. rewrite E in H. destruct i; cbn in H; lra.
Qed.

Lemma R_leb_pos (x : R) : 0 < x -> R_leb x 0 = false.
Proof.
  intros H. unfold R_leb. destruct (Rle_dec x 0); [lra | reflexivity].
Qed.

(** A positive quantity [s] and its square root [l]. *)
Lemma sqrt_pos_sq (s : R) : 0 < s -> 0 < sqrt s /\ s = sqrt s * sqrt s.
Proof.
  intros H. split; [now apply sqrt_lt_R0 | symmetry; apply sqrt_sqrt; lra].
Qed.

Ltac use_pd PD v i :=
  generalize (PD v (not_zero_vec v i eq_refl)); cbn;
  match goal with
  | |- 0 < ?q -> 0 < ?s => intros Q; replace s with q; [exact Q | field; lra]
  end.

(** The factorisation succeeds on every symmetric positive definite matrix:
    each diagonal pivot is the value of the quadratic form at a vector with
    a unit component. *)
Lemma cholesky4_spd (A : mat4 R) :
  symmetric A ->
  (forall v, v <> vec4_zero -> 0 < qform A v) ->
  fst (cholesky4 A (lit 0 0)) = true.
Proof.
  intros S PD.
  pose proof (S I0 I1) as S01. pose proof (S I0 I2) as S02.
  pose proof (S I0 I3) as S03. pose proof (S I1 I2) as S12.
  pose proof (S I1 I3) as S13. pose proof (S I2 I3) as S23.
  destruct A as [[a00 a01 a02 a03] [a10 a11 a12 a13]
                 [a20 a21 a22 a23] [a30 a31 a32 a33]].
  cbn in S01, S02, S03, S12, S13, S23. subst. clear S.
  cbn.
  (* row 0 *)
  assert (H0 : 0 < a00) by (use_pd PD (mkV4 1 0 0 0) I0).
  rewrite (R_leb_pos _ H0). cbn.
  destruct (sqrt_pos_sq a00 H0) as [P00 E00].
  remember (sqrt a00) as l00 eqn:D. clear D H0. subst a00.
  (* row 1 *)
  remember (a10 / l00) as l10 eqn:D.
  assert (E10 : a10 = l10 * l00) by (subst l10; field; lra).
  clear D. subst a10.
  assert (H1 : 0 < a11 - l10 * l10)
    by (use_pd PD (mkV4 (- l10 / l00) 1 0 0) I1).
  rewrite (R_leb_pos _ H1). cbn.
  destruct (sqrt_pos_sq _ H1) as [P11 E11].
  remember (sqrt (a11 - l10 * l10)) as l11 eqn:D. clear D H1.
  assert (E : a11 = l11 * l11 + l10 * l10) by lra. clear E11. subst a11.
  (* row 2 *)
  remember (a20 / l00) as l20 eqn:D.
  assert (E20 : a20 = l20 * l00) by (subst l20; field; lra).
  clear D. subst a20.
  remember ((a21 - l20 * l10) / l11) as l21 eqn:D.
  assert (E21 : a21 = l21 * l11 + l20 * l10) by (subst l21; field; lra).
  clear D. subst a21.
  assert (H2 : 0 < a22 - l20 * l20 - l21 * l21)
    by (use_pd PD (mkV4 (- ((l20 - l10 * (l21 / l11)) / l00)) (- (l21 / l11)) 1 0) I2).
  rewrite (R_leb_pos _ H2). cbn.
  destruct (sqrt_pos_sq _ H2) as [P22 E22].
  remember (sqrt (a22 - l20 * l20 - l21 * l21)) as l22 eqn:D. clear D H2.
  assert (E : a22 = l22 * l22 + l20 * l20 + l21 * l21) by lra. clear E22. subst a22.
  (* row 3 *)
  remember (a30 / l00) as l30 eqn:D.
  assert (E30 : a30 = l30 * l00) by (subst l30; field; lra).
  clear D. subst a30.
  remember ((a31 - l30 * l10) / l11) as l31 eqn:D.
  assert (E31 : a31 = l31 * l11 + l30 * l10) by (subst l31; field; lra).
  clear D. subst a31.
  remember ((a32 - l30 * l20 - l31 * l21) / l22) as l32 eqn:D.
  assert (E32 : a32 = l32 * l22 + l30 * l20 + l31 * l21) by (subst l32; field; lra).
  clear D. subst a32.
  assert (H3 : 0 < a33 - l30 * l30 - l31 * l31 - l32 * l32).
  { pose (v := mkV4 (- ((l30 - l10 * ((l31 - l21 * (l32 / l22)) / l11)
                         - l20 * (l32 / l22)) / l00))
                    (- ((l31 - l21 * (l32 / l22)) / l11))
                    (- (l32 / l22)) 1).
    generalize (PD v (not_zero_vec v I3 eq_refl)). subst v. cbn. intros Q.
    match goal with
    | _ : 0 < ?q |- 0 < ?s => replace s with q; [exact Q | field; lra]
    end. }
  rewrite (R_leb_pos _ H3). reflexivity.
Qed.

(** *** Flat spacetime in exact arithmetic *)

Lemma christoffel_flat_exact (K : Constants R) (x : vec4 R) (mu a b : idx) :
  Gget (christoffel (prepare_metric K MinkowskiField x)) mu a b = 0.
Proof.
  unfold christoffel, Gget. rewrite !get_tab.
  unfold prepare_metric. cbn [dg g_inv].
  set (gi := r_Ainv _).
  unfold dmetric4, dmetric, MinkowskiField. 
  unfold sum_over, all_idx. cbn [fold_left].
  rewrite !get_tab, !mget_mtab.
  set (s := (lit 5 (-1) / fd_h K)%real).
  cbn [radd rsub rmul exactR]. rewrite R_lit_0. ring.
Qed.

Lemma accel_flat_exact (K : Constants R) (x u : vec4 R) (i : idx) :
  get i (accel K (prepare_metric K MinkowskiField x)
               (christoffel (prepare_metric K MinkowskiField x)) u None x) = 0.
Proof.
  unfold accel. rewrite get_tab. unfold all_idx. cbn [fold_left].
  rewrite !christoffel_flat_exact.
  cbn [radd rmul ropp exactR]. rewrite R_lit_0. ring.
Qed.

Lemma renormalize_rest_exact :
  renormalize_timelike (minkowski_eta : sym4 R) u_rest_exact = u_rest_exact.
Proof.
  unfold renormalize_timelike.
  assert (Q : qform (minkowski_eta : sym4 R) u_rest_exact = -1) by (cbn; ring).
  rewrite Q. cbn [rleb exactR]. unfold R_leb.
  destruct (Rle_dec (lit 0 0) (-1)) as [L|_]; [rewrite R_lit_0 in L; lra|].
  apply V4_ext. intros i. rewrite get_vmap.
  cbn [ropp rdiv rsqrt rmul exactR].
  replace (- -1) with 1 by ring. rewrite sqrt_1.
  replace (lit 1 0 / 1) with 1 by (cbn; lra). apply Rmult_1_r.
Qed.

Lemma minkowski_step_exact (K : Constants R) (x : vec4 R) (dtau : R) :
  geodesic_step K MinkowskiField None x u_rest_exact dtau
  = (mkV4 (e0 x + dtau) (e1 x) (e2 x) (e3 x), u_rest_exact).
Proof.
  unfold geodesic_step, verlet_update. cbv beta iota zeta.
  assert (Hu : forall y, 
    tab (fun i => (get i u_rest_exact + lit 5 (-1) * dtau *
       get i (accel K (prepare_metric K MinkowskiField y)
                (christoffel (prepare_metric K MinkowskiField y)) u_rest_exact None y))%real)
    = u_rest_exact).
  { intros y. apply V4_ext. intros i. rewrite get_tab, accel_flat_exact.
    cbn [radd rmul exactR]. ring. }
  rewrite (Hu x). rewrite Hu.
  change (g (prepare_metric K MinkowskiField
               (tab (fun i => (get i x + dtau * get i u_rest_exact)%real))))
    with (minkowski_eta : sym4 R).
  rewrite renormalize_rest_exact. f_equal.
  apply V4_ext. intros i. rewrite get_tab.
  destruct i; cbn; ring.
Qed.

Lemma minkowski_steps_exact (K : Constants R) (x0 : vec4 R) (dtau : R) (n : nat) :
  geodesic_steps n K MinkowskiField None (x0, u_rest_exact) dtau
  = (mkV4 (e0 x0 + INR n * dtau) (e1 x0) (e2 x0) (e3 x0), u_rest_exact).
Proof.
  induction n as [|n IH].
  - cbn [geodesic_steps INR]. destruct x0 as [t0 a0 b0 c0]. cbn [e0 e1 e2 e3].
    f_equal. f_equal. ring.
  - cbn [geodesic_steps]. rewrite IH, minkowski_step_exact. cbn [e0 e1 e2 e3].
    rewrite S_INR. f_equal. f_equal. ring.
Qed.

(** The quadratic form is homogeneous of degree two. *)
Lemma qform_scale (gm : mat4 R) (v : vec4 R) (k : R) :
  qform gm (vmap (fun ui => (ui * k)%real) v) = k * k * qform gm v.
Proof.
  destruct gm as [[g00 g01 g02 g03] [g10 g11 g12 g13]
                  [g20 g21 g22 g23] [g30 g31 g32 g33]].
  destruct v as [v0 v1 v2 v3].
  cbn. rewrite ?R_lit_0. ring.
Qed.

(** The rescaled velocity lies on the unit timelike shell. *)
Lemma renormalize_on_shell (gm : mat4 R) (v : vec4 R) :
  qform gm v < 0 -> qform gm (renormalize_timelike gm v) = -1.
Proof.
  intros H. unfold renormalize_timelike. cbv zeta.
  cbn [rleb exactR]. unfold R_leb.
  destruct (Rle_dec (lit 0 0) (qform gm v)) as [L|_].
  { rewrite R_lit_0 in L. lra. }
  rewrite qform_scale.
  assert (Hq : 0 < - qform gm v) by lra.
  destruct (sqrt_pos_sq _ Hq) as [Hs Hsq].
  change (lit 1 0 / rsqrt (- qform gm v))%real with (1 / sqrt (- qform gm v)).
  set (r := sqrt (- qform gm v)) in *.
  assert (E : qform gm v = - (r * r)) by lra.
  rewrite E. field. lra.
Qed.

(** *** Curvature and the flat metric in exact arithmetic *)

Lemma riemann_component_antisymmetric_exact
      (G : Gamma R) (dG : V4 (Gamma R)) (mu nu a b : idx) :
  riemann_component G dG mu nu a b = (- riemann_component G dG mu nu b a)%R.
Proof.
  unfold riemann_component, all_idx. cbn [fold_left].
  cbn [radd rsub rmul exactR]. ring.
Qed.

Lemma minkowski_nonsingular_exact : nonsingular (minkowski_eta : sym4 R).
Proof.
  intros [v0 v1 v2 v3] E.
  pose proof (f_equal (get I0) E) as E0. pose proof (f_equal (get I1) E) as E1.
  pose proof (f_equal (get I2) E) as E2. pose proof (f_equal (get I3) E) as E3.
  cbn in E0, E1, E2, E3.
  assert (v0 = 0%R) by lra. assert (v1 = 0%R) by lra.
  assert (v2 = 0%R) by lra. assert (v3 = 0%R) by lra.
  subst. reflexivity.
Qed.

End ExactR.

Section Structure.
Context {real : Type} {RR : Real real}.
Local Open Scope real_scope.

Lemma mat_ext (A B : mat4 real) :
  (forall r c, mget A r c = mget B r c) -> A = B.
Proof.
  intros H. apply V4_ext. intros r. apply V4_ext. intros c. apply H.
Qed.

Lemma transpose_involutive (A : mat4 real) : transpose (transpose A) = A.
Proof.
  apply mat_ext. intros r c. unfold transpose. now rewrite !mget_mtab.
Qed.

Lemma max_offdiag_abs_spec (A : mat4 real) :
  let '(p, q, v) := max_offdiag_abs A in
  idx_ltb p q = true /\ v = rabs (mget A p q).
Proof.
  unfold max_offdiag_abs, all_idx, after. cbn [filter idx_ltb idx_nat Nat.ltb Nat.leb all_idx fold_left snd].
  repeat match goal with
         | |- context [if ?b then _ else _] => destruct b; cbn [snd]
         end; split; reflexivity.
Qed.

Lemma jacobi_rotate_symmetric (A Q : mat4 real) (p q : idx) :
  symmetric A -> symmetric (fst (jacobi_rotate A Q p q)).
Proof.
  intros S.
  pose proof (S I0 I1) as S01. pose proof (S I0 I2) as S02.
  pose proof (S I0 I3) as S03. pose proof (S I1 I2) as S12.
  pose proof (S I1 I3) as S13. pose proof (S I2 I3) as S23.
  unfold jacobi_rotate.
  destruct (idx_eqb p q); [exact S|].
  destruct (mget A p q =? lit 0 0); [exact S|].
  cbv zeta. cbn [fst].
  match goal with
  | |- context [if (lit 0 0 <=? ?tau) then ?x else ?y] =>
      generalize (if (lit 0 0 <=? tau) then x else y)
  end.
  intros t. generalize (lit 1 0 / rsqrt (lit 1 0 + t * t)). intros c.
  generalize (t * c). intros s. clear S.
  destruct A as [[a00 a01 a02 a03] [a10 a11 a12 a13]
                 [a20 a21 a22 a23] [a30 a31 a32 a33]].
  cbn in S01, S02, S03, S12, S13, S23. subst.
  intros i j. destruct p, q, i, j; reflexivity.
Qed.

Lemma from_diag_symmetric (a0 a1 a2 a3 : real) : symmetric (from_diag a0 a1 a2 a3).
Proof. intros i j. destruct i, j; reflexivity. Qed.

Lemma dmetric_symmetric (F : IMetricField real) (x : vec4 real) (a : idx) (h : real) :
  symmetric (F (shift_plus x a h)) -> symmetric (F (shift_minus x a h)) ->
  symmetric (dmetric F x a h).
Proof.
  intros Sp Sm i j. unfold dmetric. rewrite !mget_mtab.
  now rewrite (Sp i j), (Sm i j).
Qed.

Lemma dmetric4_symmetric (F : IMetricField real) (x : vec4 real) (h : real) :
  (forall y, symmetric (F y)) ->
  forall a, symmetric (get a (dmetric4 F x h)).
Proof.
  intros S a. unfold dmetric4. rewrite get_tab.
  apply dmetric_symmetric; apply S.
Qed.

Lemma scaled_symmetric (A : mat4 real) (s : real) :
  symmetric A -> symmetric (StressEnergy.scaled A s).
Proof.
  intros S i j. unfold StressEnergy.scaled. rewrite !mget_mtab. now rewrite (S i j).
Qed.

Lemma add_symmetric (A B : mat4 real) :
  symmetric A -> symmetric B -> symmetric (StressEnergy.add A B).
Proof.
  intros SA SB i j. unfold StressEnergy.add. rewrite !mget_mtab.
  now rewrite (SA i j), (SB i j).
Qed.

Lemma mat4_zero_symmetric : symmetric (mat4_zero : mat4 real).
Proof. intros i j. destruct i, j; reflexivity. Qed.

Lemma d2_is_qform (gtilde : mat4 real) (x xi : vec4 real) :
  StressEnergy.d2 gtilde x xi = qform gtilde (tab (fun i => get i x - get i xi)).
Proof. reflexivity. Qed.

Section CommutativeMul.
Hypothesis rmul_comm : forall x y : real, x * y = y * x.

Lemma mul_transpose_comm (A B : mat4 real) :
  transpose (mul A B) = mul (transpose B) (transpose A).
Proof.
  apply mat_ext. intros r c. unfold transpose, mul. rewrite !mget_mtab.
  apply sum_over_ext. intros k. rewrite !mget_mtab. apply rmul_comm.
Qed.

Lemma gram_symmetric_comm (E : mat4 real) : symmetric (mul E (transpose E)).
Proof.
  intros i j. unfold mul, transpose. rewrite !mget_mtab.
  apply sum_over_ext. intros k. rewrite !mget_mtab. apply rmul_comm.
Qed.

Lemma lower_u_outer_symmetric_comm (gm : sym4 real) (u : vec4 real) :
  symmetric (StressEnergy.lower_u_outer gm u).
Proof.
  intros i j. unfold StressEnergy.lower_u_outer. rewrite !mget_mtab.
  apply rmul_comm.
Qed.

Lemma stress_energy_symmetric_comm (rexp : real -> real) (F : IMetricField real)
      (evs : list (@StressEnergy.Event real)) (x : vec4 real)
      (P : @StressEnergy.TSParams real) :
  symmetric (F x) -> symmetric (StressEnergy.stress_energy_at rexp F evs x P).
Proof.
  intros S. unfold StressEnergy.stress_energy_at.
  generalize (mat4_zero_symmetric).
  generalize (mat4_zero : mat4 real).
  induction evs as [|e evs IH]; intros T ST; cbn [fold_left]; [exact ST|].
  apply IH. apply add_symmetric; [exact ST|].
  apply scaled_symmetric. apply add_symmetric.
  - apply scaled_symmetric. apply lower_u_outer_symmetric_comm.
  - apply scaled_symmetric. intros i j. rewrite !mget_mtab. apply S.
Qed.

End CommutativeMul.

End Structure.

Module ExactGeometry.
Import ExactR.
Local Open Scope R_scope.

Lemma R_lit_1 : @lit R exactR 1 0 = 1.
Proof. reflexivity. Qed.

Lemma R_lit_half : @lit R exactR 5 (-1) = 1 / 2.
Proof. cbn. unfold R_lit. cbn. lra. Qed.

(** [from_A] is the pull-back of the Minkowski form along [A]. *)
Lemma from_A_pullback (A : mat4 R) (v : vec4 R) :
  qform (from_A A) v = qform (minkowski_eta : sym4 R) (mulv A v).
Proof.
  destruct A as [[a00 a01 a02 a03] [a10 a11 a12 a13]
                 [a20 a21 a22 a23] [a30 a31 a32 a33]].
  destruct v as [v0 v1 v2 v3].
  cbn. unfold R_lit. cbn. field.
Qed.

Lemma gradV_radial_exact (k h : R) (x : vec4 R) :
  h <> 0 ->
  gradV (RadialPotential k) x h
  = mkV4 0 (k * get I1 x) (k * get I2 x) (k * get I3 x).
Proof.
  intros Hh. destruct x as [t a b c].
  unfold gradV, tab. cbn. unfold R_lit. cbn.
  f_equal; field; exact Hh.
Qed.

(** *** The zero potential *)

Lemma accel_zero_potential_exact (K : Constants R) (M : MetricPack R)
      (G : Gamma R) (u x : vec4 R) :
  accel K M G u (Some ZeroPotential) x = accel K M G u None x.
Proof.
  unfold accel. apply V4_ext. intros mu. rewrite !get_tab.
  unfold gradV, ZeroPotential, sum_over, all_idx. cbn [fold_left].
  rewrite !get_tab. cbn [radd rsub rmul ropp exactR]. rewrite R_lit_0. ring.
Qed.

Lemma geodesic_step_zero_potential_exact (K : Constants R) (F : IMetricField R)
      (x u : vec4 R) (dtau : R) :
  geodesic_step K F (Some ZeroPotential) x u dtau = geodesic_step K F None x u dtau.
Proof.
  unfold geodesic_step, verlet_update. cbv zeta.
  now rewrite !accel_zero_potential_exact.
Qed.

(** *** Constant metric fields *)

Lemma dmetric_constant_exact (G0 : sym4 R) (x : vec4 R) (a : idx) (h : R) (r c : idx) :
  mget (dmetric (fun _ => G0) x a h) r c = 0.
Proof.
  unfold dmetric. rewrite mget_mtab. cbn [rsub rmul exactR]. ring.
Qed.

Lemma christoffel_constant_exact (K : Constants R) (G0 : sym4 R) (x : vec4 R)
      (mu a b : idx) :
  Gget (christoffel (prepare_metric K (fun _ => G0) x)) mu a b = 0.
Proof.
  unfold christoffel, Gget. rewrite !get_tab.
  unfold prepare_metric. cbn [dg g_inv].
  set (gi := r_Ainv _).
  unfold dmetric4, sum_over, all_idx. cbn [fold_left].
  rewrite !get_tab, !dmetric_constant_exact.
  cbn [radd rsub rmul exactR]. rewrite R_lit_0. ring.
Qed.

Lemma riemann_constant_exact (K : Constants R) (G0 : sym4 R) (x : vec4 R)
      (mu nu a b : idx) :
  Rget (riemann_at K (fun _ => G0) x) mu nu a b = 0.
Proof.
  unfold riemann_at, Rget. rewrite !get_tab.
  unfold riemann_component, all_idx. cbn [fold_left].
  rewrite !get_tab.
  assert (D : forall a' mu' nu' b', Gget (dGamma_dir K (fun _ => G0) x a' (fd_h K)) mu' nu' b' = 0).
  { intros a' mu' nu' b'. unfold dGamma_dir. cbv zeta.
    unfold Gget at 1. rewrite !get_tab.
    rewrite !christoffel_constant_exact. cbn [rsub rmul exactR]. ring. }
  rewrite !D, !christoffel_constant_exact.
  cbn [radd rsub rmul exactR]. ring.
Qed.

Lemma ricci_constant_exact (K : Constants R) (G0 : sym4 R) (x : vec4 R) (a b : idx) :
  mget (ricci (riemann_at K (fun _ => G0) x)) a b = 0.
Proof.
  unfold ricci. rewrite mget_mtab. unfold sum_over, all_idx. cbn [fold_left].
  rewrite !riemann_constant_exact. cbn [radd exactR]. rewrite R_lit_0. ring.
Qed.

Lemma curv_scalar_constant_exact (K : Constants R) (G0 : sym4 R) (x : vec4 R) :
  curv_scalar K (fun _ => G0) x = 0.
Proof.
  unfold curv_scalar, scalar, all_idx. cbn [fold_left].
  rewrite !ricci_constant_exact. cbn [radd rmul exactR]. rewrite R_lit_0. ring.
Qed.

Lemma einstein_constant_exact (K : Constants R) (G0 : sym4 R) (x : vec4 R) :
  einstein_at K (fun _ => G0) x = mat4_zero.
Proof.
  apply mat_ext. intros i j. unfold einstein_at. cbv zeta.
  rewrite mget_mtab.
  change (scalar (g_inv (prepare_metric K (fun _ => G0) x))
                 (ricci (riemann_at K (fun _ => G0) x)))
    with (curv_scalar K (fun _ => G0) x).
  rewrite curv_scalar_constant_exact, ricci_constant_exact.
  unfold mat4_zero. rewrite mget_mtab.
  cbn [rsub rmul exactR]. rewrite R_lit_0. ring.
Qed.

(** *** A singular metric *)

Lemma christoffel_singular_exact (K : Constants R) (F : IMetricField R) (x : vec4 R)
      (mu a b : idx) :
  inv_ok (prepare_metric K F x) = false ->
  Gget (christoffel (prepare_metric K F x)) mu a b = 0.
Proof.
  intros H.
  assert (Z : g_inv (prepare_metric K F x) = mat4_zero).
  { unfold prepare_metric in *. cbn [inv_ok g_inv] in *.
    now apply inverse_failure_keeps_output in H. }
  unfold christoffel, Gget. rewrite !get_tab, Z.
  unfold sum_over, all_idx. cbn [fold_left].
  unfold mat4_zero. rewrite !mget_mtab.
  cbn [radd rmul exactR]. rewrite R_lit_0. ring.
Qed.

Lemma accel_singular_exact (K : Constants R) (F : IMetricField R) (x u : vec4 R) :
  inv_ok (prepare_metric K F x) = false ->
  accel K (prepare_metric K F x) (christoffel (prepare_metric K F x)) u None x
  = vec4_zero.
Proof.
  intros H. unfold accel. apply V4_ext. intros mu.
  unfold vec4_zero. rewrite !get_tab. unfold all_idx. cbn [fold_left].
  rewrite !(christoffel_singular_exact K F x _ _ _ H).
  cbn [radd rmul ropp exactR]. rewrite R_lit_0. ring.
Qed.

(** *** Renormalisation *)

Lemma renormalize_idempotent_exact (gm : mat4 R) (u : vec4 R) :
  renormalize_timelike gm (renormalize_timelike gm u) = renormalize_timelike gm u.
Proof.
  destruct (Rle_dec 0 (qform gm u)) as [L|L].
  - assert (E : renormalize_timelike gm u = u).
    { unfold renormalize_timelike. cbv zeta. cbn [rleb exactR]. unfold R_leb.
      rewrite R_lit_0. destruct (Rle_dec 0 (qform gm u)); [reflexivity | contradiction]. }
    now rewrite !E.
  - assert (Q : qform gm (renormalize_timelike gm u) = -1)
      by (apply renormalize_on_shell; lra).
    set (w := renormalize_timelike gm u) in *.
    unfold renormalize_timelike at 1. cbv zeta. rewrite Q.
    cbn [rleb exactR]. unfold R_leb. rewrite R_lit_0.
    destruct (Rle_dec 0 (-1)) as [L'|_]; [lra|].
    apply V4_ext. intros i. rewrite get_vmap.
    cbn [ropp rdiv rsqrt rmul exactR].
    replace (- -1) with 1 by ring. rewrite sqrt_1, R_lit_1. field.
Qed.

(** *** The squared metric *)

Lemma pd_proxy_square_psd_exact (gm : sym4 R) (v : vec4 R) :
  symmetric gm -> 0 <= qform (pd_proxy_square gm) v.
Proof.
  intros S. rewrite (qform_square gm v S).
  destruct (mulv gm v) as [w0 w1 w2 w3]. cbn [get e0 e1 e2 e3]. nra.
Qed.

(** *** Symmetrisation *)

Lemma sym4_of_fixes_symmetric_exact (A : mat4 R) : symmetric A -> sym4_of A = A.
Proof.
  intros S. apply mat_ext. intros r c. unfold sym4_of. rewrite mget_mtab.
  rewrite (S c r), R_lit_half. cbn [radd rmul exactR]. field.
Qed.

End ExactGeometry.

Module ExactCholesky.
Import ExactR ExactGeometry.
Local Open Scope R_scope.

Lemma R_leb_false_pos (x : R) : R_leb x 0 = false -> 0 < x.
Proof. unfold R_leb. destruct (Rle_dec x 0); [discriminate | lra]. Qed.

(** The shape of a successful factorisation: the factor is explicit. *)
Lemma cholesky4_factor (A : mat4 R) (L : mat4 R) :
  cholesky4 A (lit 0 0) = (true, L) ->
  exists l00 l10 l11 l20 l21 l22 l30 l31 l32 l33,
    L = mkV4 (mkV4 l00 0 0 0) (mkV4 l10 l11 0 0)
             (mkV4 l20 l21 l22 0) (mkV4 l30 l31 l32 l33) /\
    0 < l00 /\ 0 < l11 /\ 0 < l22 /\ 0 < l33 /\
    mget A I0 I0 = l00 * l00 /\
    mget A I1 I0 = l10 * l00 /\
    mget A I1 I1 = l10 * l10 + l11 * l11 /\
    mget A I2 I0 = l20 * l00 /\
    mget A I2 I1 = l20 * l10 + l21 * l11 /\
    mget A I2 I2 = l20 * l20 + l21 * l21 + l22 * l22 /\
    mget A I3 I0 = l30 * l00 /\
    mget A I3 I1 = l30 * l10 + l31 * l11 /\
    mget A I3 I2 = l30 * l20 + l31 * l21 + l32 * l22 /\
    mget A I3 I3 = l30 * l30 + l31 * l31 + l32 * l32 + l33 * l33.
Proof.
  destruct A as [[a00 a01 a02 a03] [a10 a11 a12 a13]
                 [a20 a21 a22 a23] [a30 a31 a32 a33]].
  cbn.
  destruct (R_leb a00 0) eqn:T0; [discriminate|].
  apply R_leb_false_pos in T0. cbn.
  destruct (sqrt_pos_sq a00 T0) as [P00 E00].
  remember (sqrt a00) as l00 eqn:D. clear D.
  remember (a10 / l00) as l10 eqn:D.
  assert (E10 : a10 = l10 * l00) by (subst l10; field; lra). clear D.
  destruct (R_leb (a11 - l10 * l10) 0) eqn:T1; [discriminate|].
  apply R_leb_false_pos in T1. cbn.
  destruct (sqrt_pos_sq _ T1) as [P11 E11].
  remember (sqrt (a11 - l10 * l10)) as l11 eqn:D. clear D.
  remember (a20 / l00) as l20 eqn:D.
  assert (E20 : a20 = l20 * l00) by (subst l20; field; lra). clear D.
  remember ((a21 - l20 * l10) / l11) as l21 eqn:D.
  assert (E21 : a21 = l20 * l10 + l21 * l11) by (subst l21; field; lra). clear D.
  destruct (R_leb (a22 - l20 * l20 - l21 * l21) 0) eqn:T2; [discriminate|].
  apply R_leb_false_pos in T2. cbn.
  destruct (sqrt_pos_sq _ T2) as [P22 E22].
  remember (sqrt (a22 - l20 * l20 - l21 * l21)) as l22 eqn:D. clear D.
  remember (a30 / l00) as l30 eqn:D.
  assert (E30 : a30 = l30 * l00) by (subst l30; field; lra). clear D.
  remember ((a31 - l30 * l10) / l11) as l31 eqn:D.
  assert (E31 : a31 = l30 * l10 + l31 * l11) by (subst l31; field; lra). clear D.
  remember ((a32 - l30 * l20 - l31 * l21) / l22) as l32 eqn:D.
  assert (E32 : a32 = l30 * l20 + l31 * l21 + l32 * l22) by (subst l32; field; lra).
  clear D.
  destruct (R_leb (a33 - l30 * l30 - l31 * l31 - l32 * l32) 0) eqn:T3; [discriminate|].
  apply R_leb_false_pos in T3.
  destruct (sqrt_pos_sq _ T3) as [P33 E33].
  remember (sqrt (a33 - l30 * l30 - l31 * l31 - l32 * l32)) as l33 eqn:D. clear D.
  intros E. injection E as <-.
  exists l00, l10, l11, l20, l21, l22, l30, l31, l32, l33.
  repeat split; try assumption; try lra.
Qed.

Lemma cholesky4_round_trip (A L : mat4 R) :
  symmetric A ->
  cholesky4 A (lit 0 0) = (true, L) ->
  mul L (transpose L) = A /\
  (forall i j, idx_ltb i j = true -> mget L i j = 0) /\
  (forall i, 0 < mget L i i).
Proof.
  intros S H.
  destruct (cholesky4_factor A L H)
    as (l00 & l10 & l11 & l20 & l21 & l22 & l30 & l31 & l32 & l33 & EL &
        P0 & P1 & P2 & P3 & E00 & E10 & E11 & E20 & E21 & E22 & E30 & E31 & E32 & E33).
  subst L. split; [|split].
  - apply mat_ext. intros r c.
    assert (Hl : forall i j, idx_leb j i = true ->
       mget (mul (mkV4 (mkV4 l00 0 0 0) (mkV4 l10 l11 0 0)
                       (mkV4 l20 l21 l22 0) (mkV4 l30 l31 l32 l33))
                 (transpose (mkV4 (mkV4 l00 0 0 0) (mkV4 l10 l11 0 0)
                       (mkV4 l20 l21 l22 0) (mkV4 l30 l31 l32 l33)))) i j
       = mget A i j).
    { intros i j Hij.
      cbn in E00, E10, E11, E20, E21, E22, E30, E31, E32, E33.
      destruct i, j; try discriminate Hij; cbn; rewrite ?R_lit_0;
        first [rewrite E00 | rewrite E10 | rewrite E11 | rewrite E20 | rewrite E21
              | rewrite E22 | rewrite E30 | rewrite E31 | rewrite E32 | rewrite E33];
        ring. }
    destruct (idx_leb c r) eqn:Hcr.
    + now apply Hl.
    + assert (Hrc : idx_leb r c = true) by (destruct r, c; try reflexivity; discriminate).
      rewrite (S r c), <- (Hl c r Hrc).
      apply gram_symmetric_comm. exact Rmult_comm.
  - intros i j Hij. destruct i, j; try discriminate Hij; reflexivity.
  - intros i. destruct i; assumption.
Qed.


Lemma check_pd_report (A : mat4 R) :
  (pd_ok (check_pd A) = true ->
   0 < min_diagL (check_pd A) <= max_diagL (check_pd A)) /\
  (pd_ok (check_pd A) = false ->
   min_diagL (check_pd A) = 0 /\ max_diagL (check_pd A) = 0).
Proof.
  unfold check_pd.
  destruct (cholesky4 A (lit 0 0)) as [ok L] eqn:E.
  destruct ok; cbn [pd_ok min_diagL max_diagL]; split; try discriminate.
  - intros _.
    destruct (cholesky4_factor A L E)
      as (l00 & l10 & l11 & l20 & l21 & l22 & l30 & l31 & l32 & l33 & EL &
          P0 & P1 & P2 & P3 & _).
    subst L. unfold all_idx, rmin, rmax. cbn [fold_left mget get e0 e1 e2 e3].
    cbn [rltb exactR]. unfold R_ltb.
    repeat match goal with
           | |- context [Rlt_dec ?a ?b] => destruct (Rlt_dec a b)
           end; lra.
  - intros _. split; apply R_lit_0.
Qed.

End ExactCholesky.

Module Binary64Geometry.
Import Inputs Binary64.
Local Open Scope float_scope.

(** *** Flat spacetime *)

Lemma fzero_sub_self (z : float) : fzero z -> z - z = 0.
Proof. intros [-> | ->]; reflexivity. Qed.

Lemma dGamma_minkowski (K : Constants float) (x : vec4 float) (a : idx) :
  PrimFloat.is_finite (lit 5 (-1) / fd_h K)%real = true ->
  exists z, fzero z /\
    dGamma_dir K MinkowskiField x a (fd_h K) = tab (fun _ => tab (fun _ => tab (fun _ => z))).
Proof.
  intros Hs. exists (0 * (lit 5 (-1) / fd_h K)%real). split.
  - rewrite float_mul_comm. apply float_mul_finite_zero; [exact Hs | now left].
  - unfold dGamma_dir. cbv zeta.
    rewrite !(christoffel_minkowski K _ Hs).
    apply V4_ext. intros mu. rewrite !get_tab.
    apply V4_ext. intros nu. rewrite !get_tab.
    apply V4_ext. intros b. rewrite !get_tab.
    destruct mu, nu, b; reflexivity.
Qed.

Lemma riemann_minkowski (K : Constants float) (x : vec4 float) :
  PrimFloat.is_finite (lit 5 (-1) / fd_h K)%real = true ->
  riemann_at K MinkowskiField x = zero_riemann.
Proof.
  intros Hs. unfold riemann_at. cbv zeta.
  rewrite (christoffel_minkowski K x Hs).
  destruct (dGamma_minkowski K x I0 Hs) as [z0 [Z0 E0]].
  destruct (dGamma_minkowski K x I1 Hs) as [z1 [Z1 E1]].
  destruct (dGamma_minkowski K x I2 Hs) as [z2 [Z2 E2]].
  destruct (dGamma_minkowski K x I3 Hs) as [z3 [Z3 E3]].
  change (tab (fun a => dGamma_dir K MinkowskiField x a (fd_h K)))
    with (mkV4 (dGamma_dir K MinkowskiField x I0 (fd_h K))
               (dGamma_dir K MinkowskiField x I1 (fd_h K))
               (dGamma_dir K MinkowskiField x I2 (fd_h K))
               (dGamma_dir K MinkowskiField x I3 (fd_h K))).
  rewrite E0, E1, E2, E3.
  destruct Z0 as [-> | ->], Z1 as [-> | ->], Z2 as [-> | ->], Z3 as [-> | ->];
    vm_compute; reflexivity.
Qed.

Lemma curvature_minkowski (K : Constants float) (x : vec4 float) :
  PrimFloat.is_finite (lit 5 (-1) / fd_h K)%real = true ->
  riemann_at K MinkowskiField x = zero_riemann /\
  ricci (riemann_at K MinkowskiField x) = mat4_zero /\
  curv_scalar K MinkowskiField x = 0 /\
  einstein_at K MinkowskiField x = mat4_zero.
Proof.
  intros Hs. pose proof (riemann_minkowski K x Hs) as E.
  split; [exact E|]. split; [|split].
  - rewrite E. vm_compute. reflexivity.
  - unfold curv_scalar. cbv zeta. rewrite E.
    unfold prepare_metric. cbn [g_inv]. vm_compute. reflexivity.
  - unfold einstein_at. cbv zeta. rewrite E.
    unfold prepare_metric. cbn [g_inv]. vm_compute. reflexivity.
Qed.

(** *** NaN propagation *)

Lemma Prim2SF_nan : Prim2SF nan = S754_nan.
Proof. reflexivity. Qed.

Lemma nan_of_SF (x : float) : Prim2SF x = S754_nan -> x = nan.
Proof. intros E. apply Prim2SF_inj. now rewrite E. Qed.

Lemma nan_add_l (x : float) : nan + x = nan.
Proof. apply nan_of_SF. rewrite add_spec, Prim2SF_nan. reflexivity. Qed.

Lemma nan_add_r (x : float) : x + nan = nan.
Proof. rewrite float_add_comm. apply nan_add_l. Qed.





Lemma nan_div_l (x : float) : nan / x = nan.
Proof. apply nan_of_SF. rewrite div_spec, Prim2SF_nan. reflexivity. Qed.



Lemma nan_ltb_r (x : float) : (x <? nan) = false.
Proof.
  rewrite ltb_spec, Prim2SF_nan. unfold SFltb, SFcompare.
  destruct (Prim2SF x); reflexivity.
Qed.

Lemma nan_ltb_l (x : float) : (nan <? x) = false.
Proof. rewrite ltb_spec, Prim2SF_nan. reflexivity. Qed.


Lemma nan_abs : PrimFloat.abs nan = nan.
Proof. reflexivity. Qed.

(** *** The Cholesky test on a NaN *)


End Binary64Geometry.

Module ExactDet.
Import ExactR ExactGeometry.
Local Open Scope R_scope.

Lemma R_eqb_true (x y : R) : R_eqb x y = true -> x = y.
Proof. unfold R_eqb. destruct (Req_dec_T x y); [auto | discriminate]. Qed.

Lemma R_eqb_false (x y : R) : R_eqb x y = false -> x <> y.
Proof. unfold R_eqb. destruct (Req_dec_T x y); [discriminate | auto]. Qed.

(** Partial pivoting: no candidate of the column exceeds the pivot. *)
Lemma pivot_search_max_exact (col : idx -> R) (k r : idx) :
  idx_leb k r = true -> Rabs (col r) <= snd (pivot_search col k).
Proof.
  intros H. unfold pivot_search.
  destruct k; cbn [after all_idx filter idx_ltb idx_nat Nat.ltb Nat.leb fold_left snd rabs rltb exactR];
    unfold R_ltb;
    repeat match goal with
           | |- context [Rlt_dec (Rabs (col ?i)) (Rabs (col ?j))] =>
               destruct (Rlt_dec (Rabs (col i)) (Rabs (col j))); cbn [snd]
           end;
    destruct r; try discriminate H; lra.
Qed.

Lemma Rabs_nonzero (x : R) : Rabs x <> 0 -> x <> 0.
Proof. intros H E. apply H. rewrite E. apply Rabs_R0. Qed.

(** The entries that [sub_diag_zero] makes vanish. *)
Ltac zero_facts Hz :=
  let go r j :=
    try (let Z := fresh "Z" in
         assert (Z := Hz r j); cbn in Z;
         first [ specialize (Z ltac:(lia) ltac:(lia)) | clear Z ]) in
  go I1 I0; go I2 I0; go I3 I0; go I2 I1; go I3 I1; go I3 I2.

Ltac det_step_case :=
  (split; [cbn [d_sign]; lia|]); (split; [|split]);
  [ intros r j H1 H2; destruct r, j; cbn in H1, H2 |- *; try lia;
    try reflexivity; field; assumption
  | cbn; match goal with Hd : _ = diag_prod _ _ |- _ => rewrite Hd end; cbn; ring
  | cbn; rewrite ?opp_IZR; unfold laplace_det, det3, det2; cbn; field; assumption ].

Lemma det_step_inv (A0 : mat4 R) (k : idx) (st st' : det_state) :
  det_inv A0 (idx_nat k) st ->
  det_step st k = Some st' ->
  det_inv A0 (S (idx_nat k)) st'.
Proof.
  intros (Hs & Hz & Hd & HD) E.
  destruct st as [M sign d]. cbn [d_A d_sign d_det] in *.
  unfold det_step in E. cbn [d_A d_sign d_det] in E.
  pose proof (pivot_search_spec (fun r => mget M r k) k) as [Ha Hp].
  destruct (pivot_search (fun r => mget M r k) k) as [piv amax].
  cbn [fst snd] in Ha, Hp.
  destruct (amax =? lit 0 0)%real eqn:Ez; [discriminate|].
  cbn [reqb exactR] in Ez. apply R_eqb_false in Ez. rewrite R_lit_0 in Ez.
  rewrite Ha in Ez. cbn [rabs exactR] in Ez. apply Rabs_nonzero in Ez.
  clear Ha amax.
  destruct M as [[m00 m01 m02 m03] [m10 m11 m12 m13]
                 [m20 m21 m22 m23] [m30 m31 m32 m33]].
  unfold det_inv. rewrite <- HD. clear HD A0.
  destruct k; cbn [idx_nat] in *.
  - destruct piv; try discriminate Hp; cbn in Ez, E; injection E as <-.
    + det_step_case.
    + det_step_case.
    + det_step_case.
    + det_step_case.
  - zero_facts Hz. repeat match goal with Z : ?x = 0 |- _ => subst x end.
    destruct piv; try discriminate Hp; cbn in Ez, E; injection E as <-;
      det_step_case.
  - zero_facts Hz. repeat match goal with Z : ?x = 0 |- _ => subst x end.
    destruct piv; try discriminate Hp; cbn in Ez, E; injection E as <-;
      det_step_case.
  - zero_facts Hz. repeat match goal with Z : ?x = 0 |- _ => subst x end.
    destruct piv; try discriminate Hp; cbn in Ez, E; injection E as <-;
      det_step_case.
Qed.

Lemma det_step_none (A0 : mat4 R) (k : idx) (st : det_state) :
  det_inv A0 (idx_nat k) st ->
  det_step st k = None ->
  laplace_det A0 = 0.
Proof.
  intros (Hs & Hz & Hd & HD) E.
  destruct st as [M sign d]. cbn [d_A d_sign d_det] in *.
  unfold det_step in E. cbn [d_A d_sign d_det] in E.
  pose proof (pivot_search_max_exact (fun r => mget M r k) k) as Hmax.
  destruct (pivot_search (fun r => mget M r k) k) as [piv amax].
  cbn [fst snd] in Hmax.
  destruct (amax =? lit 0 0)%real eqn:Ez; [|discriminate].
  cbn [reqb exactR] in Ez. apply R_eqb_true in Ez. rewrite R_lit_0 in Ez.
  subst amax.
  assert (Hcol : forall r, idx_leb k r = true -> mget M r k = 0).
  { intros r Hr. specialize (Hmax r Hr).
    pose proof (Rabs_pos (mget M r k)) as P.
    destruct (Req_dec (mget M r k) 0) as [Z|N]; [exact Z|].
    apply Rabs_pos_lt in N. lra. }
  rewrite <- HD.
  assert (L : laplace_det M = 0).
  { clear HD Hd Hmax E.
    destruct M as [[m00 m01 m02 m03] [m10 m11 m12 m13]
                   [m20 m21 m22 m23] [m30 m31 m32 m33]].
    destruct k; cbn [idx_nat] in *.
    - pose proof (Hcol I0 eq_refl) as C0. pose proof (Hcol I1 eq_refl) as C1.
      pose proof (Hcol I2 eq_refl) as C2. pose proof (Hcol I3 eq_refl) as C3.
      cbn in C0, C1, C2, C3. subst.
      unfold laplace_det, det3, det2. cbn. ring.
    - zero_facts Hz.
      pose proof (Hcol I1 eq_refl) as C1.
      pose proof (Hcol I2 eq_refl) as C2. pose proof (Hcol I3 eq_refl) as C3.
      cbn in C1, C2, C3. subst.
      unfold laplace_det, det3, det2. cbn. ring.
    - zero_facts Hz.
      pose proof (Hcol I2 eq_refl) as C2. pose proof (Hcol I3 eq_refl) as C3.
      cbn in C2, C3. subst.
      unfold laplace_det, det3, det2. cbn. ring.
    - zero_facts Hz.
      pose proof (Hcol I3 eq_refl) as C3.
      cbn in C3. subst.
      unfold laplace_det, det3, det2. cbn. ring. }
  rewrite L. ring.
Qed.

Lemma det_inv_init (A : mat4 R) :
  det_inv A 0 {| d_A := A; d_sign := 1; d_det := lit 1 0 |}.
Proof.
  unfold det_inv. cbn [d_A d_sign d_det].
  split; [now left|]. split; [|split].
  - intros r j H. lia.
  - reflexivity.
  - ring.
Qed.

Lemma det_inv_final (A0 : mat4 R) (st : det_state) :
  det_inv A0 4 st -> (d_det st * lit (d_sign st) 0)%real = laplace_det A0.
Proof.
  intros (Hs & Hz & Hd & HD).
  destruct st as [M sign d]. cbn [d_A d_sign d_det] in *.
  rewrite <- HD, Hd. clear HD Hd A0.
  destruct M as [[m00 m01 m02 m03] [m10 m11 m12 m13]
                 [m20 m21 m22 m23] [m30 m31 m32 m33]].
  zero_facts Hz. repeat match goal with Z : ?x = 0 |- _ => subst x end.
  destruct Hs as [-> | ->]; unfold laplace_det, det3, det2; cbn;
    unfold R_lit; cbn; ring.
Qed.

(** [det] computes the determinant. *)
Lemma det_is_laplace_det (A : mat4 R) : det A = laplace_det A.
Proof.
  unfold det, all_idx. cbn [det_loop].
  pose proof (det_inv_init A) as I0'.
  destruct (det_step _ I0) as [st1|] eqn:E0.
  2:{ symmetry. exact (det_step_none A I0 _ I0' E0). }
  pose proof (det_step_inv A I0 _ _ I0' E0) as I1'.
  destruct (det_step st1 I1) as [st2|] eqn:E1.
  2:{ symmetry. exact (det_step_none A I1 _ I1' E1). }
  pose proof (det_step_inv A I1 _ _ I1' E1) as I2'.
  destruct (det_step st2 I2) as [st3|] eqn:E2.
  2:{ symmetry. exact (det_step_none A I2 _ I2' E2). }
  pose proof (det_step_inv A I2 _ _ I2' E2) as I3'.
  destruct (det_step st3 I3) as [st4|] eqn:E3.
  2:{ symmetry. exact (det_step_none A I3 _ I3' E3). }
  pose proof (det_step_inv A I3 _ _ I3' E3) as I4'.
  exact (det_inv_final A st4 I4').
Qed.

End ExactDet.

Module ExactInverse.
Import ExactR ExactGeometry ExactDet.
Local Open Scope R_scope.

Lemma adjugate_right (A : mat4 R) (r c : idx) :
  mget (mul A (adjugate A)) r c
  = if idx_eqb r c then laplace_det A else 0.
Proof.
  destruct A as [[a00 a01 a02 a03] [a10 a11 a12 a13]
                 [a20 a21 a22 a23] [a30 a31 a32 a33]].
  destruct r, c; cbn; unfold laplace_det, det3, det2; cbn; ring.
Qed.

Lemma adjugate_left (A : mat4 R) (r c : idx) :
  mget (mul (adjugate A) A) r c
  = if idx_eqb r c then laplace_det A else 0.
Proof.
  destruct A as [[a00 a01 a02 a03] [a10 a11 a12 a13]
                 [a20 a21 a22 a23] [a30 a31 a32 a33]].
  destruct r, c; cbn; unfold laplace_det, det3, det2; cbn; ring.
Qed.

Lemma mul_assoc_exact (X Y Z : mat4 R) : mul (mul X Y) Z = mul X (mul Y Z).
Proof.
  apply mat_ext. intros r c. unfold mul. rewrite !mget_mtab.
  unfold sum_over, all_idx. cbn [fold_left]. rewrite !mget_mtab.
  unfold sum_over, all_idx. cbn [fold_left radd rmul exactR]. rewrite !R_lit_0. ring.
Qed.

(** *** Row operations of the elimination *)

Lemma upd_get_same {T} (r : idx) (v : V4 T) : upd r (get r v) v = v.
Proof. destruct v, r; reflexivity. Qed.

Lemma row_axpy_zero (rk rr : @augrow R) : row_axpy 0 rk rr = rr.
Proof.
  destruct rr as [l r]. unfold row_axpy. cbn [lft rgt]. f_equal;
    apply V4_ext; intros c; rewrite get_tab; cbn [rsub rmul exactR]; ring.
Qed.

(** In exact arithmetic the test [f == 0] of the elimination only skips
    an update that would change nothing. *)
Lemma eliminate_exact (k : idx) (aug : V4 (@augrow R)) (r : idx) :
  eliminate k aug r
  = upd r (row_axpy (aget aug r k) (get k aug) (get r aug)) aug.
Proof.
  unfold eliminate.
  destruct (aget aug r k =? lit 0 0)%real eqn:E; [|reflexivity].
  cbn [reqb exactR] in E. apply R_eqb_true in E. rewrite R_lit_0 in E.
  rewrite E, row_axpy_zero. symmetry. apply upd_get_same.
Qed.

Lemma row_rel_scale (A : mat4 R) (s : R) (row : augrow) :
  row_rel A row -> row_rel A (row_scale s row).
Proof.
  unfold row_rel, row_scale. destruct row as [l r]. cbn [lft rgt].
  intros ->. apply V4_ext. intros c.
  unfold row_times. rewrite get_vmap, !get_tab.
  unfold sum_over, all_idx. cbn [fold_left]. rewrite !get_vmap.
  cbn [radd rmul exactR]. rewrite R_lit_0. ring.
Qed.

Lemma row_rel_axpy (A : mat4 R) (f : R) (rk rr : augrow) :
  row_rel A rk -> row_rel A rr -> row_rel A (row_axpy f rk rr).
Proof.
  unfold row_rel, row_axpy. destruct rk as [lk rk], rr as [lr rr]. cbn [lft rgt].
  intros -> ->. apply V4_ext. intros c.
  unfold row_times. rewrite !get_tab.
  unfold sum_over, all_idx. cbn [fold_left]. rewrite !get_tab.
  cbn [radd rsub rmul exactR]. rewrite R_lit_0. ring.
Qed.

Lemma all_rel_upd (A : mat4 R) (aug : V4 augrow) (k : idx) (row : augrow) :
  (forall r, row_rel A (get r aug)) -> row_rel A row ->
  forall r, row_rel A (get r (upd k row aug)).
Proof.
  intros H Hrow r. destruct (idx_eqb r k) eqn:E.
  - apply idx_eqb_eq in E. subst. now rewrite get_upd_same.
  - apply idx_eqb_neq in E. rewrite get_upd_other by exact E. apply H.
Qed.

Lemma all_rel_swap (A : mat4 R) (aug : V4 augrow) (i j : idx) :
  (forall r, row_rel A (get r aug)) ->
  forall r, row_rel A (get r (swap_rows i j aug)).
Proof.
  intros H. unfold swap_rows.
  apply all_rel_upd; [apply all_rel_upd|]; auto.
Qed.

Lemma all_rel_eliminate (A : mat4 R) (k : idx) (aug : V4 augrow) (j : idx) :
  (forall r, row_rel A (get r aug)) ->
  forall r, row_rel A (get r (eliminate k aug j)).
Proof.
  intros H. rewrite eliminate_exact.
  apply all_rel_upd; [exact H|]. apply row_rel_axpy; apply H.
Qed.

Lemma all_rel_fold (A : mat4 R) (k : idx) (js : list idx) (aug : V4 augrow) :
  (forall r, row_rel A (get r aug)) ->
  forall r, row_rel A (get r (fold_left (eliminate k) js aug)).
Proof.
  revert aug. induction js as [|j js IH]; intros aug H; cbn [fold_left];
    [exact H|].
  apply IH. now apply all_rel_eliminate.
Qed.

Lemma all_rel_init (A : mat4 R) : forall r, row_rel A (get r (init_aug A)).
Proof.
  intros r. unfold init_aug, row_rel. rewrite get_tab. cbn [lft rgt].
  apply V4_ext. intros c. unfold row_times. rewrite !get_tab.
  unfold sum_over, all_idx. cbn [fold_left]. rewrite !get_tab.
  destruct r; cbn [idx_eqb idx_nat Nat.eqb radd rmul exactR];
    rewrite R_lit_0, R_lit_1; ring.
Qed.

Lemma all_rel_forward_step (A : mat4 R) (eps : R) (st st' : elim_state) (k : idx) :
  (forall r, row_rel A (get r (g_aug st))) ->
  forward_step eps st k = Some st' ->
  forall r, row_rel A (get r (g_aug st')).
Proof.
  intros H E. unfold forward_step in E.
  destruct (pivot_of st k) as [piv amax].
  destruct (amax <? eps)%real; [discriminate|].
  injection E as <-. cbn [g_aug].
  apply all_rel_fold.
  set (aug1 := if idx_eqb piv k then g_aug st else swap_rows piv k (g_aug st)).
  assert (H1 : forall r, row_rel A (get r aug1)).
  { subst aug1. destruct (idx_eqb piv k); [exact H | now apply all_rel_swap]. }
  apply all_rel_upd; [exact H1|]. apply row_rel_scale. apply H1.
Qed.

Lemma all_rel_back (A : mat4 R) (aug : V4 augrow) :
  (forall r, row_rel A (get r aug)) ->
  forall r, row_rel A (get r (back_substitute aug)).
Proof.
  intros H. unfold back_substitute. cbn [fold_left].
  repeat apply all_rel_fold. exact H.
Qed.

(** *** The left block through the forward elimination *)

Lemma R_ltb_false (x y : R) : R_ltb x y = false -> y <= x.
Proof. unfold R_ltb. destruct (Rlt_dec x y); [discriminate | lra]. Qed.

Ltac unit_facts Hu :=
  let diag j :=
    try (let U := fresh "U" in
         assert (U := Hu j); cbn in U;
         first [ specialize (U ltac:(lia)); destruct U as [U _] | clear U ]) in
  let low r j :=
    try (let Z := fresh "Z" in
         assert (Z := Hu j); cbn in Z;
         first [ specialize (Z ltac:(lia)); destruct Z as [_ Z];
                 specialize (Z r); cbn in Z; specialize (Z ltac:(lia))
               | clear Z ]) in
  diag I0; diag I1; diag I2; diag I3;
  low I1 I0; low I2 I0; low I3 I0; low I2 I1; low I3 I1; low I3 I2.

Ltac subst_units :=
  repeat match goal with
         | Z : ?x = 0 |- _ => subst x
         | U : ?x = 1 |- _ => subst x
         end.

Ltac fwd_case :=
  (split; [|split; [cbn [g_sign]; lia|split]]);
  [ intros j Hj; split;
    [ destruct j; cbn in Hj |- *; try lia; try reflexivity; field; assumption
    | intros r Hr; destruct j, r; cbn in Hj, Hr |- *; try lia; try reflexivity;
      field; assumption ]
  | cbn [g_det]; apply Rmult_integral_contrapositive_currified; assumption
  | cbn; rewrite ?opp_IZR; unfold laplace_det, det3, det2; cbn; field; assumption ].

Lemma forward_step_block (A : mat4 R) (eps : R) (st st' : elim_state) (k : idx) :
  0 < eps ->
  unit_cols (idx_nat k) (lblock (g_aug st)) ->
  (g_sign st = 1 \/ g_sign st = -1)%Z ->
  g_det st <> 0 ->
  forward_step eps st k = Some st' ->
  unit_cols (S (idx_nat k)) (lblock (g_aug st')) /\
  (g_sign st' = 1 \/ g_sign st' = -1)%Z /\
  g_det st' <> 0 /\
  IZR (g_sign st') * g_det st' * laplace_det (lblock (g_aug st'))
  = IZR (g_sign st) * g_det st * laplace_det (lblock (g_aug st)).
Proof.
  intros Heps Hu Hs Hd E.
  destruct st as [aug sign d]. cbn [g_aug g_sign g_det] in *.
  unfold forward_step, pivot_of in E. cbn [g_aug g_sign g_det] in E.
  pose proof (pivot_search_spec (fun r => aget aug r k) k) as [Ha Hp].
  destruct (pivot_search (fun r => aget aug r k) k) as [piv amax].
  cbn [fst snd] in Ha, Hp.
  destruct (amax <? eps)%real eqn:Ez; [discriminate|].
  cbn [rltb exactR] in Ez. apply R_ltb_false in Ez.
  assert (Hpiv : aget aug piv k <> 0).
  { apply Rabs_nonzero. cbn [rabs exactR] in Ha. rewrite <- Ha. lra. }
  clear Ha Ez amax Heps eps.
  destruct aug as [[[a00 a01 a02 a03] r0] [[a10 a11 a12 a13] r1]
                   [[a20 a21 a22 a23] r2] [[a30 a31 a32 a33] r3]].
  destruct k; cbn [idx_nat] in *.
  - destruct piv; try discriminate Hp;
      cbn [after all_idx filter idx_ltb idx_nat Nat.ltb Nat.leb fold_left idx_eqb Nat.eqb] in E;
      rewrite !eliminate_exact in E; cbn in Hpiv, E; injection E as <-;
      fwd_case.
  - unit_facts Hu. subst_units.
    destruct piv; try discriminate Hp;
      cbn [after all_idx filter idx_ltb idx_nat Nat.ltb Nat.leb fold_left idx_eqb Nat.eqb] in E;
      rewrite ?eliminate_exact in E; cbn in Hpiv, E; injection E as <-;
      fwd_case.
  - unit_facts Hu. subst_units.
    destruct piv; try discriminate Hp;
      cbn [after all_idx filter idx_ltb idx_nat Nat.ltb Nat.leb fold_left idx_eqb Nat.eqb] in E;
      rewrite ?eliminate_exact in E; cbn in Hpiv, E; injection E as <-;
      fwd_case.
  - unit_facts Hu. subst_units.
    destruct piv; try discriminate Hp;
      cbn [after all_idx filter idx_ltb idx_nat Nat.ltb Nat.leb fold_left idx_eqb Nat.eqb] in E;
      rewrite ?eliminate_exact in E; cbn in Hpiv, E; injection E as <-;
      fwd_case.
Qed.

Lemma back_substitute_block (aug : V4 augrow) :
  unit_cols 4 (lblock aug) -> lblock (back_substitute aug) = identity.
Proof.
  intros Hu.
  destruct aug as [[[a00 a01 a02 a03] r0] [[a10 a11 a12 a13] r1]
                   [[a20 a21 a22 a23] r2] [[a30 a31 a32 a33] r3]].
  unit_facts Hu. subst_units.
  unfold back_substitute.
  cbn [below all_idx filter idx_ltb idx_nat Nat.ltb Nat.leb fold_left].
  rewrite !eliminate_exact.
  apply mat_ext. intros r c. destruct r, c; cbn; unfold R_lit; cbn; ring.
Qed.

Lemma fwd_inv_init (A : mat4 R) :
  fwd_inv A 0 {| g_aug := init_aug A; g_sign := 1; g_det := lit 1 0 |}.
Proof.
  unfold fwd_inv. cbn [g_aug g_sign g_det].
  split; [apply all_rel_init|]. split; [|split; [|split]].
  - intros j Hj. lia.
  - now left.
  - rewrite R_lit_1. lra.
  - rewrite R_lit_1.
    replace (lblock (init_aug A)) with A; [ring|].
    apply mat_ext. intros r c. unfold lblock, init_aug, aget.
    rewrite mget_mtab, get_tab. cbn [lft]. now rewrite get_tab.
Qed.

Lemma fwd_inv_step (A : mat4 R) (eps : R) (st st' : elim_state) (k : idx) :
  0 < eps ->
  fwd_inv A (idx_nat k) st ->
  forward_step eps st k = Some st' ->
  fwd_inv A (S (idx_nat k)) st'.
Proof.
  intros Heps (Hr & Hu & Hs & Hd & HD) E.
  destruct (forward_step_block A eps st st' k Heps Hu Hs Hd E)
    as (Hu' & Hs' & Hd' & HD').
  unfold fwd_inv. split; [|split; [|split; [|split]]]; try assumption.
  - exact (all_rel_forward_step A eps st st' k Hr E).
  - now rewrite HD'.
Qed.

Lemma identity_mul_from_rows (A : mat4 R) (aug : V4 augrow) :
  (forall r, row_rel A (get r aug)) ->
  lblock aug = identity ->
  mul (rblock aug) A = identity.
Proof.
  intros Hr Hl. rewrite <- Hl. apply mat_ext. intros r c.
  unfold mul, lblock, rblock, aget. rewrite !mget_mtab.
  rewrite (Hr r). unfold row_times. rewrite get_tab.
  apply sum_over_ext. intros j. now rewrite mget_mtab.
Qed.

Lemma unit_upper_det (M : mat4 R) : unit_cols 4 M -> laplace_det M = 1.
Proof.
  intros Hu.
  destruct M as [[m00 m01 m02 m03] [m10 m11 m12 m13]
                 [m20 m21 m22 m23] [m30 m31 m32 m33]].
  unit_facts Hu. subst_units.
  unfold laplace_det, det3, det2. cbn. ring.
Qed.

(** A left inverse of a matrix with non-zero determinant is a right
    inverse. *)
Lemma left_inverse_is_right (A B : mat4 R) :
  laplace_det A <> 0 -> mul B A = identity -> mul A B = identity.
Proof.
  intros Hd HB.
  set (C := mtab (fun r c => mget (adjugate A) r c / laplace_det A) : mat4 R).
  assert (AC : mul A C = identity).
  { apply mat_ext. intros r c.
    pose proof (adjugate_right A r c) as H.
    unfold mul in H |- *. rewrite mget_mtab in H |- *.
    unfold sum_over, all_idx in H |- *. cbn [fold_left] in H |- *.
    unfold C. rewrite !mget_mtab.
    cbn [radd rmul exactR] in H |- *. rewrite R_lit_0 in H |- *.
    transitivity ((if idx_eqb r c then laplace_det A else 0) / laplace_det A).
    - rewrite <- H. field. exact Hd.
    - unfold identity. rewrite mget_mtab.
      destruct (idx_eqb r c); rewrite ?R_lit_0, ?R_lit_1; field; exact Hd. }
  assert (BC : B = C).
  { transitivity (mul B (mul A C)).
    - rewrite AC. apply mat_ext. intros r c. unfold mul, identity.
      rewrite mget_mtab. unfold sum_over, all_idx. cbn [fold_left].
      rewrite !mget_mtab.
      destruct c; cbn [idx_eqb idx_nat Nat.eqb radd rmul exactR];
        rewrite R_lit_0, R_lit_1; ring.
    - rewrite <- mul_assoc_exact, HB.
      apply mat_ext. intros r c. unfold mul, identity.
      rewrite mget_mtab. unfold sum_over, all_idx. cbn [fold_left].
      rewrite !mget_mtab.
      destruct r; cbn [idx_eqb idx_nat Nat.eqb radd rmul exactR];
        rewrite R_lit_0, R_lit_1; ring. }
  now rewrite BC.
Qed.

(** [inverse] returns the inverse and the determinant. *)
Lemma inverse_exact (A Ainv0 : mat4 R) (d0 c0 eps : R) :
  0 < eps ->
  r_ok (inverse A Ainv0 d0 c0 eps) = true ->
  mul (r_Ainv (inverse A Ainv0 d0 c0 eps)) A = identity /\
  mul A (r_Ainv (inverse A Ainv0 d0 c0 eps)) = identity /\
  r_det (inverse A Ainv0 d0 c0 eps) = laplace_det A /\
  laplace_det A <> 0.
Proof.
  intros Heps. unfold inverse, inverse_call, all_idx. cbn [forward].
  pose proof (fwd_inv_init A) as J0.
  destruct (forward_step eps _ I0) as [st1|] eqn:E0; [|discriminate].
  pose proof (fwd_inv_step A eps _ _ I0 Heps J0 E0) as J1.
  destruct (forward_step eps st1 I1) as [st2|] eqn:E1; [|discriminate].
  pose proof (fwd_inv_step A eps _ _ I1 Heps J1 E1) as J2.
  destruct (forward_step eps st2 I2) as [st3|] eqn:E2; [|discriminate].
  pose proof (fwd_inv_step A eps _ _ I2 Heps J2 E2) as J3.
  destruct (forward_step eps st3 I3) as [st4|] eqn:E3; [|discriminate].
  pose proof (fwd_inv_step A eps _ _ I3 Heps J3 E3) as J4.
  cbn [idx_nat] in J4. destruct J4 as (Hr & Hu & Hs & Hd & HD).
  intros _. cbn [r_Ainv r_det].
  rewrite (unit_upper_det _ Hu), Rmult_1_r in HD.
  assert (Edet : (g_det st4 * lit (g_sign st4) 0)%real = laplace_det A).
  { rewrite <- HD. destruct Hs as [-> | ->]; cbn; unfold R_lit; cbn; ring. }
  assert (Hne : laplace_det A <> 0).
  { rewrite <- HD. apply Rmult_integral_contrapositive_currified; [|exact Hd].
    destruct Hs as [-> | ->]; cbn; lra. }
  assert (Hleft : mul (mtab (fun r c => get c (rgt (get r (back_substitute (g_aug st4)))))) A
                  = identity).
  { apply (identity_mul_from_rows A (back_substitute (g_aug st4))).
    - now apply all_rel_back.
    - now apply back_substitute_block. }
  split; [exact Hleft|]. split; [|split; [exact Edet | exact Hne]].
  now apply left_inverse_is_right.
Qed.

End ExactInverse.

Module ExactJacobi.
Import ExactR ExactGeometry ExactDet ExactInverse.
Local Open Scope R_scope.

(** The tangent of the rotation angle solves [t^2 + 2 tau t - 1 = 0]. *)
Lemma jacobi_tangent (tau : R) :
  let t := if R_leb 0 tau then 1 / (tau + sqrt (1 + tau * tau))
           else 1 / (tau - sqrt (1 + tau * tau)) in
  t * t + 2 * tau * t - 1 = 0.
Proof.
  assert (P : 0 < 1 + tau * tau) by nra.
  destruct (sqrt_pos_sq _ P) as [Pr Er].
  set (r := sqrt (1 + tau * tau)) in *.
  cbv zeta. unfold R_leb.
  destruct (Rle_dec 0 tau) as [L|L].
  - assert (N : tau + r <> 0) by lra.
    field_simplify_eq; [nra|exact N].
  - assert (N : tau - r <> 0) by lra.
    field_simplify_eq; [nra|exact N].
Qed.

Lemma jacobi_cosine (t : R) :
  let c := 1 / sqrt (1 + t * t) in c * c * (1 + t * t) = 1.
Proof.
  assert (P : 0 < 1 + t * t) by nra.
  destruct (sqrt_pos_sq _ P) as [Pr Er].
  cbv zeta. set (r := sqrt (1 + t * t)) in *.
  rewrite Er at 1. field. lra.
Qed.

Lemma jacobi_tangent_code (tau : R) :
  let t := (if lit 0 0 <=? tau
            then lit 1 0 / (tau + rsqrt (lit 1 0 + tau * tau))
            else lit 1 0 / (tau - rsqrt (lit 1 0 + tau * tau)))%real in
  t * t + 2 * tau * t - 1 = 0.
Proof. exact (jacobi_tangent tau). Qed.

Lemma jacobi_cosine_code (t : R) :
  let c := (lit 1 0 / rsqrt (lit 1 0 + t * t))%real in
  c * c * (1 + t * t) = 1.
Proof. exact (jacobi_cosine t). Qed.

Lemma R_lit_2 : @lit R exactR 2 0 = 2.
Proof. reflexivity. Qed.

Lemma jacobi_rotate_givens (A Q : mat4 R) (p q : idx) :
  symmetric A -> idx_eqb p q = false ->
  exists c s, c * c + s * s = 1 /\
    snd (jacobi_rotate A Q p q) = mul Q (givens p q c s) /\
    fst (jacobi_rotate A Q p q)
    = mul (mul (transpose (givens p q c s)) A) (givens p q c s).
Proof.
  intros S Hpq.
  pose proof (S I0 I1) as S01. pose proof (S I0 I2) as S02.
  pose proof (S I0 I3) as S03. pose proof (S I1 I2) as S12.
  pose proof (S I1 I3) as S13. pose proof (S I2 I3) as S23.
  unfold jacobi_rotate. rewrite Hpq.
  destruct (mget A p q =? lit 0 0)%real eqn:Ez.
  - exists 1, 0. split; [ring|]. cbn [fst snd].
    destruct A as [[a00 a01 a02 a03] [a10 a11 a12 a13]
                   [a20 a21 a22 a23] [a30 a31 a32 a33]].
    destruct Q as [[q00 q01 q02 q03] [q10 q11 q12 q13]
                   [q20 q21 q22 q23] [q30 q31 q32 q33]].
    cbn in S01, S02, S03, S12, S13, S23. subst.
    split; apply mat_ext; intros r c;
      destruct p, q; try discriminate Hpq; destruct r, c; cbn; ring.
  - cbn [reqb exactR] in Ez. apply R_eqb_false in Ez. rewrite R_lit_0 in Ez.
    cbv zeta.
    set (tau := ((mget A q q - mget A p p) / (lit 2 0 * mget A p q))%real).
    pose proof (jacobi_tangent_code tau) as Ht. cbv zeta in Ht.
    set (t := (if lit 0 0 <=? tau then _ else _)%real) in *.
    pose proof (jacobi_cosine_code t) as Hc. cbv zeta in Hc.
    set (c := (lit 1 0 / rsqrt (lit 1 0 + t * t))%real) in *.
    assert (Ht' : mget A p q * (t * t - 1) + t * (mget A q q - mget A p p) = 0).
    { assert (E : mget A q q - mget A p p = 2 * tau * mget A p q).
      { unfold tau. rewrite R_lit_2. cbn [rsub rdiv rmul exactR]. field. exact Ez. }
      rewrite E. 
      replace (mget A p q * (t * t - 1) + t * (2 * tau * mget A p q))
        with (mget A p q * (t * t + 2 * tau * t - 1)) by ring.
      rewrite Ht. ring. }
    clearbody c t. clear Ht tau Ez.
    exists c, (t * c). split; [rewrite <- Hc; ring|]. cbn [fst snd].
    destruct A as [[a00 a01 a02 a03] [a10 a11 a12 a13]
                   [a20 a21 a22 a23] [a30 a31 a32 a33]].
    destruct Q as [[q00 q01 q02 q03] [q10 q11 q12 q13]
                   [q20 q21 q22 q23] [q30 q31 q32 q33]].
    cbn in S01, S02, S03, S12, S13, S23. subst. clear S.
    split; apply mat_ext; intros r c'.
    + destruct p, q; try discriminate Hpq; destruct r, c'; cbn; ring.
    + destruct p, q; try discriminate Hpq; cbn in Ht';
        destruct r, c'; cbn; try ring; nsatz.
Qed.

Lemma laplace_det_mul (X Y : mat4 R) :
  laplace_det (mul X Y) = laplace_det X * laplace_det Y.
Proof.
  destruct X as [[x00 x01 x02 x03] [x10 x11 x12 x13]
                 [x20 x21 x22 x23] [x30 x31 x32 x33]].
  destruct Y as [[y00 y01 y02 y03] [y10 y11 y12 y13]
                 [y20 y21 y22 y23] [y30 y31 y32 y33]].
  unfold laplace_det, det3, det2. cbn. ring.
Qed.

Lemma laplace_det_transpose (X : mat4 R) :
  laplace_det (transpose X) = laplace_det X.
Proof.
  destruct X as [[x00 x01 x02 x03] [x10 x11 x12 x13]
                 [x20 x21 x22 x23] [x30 x31 x32 x33]].
  unfold laplace_det, det3, det2. cbn. ring.
Qed.

Lemma laplace_det_identity : laplace_det identity = 1.
Proof. unfold laplace_det, det3, det2. cbn. unfold R_lit. cbn. ring. Qed.

Lemma mul_identity_r (X : mat4 R) : mul X identity = X.
Proof.
  apply mat_ext. intros r c. unfold mul, identity.
  rewrite mget_mtab. unfold sum_over, all_idx. cbn [fold_left].
  rewrite !mget_mtab.
  destruct c; cbn [idx_eqb idx_nat Nat.eqb radd rmul exactR];
    rewrite R_lit_0, R_lit_1; ring.
Qed.

Lemma mul_identity_l (X : mat4 R) : mul identity X = X.
Proof.
  apply mat_ext. intros r c. unfold mul, identity.
  rewrite mget_mtab. unfold sum_over, all_idx. cbn [fold_left].
  rewrite !mget_mtab.
  destruct r; cbn [idx_eqb idx_nat Nat.eqb radd rmul exactR];
    rewrite R_lit_0, R_lit_1; ring.
Qed.

Lemma transpose_identity : transpose (identity : mat4 R) = identity.
Proof. apply mat_ext. intros r c. destruct r, c; reflexivity. Qed.

Lemma mul_transpose_exact (X Y : mat4 R) :
  transpose (mul X Y) = mul (transpose Y) (transpose X).
Proof. apply mul_transpose_comm. exact Rmult_comm. Qed.

Lemma givens_orthogonal (p q : idx) (c s : R) :
  idx_eqb p q = false -> c * c + s * s = 1 -> orthogonal (givens p q c s).
Proof.
  intros Hpq H. unfold orthogonal. apply mat_ext. intros i j.
  destruct p, q; try discriminate Hpq; destruct i, j; cbn;
    unfold R_lit; cbn; try ring; nsatz.
Qed.

(** An orthogonal matrix is invertible on both sides. *)
Lemma orthogonal_right (Q : mat4 R) : orthogonal Q -> mul Q (transpose Q) = identity.
Proof.
  intros H. apply left_inverse_is_right; [|exact H].
  intros Z. pose proof (f_equal laplace_det H) as D.
  rewrite laplace_det_mul, laplace_det_transpose, laplace_det_identity, Z in D.
  lra.
Qed.

Lemma jacobi_inv_init (A0 : mat4 R) : symmetric A0 -> jacobi_inv A0 A0 identity.
Proof.
  intros S. split; [exact S|]. split.
  - unfold orthogonal. now rewrite transpose_identity, mul_identity_l.
  - now rewrite transpose_identity, mul_identity_l, mul_identity_r.
Qed.

Lemma jacobi_inv_rotate (A0 A Q : mat4 R) (p q : idx) :
  idx_eqb p q = false ->
  jacobi_inv A0 A Q ->
  jacobi_inv A0 (fst (jacobi_rotate A Q p q)) (snd (jacobi_rotate A Q p q)).
Proof.
  intros Hpq (S & O & E).
  destruct (jacobi_rotate_givens A Q p q S Hpq) as (c & s & Hcs & EQ & EA).
  pose proof (givens_orthogonal p q c s Hpq Hcs) as OG.
  split; [now apply jacobi_rotate_symmetric|]. split.
  - rewrite EQ. unfold orthogonal in *.
    rewrite mul_transpose_exact, mul_assoc_exact.
    rewrite <- (mul_assoc_exact (transpose Q)), O, mul_identity_l. exact OG.
  - rewrite EQ, EA, <- E.
    rewrite mul_transpose_exact, !mul_assoc_exact. reflexivity.
Qed.

Lemma jacobi_inv_sweeps (A0 : mat4 R) (n : nat) (tol : R) (A Q : mat4 R) :
  jacobi_inv A0 A Q ->
  jacobi_inv A0 (fst (jacobi_sweeps n tol A Q)) (snd (jacobi_sweeps n tol A Q)).
Proof.
  revert A Q. induction n as [|n IH]; intros A Q H; cbn [jacobi_sweeps fst snd];
    [exact H|].
  pose proof (max_offdiag_abs_spec A) as Hm.
  destruct (max_offdiag_abs A) as [[p q] off].
  destruct Hm as [Hpq _].
  destruct (off <? tol)%real; [exact H|].
  assert (Hne : idx_eqb p q = false) by (destruct p, q; try reflexivity; discriminate).
  pose proof (jacobi_inv_rotate A0 A Q p q Hne H) as H'.
  destruct (jacobi_rotate A Q p q) as [A' Q']. cbn [fst snd] in H'.
  now apply IH.
Qed.

Lemma jacobi_rotate_trace (A Q : mat4 R) (p q : idx) :
  trace (fst (jacobi_rotate A Q p q)) = trace A.
Proof.
  unfold jacobi_rotate.
  destruct (idx_eqb p q) eqn:Hpq; [reflexivity|].
  destruct (mget A p q =? lit 0 0)%real; [reflexivity|].
  cbv zeta. cbn [fst].
  match goal with
  | |- context [if (lit 0 0 <=? ?tau)%real then ?x else ?y] =>
      generalize (if (lit 0 0 <=? tau)%real then x else y)
  end.
  intros t. generalize (lit 1 0 / rsqrt (lit 1 0 + t * t))%real. intros c.
  destruct A as [[a00 a01 a02 a03] [a10 a11 a12 a13]
                 [a20 a21 a22 a23] [a30 a31 a32 a33]].
  destruct p, q; try discriminate Hpq; unfold trace; cbn; ring.
Qed.

Lemma jacobi_sweeps_trace (n : nat) (tol : R) (A Q : mat4 R) :
  trace (fst (jacobi_sweeps n tol A Q)) = trace A.
Proof.
  revert A Q. induction n as [|n IH]; intros A Q; cbn [jacobi_sweeps fst];
    [reflexivity|].
  destruct (max_offdiag_abs A) as [[p q] off].
  destruct (off <? tol)%real; [reflexivity|].
  pose proof (jacobi_rotate_trace A Q p q) as T.
  destruct (jacobi_rotate A Q p q) as [A' Q']. cbn [fst] in T.
  now rewrite IH.
Qed.

(** The eigen-solver in exact arithmetic: [Q] is orthogonal, each returned
    value is the Rayleigh quotient of the corresponding column of [Q], and
    the returned values add up to the trace. *)
Lemma jacobi_symmetric_exact (A0 : mat4 R) (n : nat) (tol : R) :
  symmetric A0 ->
  let Q := fst (jacobi_symmetric_4x4 A0 n tol) in
  let lam := snd (jacobi_symmetric_4x4 A0 n tol) in
  mul (transpose Q) Q = identity /\
  mul Q (transpose Q) = identity /\
  (forall i, get i lam = mget (mul (mul (transpose Q) A0) Q) i i) /\
  get I0 lam + get I1 lam + get I2 lam + get I3 lam = trace A0.
Proof.
  intros S. unfold jacobi_symmetric_4x4.
  pose proof (jacobi_inv_sweeps A0 n tol A0 identity (jacobi_inv_init A0 S))
    as (SA & O & E).
  pose proof (jacobi_sweeps_trace n tol A0 identity) as T.
  destruct (jacobi_sweeps n tol A0 identity) as [A Q]. cbn [fst snd] in *.
  split; [exact O|]. split; [now apply orthogonal_right|]. split.
  - intros i. rewrite get_tab, E. reflexivity.
  - rewrite !get_tab. exact T.
Qed.

End ExactJacobi.

Module Binary64Order.
Import Inputs Binary64 Binary64Geometry.
Local Open Scope float_scope.

Lemma SFltb_rank (x y : spec_float) :
  x <> S754_nan -> y <> S754_nan ->
  (SFltb x y = true <-> lex_lt (rank x) (rank y)).
Proof.
  intros Hx Hy. unfold SFltb, SFcompare.
  destruct x as [sx|sx| |sx mx ex], y as [sy|sy| |sy my ey];
    try congruence; clear Hx Hy;
    try (destruct sx; cbn; intuition (try discriminate; try lia); fail);
    try (destruct sy; cbn; intuition (try discriminate; try lia); fail);
    try (destruct sx, sy; cbn; intuition (try discriminate; try lia); fail).
  destruct sx, sy; cbn [rank lex_lt].
  - destruct (Z.compare_spec ex ey) as [E|L|G].
    + subst. rewrite Pos.compare_cont_spec. cbn [Pos.switch_Eq].
      destruct (Pos.compare_spec mx my) as [E'|L'|G']; cbn;
        intuition (try discriminate; try lia).
    + intuition (try discriminate; try lia).
    + intuition (try discriminate; try lia).
  - intuition (try discriminate; try lia).
  - intuition (try discriminate; try lia).
  - destruct (Z.compare_spec ex ey) as [E|L|G].
    + subst. rewrite Pos.compare_cont_spec. cbn [Pos.switch_Eq].
      destruct (Pos.compare_spec mx my) as [E'|L'|G']; cbn;
        intuition (try discriminate; try lia).
    + intuition (try discriminate; try lia).
    + intuition (try discriminate; try lia).
Qed.

Lemma ltb_rank (x y : float) :
  not_nan x -> not_nan y ->
  ((x <? y) = true <-> lex_lt (rank (Prim2SF x)) (rank (Prim2SF y))).
Proof. intros Hx Hy. rewrite ltb_spec. now apply SFltb_rank. Qed.

Lemma ltb_true_not_nan (x y : float) : (x <? y) = true -> not_nan x /\ not_nan y.
Proof.
  rewrite ltb_spec. unfold not_nan, SFltb, SFcompare.
  destruct (Prim2SF x), (Prim2SF y); intros H; try discriminate H;
    split; discriminate.
Qed.

Lemma ltb_nan_r (x y : float) : ~ not_nan y -> (x <? y) = false.
Proof.
  intros H. destruct (x <? y) eqn:E; [|reflexivity].
  apply ltb_true_not_nan in E. tauto.
Qed.

Lemma not_nan_dec (x : float) : not_nan x \/ ~ not_nan x.
Proof.
  unfold not_nan. destruct (Prim2SF x); (left; discriminate) || (right; tauto).
Qed.

Lemma ltb_irrefl (x : float) : (x <? x) = false.
Proof.
  destruct (x <? x) eqn:E; [|reflexivity].
  destruct (ltb_true_not_nan _ _ E) as [Hx _].
  apply (ltb_rank x x Hx Hx) in E.
  destruct (rank (Prim2SF x)) as [[a b] c]. cbn in E. lia.
Qed.

(** Replacing a running maximum by a larger value keeps it above
    everything it was above. *)
Lemma ltb_max_step (a a' v : float) :
  (a <? v) = false -> (a <? a') = true -> (a' <? v) = false.
Proof.
  intros Hav Haa.
  destruct (ltb_true_not_nan _ _ Haa) as [Ha Ha'].
  destruct (not_nan_dec v) as [Hv|Hv]; [|now apply ltb_nan_r].
  destruct (a' <? v) eqn:E; [|reflexivity].
  apply (ltb_rank a a' Ha Ha') in Haa.
  apply (ltb_rank a' v Ha' Hv) in E.
  assert (C : (a <? v) = true).
  { apply (ltb_rank a v Ha Hv).
    destruct (rank (Prim2SF a)) as [[a1 a2] a3].
    destruct (rank (Prim2SF a')) as [[b1 b2] b3].
    destruct (rank (Prim2SF v)) as [[c1 c2] c3].
    cbn in *. lia. }
  congruence.
Qed.

Section ArgMax.
Variable T : Type.
Variable val : T -> float.

Lemma argmax_keeps (xs : list T) (st : T * float) (v : float) :
  (snd st <? v) = false ->
  (snd (fold_left (argmax_step val) xs st) <? v) = false.
Proof.
  revert st. induction xs as [|x xs IH]; intros st H; cbn [fold_left];
    [exact H|].
  apply IH. unfold argmax_step. destruct (snd st <? val x) eqn:E; [|exact H].
  cbn [snd]. exact (ltb_max_step _ _ _ H E).
Qed.

Lemma argmax_covers (xs : list T) (st : T * float) (x : T) :
  In x xs -> (snd (fold_left (argmax_step val) xs st) <? val x) = false.
Proof.
  revert st. induction xs as [|y xs IH]; intros st H; [contradiction|].
  cbn [fold_left]. destruct H as [-> | H]; [|now apply IH].
  apply argmax_keeps. unfold argmax_step.
  destruct (snd st <? val x) eqn:E; [cbn [snd]; apply ltb_irrefl | exact E].
Qed.

End ArgMax.

(** Partial pivoting: no entry of the column, from the diagonal down, is
    larger in magnitude than the pivot chosen. *)
Lemma pivot_search_max (col : idx -> float) (k r : idx) :
  idx_leb k r = true ->
  (snd (pivot_search col k) <? PrimFloat.abs (col r)) = false.
Proof.
  intros H. unfold pivot_search.
  change (fold_left _ (after k) (k, rabs (col k)))
    with (fold_left (argmax_step (fun x => PrimFloat.abs (col x)))
                    (after k) (k, PrimFloat.abs (col k))).
  destruct (idx_eqb k r) eqn:E.
  - apply idx_eqb_eq in E. subst r.
    apply argmax_keeps. apply ltb_irrefl.
  - apply (argmax_covers _ (fun x => PrimFloat.abs (col x))).
    destruct k, r; cbn in *; try discriminate; auto.
Qed.

Lemma max_offdiag_abs_fold (A : mat4 float) :
  max_offdiag_abs A
  = fold_left (argmax_step (fun ij => PrimFloat.abs (mget A (fst ij) (snd ij))))
              offdiag_pairs (I0, I1, PrimFloat.abs (mget A I0 I1)).
Proof. reflexivity. Qed.

(** No entry above the diagonal is larger in magnitude than the one that
    [max_offdiag_abs] returns. *)
Lemma max_offdiag_abs_max (A : mat4 float) (i j : idx) :
  idx_ltb i j = true ->
  (snd (max_offdiag_abs A) <? PrimFloat.abs (mget A i j)) = false.
Proof.
  intros H. rewrite max_offdiag_abs_fold.
  apply (argmax_covers _ (fun ij => PrimFloat.abs (mget A (fst ij) (snd ij)))
                       offdiag_pairs _ (i, j)).
  destruct i, j; cbn in *; try discriminate; auto 10.
Qed.

Lemma ltb_trans (x y z : float) :
  (x <? y) = true -> (y <? z) = true -> (x <? z) = true.
Proof.
  intros Hxy Hyz.
  destruct (ltb_true_not_nan _ _ Hxy) as [Hx Hy].
  destruct (ltb_true_not_nan _ _ Hyz) as [_ Hz].
  apply (ltb_rank x y Hx Hy) in Hxy. apply (ltb_rank y z Hy Hz) in Hyz.
  apply (ltb_rank x z Hx Hz).
  destruct (rank (Prim2SF x)) as [[a1 a2] a3].
  destruct (rank (Prim2SF y)) as [[b1 b2] b3].
  destruct (rank (Prim2SF z)) as [[c1 c2] c3].
  cbn in *. lia.
Qed.

Lemma ltb_asym (x y : float) : (x <? y) = true -> (y <? x) = false.
Proof.
  intros H. destruct (y <? x) eqn:E; [|reflexivity].
  pose proof (ltb_trans _ _ _ H E) as C. rewrite ltb_irrefl in C. discriminate.
Qed.

(** *** The eigen-solver on a matrix without off-diagonal part *)

Lemma abs_fzero (z : float) : fzero z -> PrimFloat.abs z = 0.
Proof. intros [-> | ->]; reflexivity. Qed.

Lemma max_offdiag_abs_diagonal (D : mat4 float) :
  (forall i j, idx_ltb i j = true -> fzero (mget D i j)) ->
  max_offdiag_abs D = (I0, I1, 0).
Proof.
  intros H. rewrite max_offdiag_abs_fold.
  unfold offdiag_pairs, all_idx, after.
  cbn [flat_map map filter idx_ltb idx_nat Nat.ltb Nat.leb app all_idx fold_left].
  unfold argmax_step. cbn [fst snd].
  rewrite (abs_fzero _ (H I0 I1 eq_refl)), (abs_fzero _ (H I0 I2 eq_refl)),
          (abs_fzero _ (H I0 I3 eq_refl)), (abs_fzero _ (H I1 I2 eq_refl)),
          (abs_fzero _ (H I1 I3 eq_refl)), (abs_fzero _ (H I2 I3 eq_refl)).
  reflexivity.
Qed.

Lemma jacobi_diagonal (D : mat4 float) (n : nat) (tol : float) :
  (forall i j, idx_ltb i j = true -> fzero (mget D i j)) ->
  (0 <? tol) = true ->
  jacobi_symmetric_4x4 D n tol = (identity, tab (fun i => mget D i i)).
Proof.
  intros H Ht. unfold jacobi_symmetric_4x4.
  assert (E : jacobi_sweeps n tol D identity = (D, identity)).
  { destruct n as [|n]; [reflexivity|]. cbn [jacobi_sweeps].
    rewrite (max_offdiag_abs_diagonal D H).
    change (0 <? tol)%real with (0 <? tol). now rewrite Ht. }
  now rewrite E.
Qed.

Lemma from_diag_offdiag (a0 a1 a2 a3 : float) (i j : idx) :
  idx_ltb i j = true -> fzero (mget (from_diag a0 a1 a2 a3) i j).
Proof. intros H. destruct i, j; try discriminate H; now left. Qed.

(** On a diagonal matrix the inertia is read off the diagonal. *)
Lemma validate_signature_diagonal (a0 a1 a2 a3 eps : float) :
  let l := [a0; a1; a2; a3] in
  validate_signature (from_diag a0 a1 a2 a3) eps
  = (Z.of_nat (length (filter (fun a => a <? - eps) l)),
     Z.of_nat (length (filter (fun a => negb (a <? - eps) && (eps <? a)) l)),
     Z.of_nat (length (filter (fun a => negb (a <? - eps) && negb (eps <? a)) l))).
Proof.
  cbv zeta. unfold validate_signature.
  assert (Ht : (0 <? @lit float binary64 1 (-14)) = true)
    by (vm_compute; reflexivity).
  rewrite (jacobi_diagonal _ 64 (@lit float binary64 1 (-14))
             (from_diag_offdiag a0 a1 a2 a3) Ht).
  unfold all_idx. cbn [fold_left get tab e0 e1 e2 e3 mget from_diag mset upd
                       mat4_zero mtab filter].
  change (fun a : float => (a <? - eps)%real) with (fun a : float => a <? - eps).
  cbn [rltb ropp binary64].
  destruct (a0 <? - eps), (a1 <? - eps), (a2 <? - eps), (a3 <? - eps),
           (eps <? a0), (eps <? a1), (eps <? a2), (eps <? a3); reflexivity.
Qed.

Lemma above_not_below (e a : float) :
  (- e <? e) = true -> (e <? a) = true -> (a <? - e) = false.
Proof.
  intros L H. destruct (a <? - e) eqn:E; [|reflexivity].
  pose proof (ltb_trans _ _ _ E L) as C.
  now rewrite (ltb_asym _ _ H) in C.
Qed.

Lemma above_eps_not_below (a : float) :
  (@validate_default_eps float binary64 <? a) = true ->
  (a <? - @validate_default_eps float binary64) = false.
Proof. apply above_not_below. vm_compute. reflexivity. Qed.

(** A diagonal matrix with one entry below [-1e-10] and three above
    [1e-10] has the inertia [(1, 3, 0)]. *)
Lemma validate_signature_lorentzian (a0 a1 a2 a3 : float) :
  (a0 <? - @validate_default_eps float binary64) = true ->
  (@validate_default_eps float binary64 <? a1) = true ->
  (@validate_default_eps float binary64 <? a2) = true ->
  (@validate_default_eps float binary64 <? a3) = true ->
  validate_signature (from_diag a0 a1 a2 a3) validate_default_eps = (1, 3, 0)%Z.
Proof.
  intros H0 H1 H2 H3. rewrite validate_signature_diagonal. cbn [filter].
  rewrite H0, H1, H2, H3,
    (above_eps_not_below a1 H1), (above_eps_not_below a2 H2),
    (above_eps_not_below a3 H3).
  reflexivity.
Qed.

(** *** The zero potential *)

Lemma float_add_neg_zero (x : float) : x + -0 = x.
Proof.
  apply Prim2SF_inj. rewrite add_spec.
  change (Prim2SF (-0)) with (S754_zero true).
  unfold SF64add, SFadd.
  destruct (Prim2SF x) as [s|s| |s m e]; try reflexivity.
  destruct s; reflexivity.
Qed.

Lemma zero_add_fzero (z : float) : fzero z -> 0 + z = 0.
Proof. intros [-> | ->]; reflexivity. Qed.

Lemma accel_zero_potential (K : Constants float) (M : MetricPack float)
      (G : Gamma float) (u x : vec4 float) :
  PrimFloat.is_finite (lit 5 (-1) / fd_h K)%real = true ->
  (forall mu nu, PrimFloat.is_finite (mget (g_inv M) mu nu) = true) ->
  accel K M G u (Some ZeroPotential) x = accel K M G u None x.
Proof.
  intros Hs Hg. unfold accel. apply V4_ext. intros mu. rewrite !get_tab.
  set (a := (- fold_left _ all_idx (lit 0 0))%real).
  assert (Hz : fzero ((0 - 0) * (lit 5 (-1) / fd_h K)%real)).
  { change (0 - 0) with 0. rewrite float_mul_comm.
    apply float_mul_finite_zero; [exact Hs | now left]. }
  assert (Hgv : forall nu, get nu (gradV ZeroPotential x (fd_h K))
                           = (0 - 0) * (lit 5 (-1) / fd_h K)%real).
  { intros nu. unfold gradV. rewrite get_tab. reflexivity. }
  unfold sum_over, all_idx. cbn [fold_left]. rewrite !Hgv.
  assert (Hp : forall nu, fzero (mget (g_inv M) mu nu
                                 * ((0 - 0) * (lit 5 (-1) / fd_h K)%real))).
  { intros nu. apply float_mul_finite_zero; [apply Hg | exact Hz]. }
  cbn [radd rmul ropp binary64].
  change (lit 0 0) with 0.
  rewrite (zero_add_fzero _ (Hp I0)), (zero_add_fzero _ (Hp I1)),
          (zero_add_fzero _ (Hp I2)), (zero_add_fzero _ (Hp I3)).
  apply float_add_neg_zero.
Qed.

End Binary64Order.

Module ExactFlat.
Import ExactR ExactGeometry ExactCholesky ExactDet ExactInverse ExactJacobi.
Local Open Scope R_scope.

Lemma R_ltb_lt (x y : R) : x < y -> R_ltb x y = true.
Proof. intros H. unfold R_ltb. destruct (Rlt_dec x y); [reflexivity | lra]. Qed.

Lemma R_ltb_ge (x y : R) : y <= x -> R_ltb x y = false.
Proof. intros H. unfold R_ltb. destruct (Rlt_dec x y); [lra | reflexivity]. Qed.

Lemma R_leb_le (x y : R) : x <= y -> R_leb x y = true.
Proof. intros H. unfold R_leb. destruct (Rle_dec x y); [reflexivity | lra]. Qed.

Lemma R_leb_gt (x y : R) : y < x -> R_leb x y = false.
Proof. intros H. unfold R_leb. destruct (Rle_dec x y); [lra | reflexivity]. Qed.

Lemma max_offdiag_abs_diagonal_exact (D : mat4 R) :
  (forall i j, idx_ltb i j = true -> mget D i j = 0) ->
  max_offdiag_abs D = (I0, I1, 0).
Proof.
  intros H.
  pose proof (H I0 I1 eq_refl) as Z01. pose proof (H I0 I2 eq_refl) as Z02.
  pose proof (H I0 I3 eq_refl) as Z03. pose proof (H I1 I2 eq_refl) as Z12.
  pose proof (H I1 I3 eq_refl) as Z13. pose proof (H I2 I3 eq_refl) as Z23.
  unfold max_offdiag_abs, all_idx, after.
  cbn [filter idx_ltb idx_nat Nat.ltb Nat.leb all_idx fold_left].
  rewrite Z01, Z02, Z03, Z12, Z13, Z23.
  cbn [rabs rltb exactR snd]. rewrite Rabs_R0.
  repeat (cbn [snd]; rewrite (R_ltb_ge 0 0) by lra). reflexivity.
Qed.

Lemma jacobi_diagonal_exact (D : mat4 R) (n : nat) (tol : R) :
  (forall i j, idx_ltb i j = true -> mget D i j = 0) ->
  0 < tol ->
  jacobi_symmetric_4x4 D n tol = (identity, tab (fun i => mget D i i)).
Proof.
  intros H Ht. unfold jacobi_symmetric_4x4.
  assert (E : jacobi_sweeps n tol D identity = (D, identity)).
  { destruct n as [|n]; [reflexivity|]. cbn [jacobi_sweeps].
    rewrite (max_offdiag_abs_diagonal_exact D H).
    cbn [rltb exactR]. now rewrite (R_ltb_lt 0 tol Ht). }
  now rewrite E.
Qed.

Lemma R_lit_tol12 : 0 < @lit R exactR 1 (-12).
Proof. change (@lit R exactR 1 (-12)) with (1 / 1000000000000). lra. Qed.

Lemma R_lit_tol14 : 0 < @lit R exactR 1 (-14).
Proof. change (@lit R exactR 1 (-14)) with (1 / 100000000000000). lra. Qed.

Lemma R_tiny_small : 0 < @lit_1e_30 R exactR_tiny < 1.
Proof.
  change (@lit_1e_30 R exactR_tiny) with (1 / 1000000000000000000000000000000).
  lra.
Qed.

Lemma eta_offdiag (i j : idx) :
  idx_ltb i j = true -> mget (minkowski_eta : sym4 R) i j = 0.
Proof. intros H. destruct i, j; try discriminate H; reflexivity. Qed.

Lemma eta_diag : tab (fun i => mget (minkowski_eta : sym4 R) i i) = mkV4 (-1) 1 1 1.
Proof. reflexivity. Qed.

Lemma timelike_unit_flat : timelike_unit (minkowski_eta : sym4 R) = mkV4 1 0 0 0.
Proof.
  unfold timelike_unit.
  rewrite (jacobi_diagonal_exact _ 32 _ eta_offdiag R_lit_tol12), eta_diag.
  unfold after, all_idx.
  cbn [filter idx_ltb idx_nat Nat.ltb Nat.leb fold_left].
  cbn [rltb exactR].
  repeat (cbn [get e0 e1 e2 e3]; rewrite (R_ltb_ge 1 (-1)) by lra).
  cbn [get e0 ropp rdiv rsqrt rmul exactR]. unfold rmax.
  cbn [rltb exactR].
  destruct R_tiny_small as [T0 T1].
  rewrite (R_ltb_lt lit_1e_30 (- -1)) by lra.
  replace (- -1) with 1 by ring. rewrite sqrt_1, R_lit_1.
  apply V4_ext. intros i. rewrite get_tab.
  destruct i; cbn; unfold R_lit; cbn; field.
Qed.

(** The report of [time_dilation] in flat spacetime: [gamma] is the time
    component of the velocity; for a normalised future-directed velocity
    the speed is below one and [gamma = 1 / sqrt (1 - v^2)]. *)
Lemma time_dilation_flat (u : vec4 R) :
  let r := time_dilation (minkowski_eta : sym4 R) u in
  td_gamma r = get I0 u /\
  td_q_u r = qform (minkowski_eta : sym4 R) u /\
  (qform (minkowski_eta : sym4 R) u = -1 -> 0 < get I0 u ->
   0 <= td_v_norm r < 1 /\
   td_gamma r * sqrt (1 - td_v_norm r * td_v_norm r) = 1).
Proof.
  cbv zeta. unfold time_dilation. cbv zeta. cbn [td_gamma td_q_u td_v_norm].
  rewrite timelike_unit_flat.
  destruct u as [u0 u1 u2 u3]. cbn [get e0].
  assert (G : (- fold_left
                  (fun s i =>
                     fold_left
                       (fun s0 j =>
                          s0 + get i (mkV4 u0 u1 u2 u3)
                               * mget (minkowski_eta : sym4 R) i j
                               * get j (mkV4 1 0 0 0))%real
                       all_idx s)
                  all_idx (lit 0 0))%real = u0).
  { cbn. unfold R_lit. cbn. ring. }
  rewrite G. split; [reflexivity|]. split; [reflexivity|].
  intros Q P.
  assert (Q' : u0 * u0 = 1 + (u1 * u1 + u2 * u2 + u3 * u3)).
  { revert Q. cbn. unfold R_lit. cbn. intros Q. lra. }
  set (s := u1 * u1 + u2 * u2 + u3 * u3) in *.
  assert (Hs : 0 <= s) by (subst s; nra).
  assert (W : qform (minkowski_eta : sym4 R)
                    (tab (fun i => (get i (mkV4 u0 u1 u2 u3)
                                    - u0 * get i (mkV4 1 0 0 0))%real)) = s).
  { subst s. cbn. unfold R_lit. cbn. ring. }
  rewrite W. unfold rmax. cbn [rltb rmul rdiv rsqrt exactR].
  destruct R_tiny_small as [T0 T1].
  rewrite (R_ltb_lt lit_1e_30 (u0 * u0)) by lra.
  assert (Hv : 0 <= s / (u0 * u0)).
  { apply Rmult_le_pos; [exact Hs|]. apply Rlt_le, Rinv_0_lt_compat. nra. }
  rewrite R_lit_0.
  assert (E : (if R_ltb 0 (s / (u0 * u0)) then s / (u0 * u0) else 0) = s / (u0 * u0)).
  { unfold R_ltb. destruct (Rlt_dec 0 (s / (u0 * u0))); lra. }
  rewrite E.
  assert (V2 : sqrt (s / (u0 * u0)) * sqrt (s / (u0 * u0)) = s / (u0 * u0))
    by (apply sqrt_sqrt; exact Hv).
  assert (L1 : s / (u0 * u0) < 1).
  { apply (Rmult_lt_reg_r (u0 * u0)); [nra|]. field_simplify; nra. }
  split.
  - split; [apply sqrt_pos|].
    rewrite <- sqrt_1. apply sqrt_lt_1_alt. lra.
  - rewrite V2.
    replace (1 - s / (u0 * u0)) with ((1 / u0) * (1 / u0)) by (field_simplify_eq; nra).
    rewrite sqrt_square; [field; lra|].
    apply Rlt_le. apply Rdiv_lt_0_compat; lra.
Qed.

(** *** Diagonal Lorentzian metrics *)

Lemma from_diag_offdiag_exact (a0 a1 a2 a3 : R) (i j : idx) :
  idx_ltb i j = true -> mget (from_diag a0 a1 a2 a3) i j = 0.
Proof. intros H. destruct i, j; try discriminate H; reflexivity. Qed.

Lemma from_diag_diag (a0 a1 a2 a3 : R) :
  tab (fun i => mget (from_diag a0 a1 a2 a3) i i) = mkV4 a0 a1 a2 a3.
Proof. reflexivity. Qed.

Lemma choose_negative_lorentzian (a0 a1 a2 a3 : R) :
  a0 < 0 -> 0 < a1 -> 0 < a2 -> 0 < a3 ->
  choose_negative (mkV4 a0 a1 a2 a3) = Some I0.
Proof.
  intros H0 H1 H2 H3. unfold choose_negative, all_idx.
  cbn [fold_left get e0 e1 e2 e3 rltb exactR]. rewrite R_lit_0.
  rewrite (R_ltb_lt a0 0 H0). cbn [fst snd].
  rewrite (R_ltb_ge a1 0), (R_ltb_ge a2 0), (R_ltb_ge a3 0) by lra.
  reflexivity.
Qed.

Lemma rmax_left (x y : R) : y <= x -> rmax x y = x.
Proof. intros H. unfold rmax. cbn [rltb exactR]. now rewrite R_ltb_ge. Qed.

(** [project_signature] leaves a diagonal Lorentzian matrix as it is when
    its entries are beyond the floor. *)
Lemma project_signature_diagonal (a0 a1 a2 a3 eps : R) :
  a0 < 0 -> 0 < a1 -> 0 < a2 -> 0 < a3 ->
  eps <= - a0 -> eps <= a1 -> eps <= a2 -> eps <= a3 ->
  project_signature (from_diag a0 a1 a2 a3) eps = from_diag a0 a1 a2 a3.
Proof.
  intros H0 H1 H2 H3 B0 B1 B2 B3.
  unfold project_signature.
  rewrite (jacobi_diagonal_exact _ 64 _ (from_diag_offdiag_exact a0 a1 a2 a3)
             R_lit_tol14), from_diag_diag.
  unfold repaired_spectrum.
  rewrite (choose_negative_lorentzian a0 a1 a2 a3 H0 H1 H2 H3).
  cbn [get e0 e1 e2 e3 rabs exactR].
  apply mat_ext. intros r c. unfold sym4_of. rewrite mget_mtab.
  unfold mul, transpose.
  repeat progress (unfold sum_over, all_idx; cbn [fold_left];
                   rewrite ?mget_mtab, ?get_tab).
  cbn [get e0 e1 e2 e3].
  rewrite (Rabs_left a0 H0), (Rabs_pos_eq a1), (Rabs_pos_eq a2), (Rabs_pos_eq a3)
    by lra.
  rewrite (rmax_left (- a0) eps B0), (rmax_left a1 eps B1),
          (rmax_left a2 eps B2), (rmax_left a3 eps B3).
  rewrite R_lit_half.
  destruct r, c; cbn; unfold R_lit; cbn; field.
Qed.

Lemma first_negative_lorentzian (a0 a1 a2 a3 : R) :
  a0 < 0 -> first_negative (mkV4 a0 a1 a2 a3) = I0.
Proof.
  intros H0. unfold first_negative, all_idx. cbn [find get e0 rltb exactR].
  rewrite R_lit_0. now rewrite (R_ltb_lt a0 0 H0).
Qed.

Lemma rmax_ge_r (x y : R) : y <= rmax x y.
Proof.
  unfold rmax. cbn [rltb exactR]. unfold R_ltb. destruct (Rlt_dec x y); lra.
Qed.

Lemma rmax_ge_l (x y : R) : x <= rmax x y.
Proof.
  unfold rmax. cbn [rltb exactR]. unfold R_ltb. destruct (Rlt_dec x y); lra.
Qed.

Lemma inv_sqrt_sq (x : R) : 0 < x -> (1 / sqrt x) * (1 / sqrt x) * x = 1.
Proof.
  intros H. destruct (sqrt_pos_sq x H) as [P E].
  set (r := sqrt x) in *.
  transitivity (1 / r * (1 / r) * (r * r)); [now rewrite <- E | field; lra].
Qed.

(** On a diagonal Lorentzian metric whose entries are beyond the floor,
    [build_tetrad] returns the exact tetrad: the error is zero. *)
Lemma build_tetrad_diagonal (a0 a1 a2 a3 eps : R) :
  a0 < 0 -> 0 < a1 -> 0 < a2 -> 0 < a3 ->
  rmax (lit 1 (-12)) eps <= - a0 -> rmax (lit 1 (-12)) eps <= a1 ->
  rmax (lit 1 (-12)) eps <= a2 -> rmax (lit 1 (-12)) eps <= a3 ->
  let r := build_tetrad (from_diag a0 a1 a2 a3) eps in
  t_fro r = 0 /\
  t_E r = from_diag (1 / sqrt (- a0)) (1 / sqrt a1) (1 / sqrt a2) (1 / sqrt a3) /\
  mul (mul (transpose (t_E r)) (from_diag a0 a1 a2 a3)) (t_E r) = minkowski_eta /\
  t_gtilde r = from_diag (1 / - a0) (1 / a1) (1 / a2) (1 / a3).
Proof.
  intros H0 H1 H2 H3 B0 B1 B2 B3.
  pose proof (rmax_ge_r (lit 1 (-12)) eps) as Be.
  cbv zeta. unfold build_tetrad.
  rewrite (project_signature_diagonal a0 a1 a2 a3 _ H0 H1 H2 H3 B0 B1 B2 B3).
  rewrite (jacobi_diagonal_exact _ 64 _ (from_diag_offdiag_exact a0 a1 a2 a3)
             R_lit_tol14), from_diag_diag.
  rewrite (first_negative_lorentzian a0 a1 a2 a3 H0).
  cbn [idx_eqb idx_nat Nat.eqb t_fro t_E t_gtilde].
  set (E := mul identity _).
  assert (EE : E = from_diag (1 / sqrt (- a0)) (1 / sqrt a1) (1 / sqrt a2) (1 / sqrt a3)).
  { subst E. apply mat_ext. intros r c. unfold mul. rewrite mget_mtab.
    unfold sum_over, all_idx. cbn [fold_left]. rewrite !mget_mtab.
    cbn [get e0 e1 e2 e3 rabs exactR].
    rewrite (Rabs_left a0 H0), (Rabs_pos_eq a1), (Rabs_pos_eq a2), (Rabs_pos_eq a3)
      by lra.
    rewrite (rmax_left (- a0) eps), (rmax_left a1 eps),
            (rmax_left a2 eps), (rmax_left a3 eps) by lra.
    destruct r, c; cbn; unfold R_lit; cbn; field;
      apply Rgt_not_eq, sqrt_lt_R0; lra. }
  rewrite EE. clear EE E.
  pose proof (inv_sqrt_sq (- a0) ltac:(lra)) as S0.
  pose proof (inv_sqrt_sq a1 H1) as S1.
  pose proof (inv_sqrt_sq a2 H2) as S2.
  pose proof (inv_sqrt_sq a3 H3) as S3.
  set (s0 := 1 / sqrt (- a0)) in *. set (s1 := 1 / sqrt a1) in *.
  set (s2 := 1 / sqrt a2) in *. set (s3 := 1 / sqrt a3) in *.
  assert (M : mul (mul (transpose (from_diag s0 s1 s2 s3)) (from_diag a0 a1 a2 a3))
                  (from_diag s0 s1 s2 s3) = minkowski_eta).
  { apply mat_ext. intros r c. destruct r, c; cbn; unfold R_lit; cbn; nra. }
  split; [|split; [reflexivity|split; [exact M|]]].
  - rewrite M.
    assert (Z : sum_squares (mtab (fun i j => (mget (minkowski_eta : sym4 R) i j
                                                - eta_entry i j)%real)) = 0).
    { cbn. unfold R_lit. cbn. ring. }
    rewrite Z. cbn [rsqrt exactR]. apply sqrt_0.
  - apply mat_ext. intros r c. destruct r, c; cbn; unfold R_lit; cbn; try ring.
    + replace (0 + s0 * s0 + 0 * 0 + 0 * 0 + 0 * 0) with (s0 * s0) by ring.
      apply (Rmult_eq_reg_r (- a0)); [|lra]. rewrite S0. field. lra.
    + replace (0 + 0 * 0 + s1 * s1 + 0 * 0 + 0 * 0) with (s1 * s1) by ring.
      apply (Rmult_eq_reg_r a1); [|lra]. rewrite S1. field. lra.
    + replace (0 + 0 * 0 + 0 * 0 + s2 * s2 + 0 * 0) with (s2 * s2) by ring.
      apply (Rmult_eq_reg_r a2); [|lra]. rewrite S2. field. lra.
    + replace (0 + 0 * 0 + 0 * 0 + 0 * 0 + s3 * s3) with (s3 * s3) by ring.
      apply (Rmult_eq_reg_r a3); [|lra]. rewrite S3. field. lra.
Qed.

End ExactFlat.

Section RotateGeneric.
Context {real : Type} {RR : Real real}.
Local Open Scope real_scope.

Lemma jacobi_rotate_annihilates (A Q : mat4 real) (p q : idx) :
  idx_eqb p q = false -> (mget A p q =? lit 0 0) = false ->
  mget (fst (jacobi_rotate A Q p q)) p q = lit 0 0 /\
  mget (fst (jacobi_rotate A Q p q)) q p = lit 0 0.
Proof.
  intros Hpq Hz. unfold jacobi_rotate. rewrite Hpq, Hz. cbv zeta. cbn [fst].
  match goal with
  | |- context [if (lit 0 0 <=? ?tau) then ?x else ?y] =>
      generalize (if (lit 0 0 <=? tau) then x else y)
  end.
  intros t. generalize (lit 1 0 / rsqrt (lit 1 0 + t * t)). intros c.
  generalize (t * c). intros s.
  destruct A as [[a00 a01 a02 a03] [a10 a11 a12 a13]
                 [a20 a21 a22 a23] [a30 a31 a32 a33]].
  destruct p, q; try discriminate Hpq; split; reflexivity.
Qed.

Lemma jacobi_rotate_noop (A Q : mat4 real) (p q : idx) :
  idx_eqb p q = true \/ (mget A p q =? lit 0 0) = true ->
  jacobi_rotate A Q p q = (A, Q).
Proof.
  intros [H | H]; unfold jacobi_rotate; rewrite H; [reflexivity|].
  destruct (idx_eqb p q); reflexivity.
Qed.

End RotateGeneric.

Module ExactRepair.
Import ExactR ExactGeometry ExactFlat.
Local Open Scope R_scope.

(** The index that [project_signature] makes negative: a negative
    eigenvalue of largest magnitude when there is one, else an eigenvalue
    of smallest magnitude. *)
Lemma choose_negative_rule (lam : vec4 R) :
  exists j, choose_negative lam = Some j /\
    ((exists i, get i lam < 0) ->
     get j lam < 0 /\
     forall i, get i lam < 0 -> Rabs (get i lam) <= Rabs (get j lam)) /\
    ((forall i, 0 <= get i lam) ->
     forall i, Rabs (get j lam) <= Rabs (get i lam)).
Proof.
  destruct lam as [l0 l1 l2 l3].
  unfold choose_negative, all_idx, after, vmap.
  cbn [fold_left filter idx_ltb idx_nat Nat.ltb Nat.leb all_idx
       get e0 e1 e2 e3 vmap rabs rltb exactR fst snd].
  rewrite R_lit_0. unfold R_ltb.
  destruct (Rlt_dec l0 0), (Rlt_dec l1 0), (Rlt_dec l2 0), (Rlt_dec l3 0);
    cbn [fst snd Z.add Z.eqb Pos.add Pos.succ Pos.eqb get e0 e1 e2 e3];
    repeat match goal with
           | |- context [Rlt_dec (Rabs ?a) (Rabs ?b)] =>
               destruct (Rlt_dec (Rabs a) (Rabs b));
               cbn [fst snd get e0 e1 e2 e3]
           end;
    (eexists; split; [reflexivity|]);
    (split;
     [ intros [i Hi]; split; [cbn [get e0 e1 e2 e3]; try lra; destruct i; cbn in Hi; lra|];
       intros i' Hi'; destruct i'; cbn in Hi' |- *; lra
     | intros Hall; pose proof (Hall I0); pose proof (Hall I1);
       pose proof (Hall I2); pose proof (Hall I3);
       intros i'; destruct i'; cbn in *; lra ]).
Qed.

End ExactRepair.

Module ExactSignature.
Import ExactR ExactGeometry ExactDet ExactInverse ExactJacobi ExactFlat.
Local Open Scope R_scope.

(** The diagonal matrix that [project_signature] builds from the repaired
    spectrum. *)
Lemma diagonal_table (L : vec4 R) :
  mtab (fun r c => if idx_eqb r c then get r L else lit 0 0)
  = from_diag (get I0 L) (get I1 L) (get I2 L) (get I3 L).
Proof.
  apply mat_ext. intros r c. rewrite mget_mtab.
  destruct r, c; reflexivity.
Qed.

Lemma congruence_symmetric (Q : mat4 R) (a0 a1 a2 a3 : R) :
  symmetric (mul (mul Q (from_diag a0 a1 a2 a3)) (transpose Q)).
Proof.
  destruct Q as [[q00 q01 q02 q03] [q10 q11 q12 q13]
                 [q20 q21 q22 q23] [q30 q31 q32 q33]].
  intros i j. unfold mul, transpose. rewrite !mget_mtab.
  destruct i, j; cbn; rewrite ?R_lit_0; ring.
Qed.

(** In exact arithmetic the final symmetrisation changes nothing: the
    result is [Q D Q^T]. *)
Lemma project_signature_congruence (gm : sym4 R) (eps : R) :
  let Q := fst (jacobi_symmetric_4x4 gm 64 (lit 1 (-14))) in
  let L := repaired_spectrum (snd (jacobi_symmetric_4x4 gm 64 (lit 1 (-14)))) eps in
  project_signature gm eps
  = mul (mul Q (from_diag (get I0 L) (get I1 L) (get I2 L) (get I3 L)))
        (transpose Q).
Proof.
  unfold project_signature.
  destruct (jacobi_symmetric_4x4 gm 64 (lit 1 (-14))) as [Q lam].
  cbn [fst snd]. rewrite diagonal_table.
  apply sym4_of_fixes_symmetric_exact. apply congruence_symmetric.
Qed.

Lemma qform_congruence (Q : mat4 R) (a0 a1 a2 a3 : R) (v : vec4 R) :
  qform (mul (mul Q (from_diag a0 a1 a2 a3)) (transpose Q)) v
  = a0 * (get I0 (mulv (transpose Q) v) * get I0 (mulv (transpose Q) v))
  + a1 * (get I1 (mulv (transpose Q) v) * get I1 (mulv (transpose Q) v))
  + a2 * (get I2 (mulv (transpose Q) v) * get I2 (mulv (transpose Q) v))
  + a3 * (get I3 (mulv (transpose Q) v) * get I3 (mulv (transpose Q) v)).
Proof.
  destruct Q as [[q00 q01 q02 q03] [q10 q11 q12 q13]
                 [q20 q21 q22 q23] [q30 q31 q32 q33]].
  destruct v as [v0 v1 v2 v3].
  unfold qform, mul, mulv, transpose. cbn. rewrite ?R_lit_0. ring.
Qed.

Lemma laplace_det_from_diag (a0 a1 a2 a3 : R) :
  laplace_det (from_diag a0 a1 a2 a3) = a0 * a1 * a2 * a3.
Proof. unfold laplace_det, det3, det2. cbn. rewrite ?R_lit_0. ring. Qed.

Lemma orthogonal_det_square (Q : mat4 R) :
  orthogonal Q -> laplace_det Q * laplace_det Q = 1.
Proof.
  intros O. unfold orthogonal in O.
  rewrite <- (laplace_det_transpose Q) at 1.
  rewrite <- laplace_det_mul, O. apply laplace_det_identity.
Qed.

(** The repaired spectrum has one entry at or below [-eps] and three at or
    above [eps]. *)
Lemma repaired_spectrum_lorentzian (lam : vec4 R) (eps : R) :
  exists j, choose_negative lam = Some j /\
    (forall i, get i (repaired_spectrum lam eps)
               = if idx_eqb i j then - rmax (Rabs (get i lam)) eps
                 else rmax (Rabs (get i lam)) eps) /\
    get j (repaired_spectrum lam eps) <= - eps /\
    (forall i, i <> j -> eps <= get i (repaired_spectrum lam eps)).
Proof.
  destruct (choose_negative_some lam) as [j Hj]. exists j.
  assert (E : forall i, get i (repaired_spectrum lam eps)
               = if idx_eqb i j then - rmax (Rabs (get i lam)) eps
                 else rmax (Rabs (get i lam)) eps).
  { intros i. unfold repaired_spectrum. rewrite get_tab, Hj. reflexivity. }
  split; [exact Hj|]. split; [exact E|]. split.
  - rewrite E. replace (idx_eqb j j) with true
      by (symmetry; apply idx_eqb_eq; reflexivity).
    pose proof (rmax_ge_r (Rabs (get j lam)) eps). lra.
  - intros i Hi. rewrite E.
    replace (idx_eqb i j) with false
      by (symmetry; apply idx_eqb_neq; exact Hi).
    apply rmax_ge_r.
Qed.

(** The determinant of the projected matrix is the product of the repaired
    spectrum, which is negative. *)
Lemma project_signature_det (gm : sym4 R) (eps : R) :
  symmetric gm -> 0 < eps ->
  laplace_det (project_signature gm eps) < 0.
Proof.
  intros S He.
  rewrite project_signature_congruence.
  destruct (jacobi_symmetric_exact gm 64 (lit 1 (-14)) S) as (O & _).
  set (Q := fst (jacobi_symmetric_4x4 gm 64 (lit 1 (-14)))) in *.
  set (lam := snd (jacobi_symmetric_4x4 gm 64 (lit 1 (-14)))).
  destruct (repaired_spectrum_lorentzian lam eps) as (j & _ & _ & N & P).
  set (L := repaired_spectrum lam eps) in *.
  rewrite !laplace_det_mul, laplace_det_transpose, laplace_det_from_diag.
  pose proof (orthogonal_det_square Q O) as D.
  assert (X : get I0 L * get I1 L * get I2 L * get I3 L < 0).
  { destruct j.
    - pose proof (P I1 ltac:(discriminate)). pose proof (P I2 ltac:(discriminate)).
      pose proof (P I3 ltac:(discriminate)).
      assert (0 < get I1 L * get I2 L * get I3 L)
        by (repeat apply Rmult_lt_0_compat; lra).
      nra.
    - pose proof (P I0 ltac:(discriminate)). pose proof (P I2 ltac:(discriminate)).
      pose proof (P I3 ltac:(discriminate)).
      assert (0 < get I0 L * get I2 L * get I3 L)
        by (repeat apply Rmult_lt_0_compat; lra).
      nra.
    - pose proof (P I0 ltac:(discriminate)). pose proof (P I1 ltac:(discriminate)).
      pose proof (P I3 ltac:(discriminate)).
      assert (0 < get I0 L * get I1 L * get I3 L)
        by (repeat apply Rmult_lt_0_compat; lra).
      nra.
    - pose proof (P I0 ltac:(discriminate)). pose proof (P I1 ltac:(discriminate)).
      pose proof (P I2 ltac:(discriminate)).
      assert (0 < get I0 L * get I1 L * get I2 L)
        by (repeat apply Rmult_lt_0_compat; lra).
      nra. }
  replace (laplace_det Q * (get I0 L * get I1 L * get I2 L * get I3 L)
           * laplace_det Q)
    with ((laplace_det Q * laplace_det Q)
          * (get I0 L * get I1 L * get I2 L * get I3 L)) by ring.
  rewrite D. lra.
Qed.

Lemma R_lit_eps9 : 0 < @lit R exactR 1 (-9) <= 1.
Proof. change (@lit R exactR 1 (-9)) with (1 / 1000000000). lra. Qed.

End ExactSignature.

Module ExactNorm.
Import ExactR ExactGeometry ExactDet ExactInverse ExactFlat.
Local Open Scope R_scope.

Lemma row_sum_nonneg (A : mat4 R) (r : idx) : 0 <= row_sum A r.
Proof.
  unfold row_sum, sum_over, all_idx. cbn [fold_left radd rabs exactR].
  rewrite R_lit_0.
  pose proof (Rabs_pos (mget A r I0)). pose proof (Rabs_pos (mget A r I1)).
  pose proof (Rabs_pos (mget A r I2)). pose proof (Rabs_pos (mget A r I3)).
  lra.
Qed.

(** [norm_inf] is the largest absolute row sum. *)
Lemma norm_inf_spec (A : mat4 R) :
  (forall r, row_sum A r <= norm_inf A) /\
  (exists r, norm_inf A = row_sum A r).
Proof.
  unfold norm_inf.
  change (fun best r =>
            let s := sum_over all_idx (fun c => rabs (mget A r c)) in
            if (best <? s)%real then s else best)
    with (fun best r => if R_ltb best (row_sum A r) then row_sum A r else best).
  unfold all_idx. cbn [fold_left]. rewrite R_lit_0.
  pose proof (row_sum_nonneg A I0) as P0. pose proof (row_sum_nonneg A I1) as P1.
  pose proof (row_sum_nonneg A I2) as P2. pose proof (row_sum_nonneg A I3) as P3.
  set (s0 := row_sum A I0) in *. set (s1 := row_sum A I1) in *.
  set (s2 := row_sum A I2) in *. set (s3 := row_sum A I3) in *.
  assert (H : let n := if R_ltb (if R_ltb (if R_ltb (if R_ltb 0 s0 then s0 else 0) s1
                                           then s1 else if R_ltb 0 s0 then s0 else 0) s2
                                 then s2
                                 else if R_ltb (if R_ltb 0 s0 then s0 else 0) s1
                                      then s1 else if R_ltb 0 s0 then s0 else 0) s3
                       then s3
                       else if R_ltb (if R_ltb (if R_ltb 0 s0 then s0 else 0) s1
                                      then s1 else if R_ltb 0 s0 then s0 else 0) s2
                            then s2
                            else if R_ltb (if R_ltb 0 s0 then s0 else 0) s1
                                 then s1 else if R_ltb 0 s0 then s0 else 0 in
              s0 <= n /\ s1 <= n /\ s2 <= n /\ s3 <= n /\
              (n = s0 \/ n = s1 \/ n = s2 \/ n = s3)).
  { clearbody s0 s1 s2 s3. cbv zeta. unfold R_ltb.
    destruct (Rlt_dec 0 s0);
      repeat match goal with
             | |- context [Rlt_dec ?x ?y] =>
                 first [is_var x | constr_eq x 0]; is_var y; destruct (Rlt_dec x y)
             end; repeat split; try lra;
      first [ left; lra | right; left; lra | right; right; left; lra
            | right; right; right; lra ]. }
  cbv zeta in H. destruct H as (H0 & H1 & H2 & H3 & Hn).
  split.
  - intros r. destruct r; assumption.
  - destruct Hn as [E | [E | [E | E]]].
    + exists I0. exact E.
    + exists I1. exact E.
    + exists I2. exact E.
    + exists I3. exact E.
Qed.

Lemma Rabs_sum4 (x0 x1 x2 x3 : R) :
  Rabs (0 + x0 + x1 + x2 + x3) <= Rabs x0 + Rabs x1 + Rabs x2 + Rabs x3.
Proof.
  rewrite Rplus_0_l.
  pose proof (Rabs_triang (x0 + x1 + x2) x3).
  pose proof (Rabs_triang (x0 + x1) x2).
  pose proof (Rabs_triang x0 x1). lra.
Qed.

(** The product of the norms bounds the norm of the product. *)
Lemma row_sum_mul (A B : mat4 R) (r : idx) :
  row_sum (mul A B) r <= norm_inf A * norm_inf B.
Proof.
  destruct (norm_inf_spec A) as [HA _]. destruct (norm_inf_spec B) as [HB _].
  specialize (HA r).
  pose proof (HB I0) as B0. pose proof (HB I1) as B1.
  pose proof (HB I2) as B2. pose proof (HB I3) as B3.
  pose proof (row_sum_nonneg A r) as PA.
  pose proof (Rle_trans _ _ _ (row_sum_nonneg B I0) (HB I0)) as NB.
  revert HA B0 B1 B2 B3 PA NB.
  generalize (norm_inf A) (norm_inf B). intros nA nB.
  unfold row_sum, mul, sum_over, all_idx. cbn [fold_left].
  rewrite !mget_mtab. unfold sum_over, all_idx. cbn [fold_left].
  cbn [radd rmul rabs exactR]. rewrite !R_lit_0.
  intros HA B0 B1 B2 B3 PA NB.
  pose proof (Rabs_sum4 (mget A r I0 * mget B I0 I0) (mget A r I1 * mget B I1 I0)
                        (mget A r I2 * mget B I2 I0) (mget A r I3 * mget B I3 I0)) as T0.
  pose proof (Rabs_sum4 (mget A r I0 * mget B I0 I1) (mget A r I1 * mget B I1 I1)
                        (mget A r I2 * mget B I2 I1) (mget A r I3 * mget B I3 I1)) as T1.
  pose proof (Rabs_sum4 (mget A r I0 * mget B I0 I2) (mget A r I1 * mget B I1 I2)
                        (mget A r I2 * mget B I2 I2) (mget A r I3 * mget B I3 I2)) as T2.
  pose proof (Rabs_sum4 (mget A r I0 * mget B I0 I3) (mget A r I1 * mget B I1 I3)
                        (mget A r I2 * mget B I2 I3) (mget A r I3 * mget B I3 I3)) as T3.
  rewrite !Rabs_mult in T0, T1, T2, T3.
  pose proof (Rabs_pos (mget A r I0)) as a0. pose proof (Rabs_pos (mget A r I1)) as a1.
  pose proof (Rabs_pos (mget A r I2)) as a2. pose proof (Rabs_pos (mget A r I3)) as a3.
  revert T0 T1 T2 T3 HA B0 B1 B2 B3 PA a0 a1 a2 a3.
  generalize (Rabs (0 + mget A r I0 * mget B I0 I0 + mget A r I1 * mget B I1 I0
                    + mget A r I2 * mget B I2 I0 + mget A r I3 * mget B I3 I0)).
  generalize (Rabs (0 + mget A r I0 * mget B I0 I1 + mget A r I1 * mget B I1 I1
                    + mget A r I2 * mget B I2 I1 + mget A r I3 * mget B I3 I1)).
  generalize (Rabs (0 + mget A r I0 * mget B I0 I2 + mget A r I1 * mget B I1 I2
                    + mget A r I2 * mget B I2 I2 + mget A r I3 * mget B I3 I2)).
  generalize (Rabs (0 + mget A r I0 * mget B I0 I3 + mget A r I1 * mget B I1 I3
                    + mget A r I2 * mget B I2 I3 + mget A r I3 * mget B I3 I3)).
  generalize (Rabs (mget A r I0)) (Rabs (mget A r I1))
             (Rabs (mget A r I2)) (Rabs (mget A r I3)).
  intros x0 x1 x2 x3 t3 t2 t1 t0.
  generalize (Rabs (mget B I0 I0)) (Rabs (mget B I0 I1)) (Rabs (mget B I0 I2)) (Rabs (mget B I0 I3))
             (Rabs (mget B I1 I0)) (Rabs (mget B I1 I1)) (Rabs (mget B I1 I2)) (Rabs (mget B I1 I3))
             (Rabs (mget B I2 I0)) (Rabs (mget B I2 I1)) (Rabs (mget B I2 I2)) (Rabs (mget B I2 I3))
             (Rabs (mget B I3 I0)) (Rabs (mget B I3 I1)) (Rabs (mget B I3 I2)) (Rabs (mget B I3 I3)).
  intros b00 b01 b02 b03 b10 b11 b12 b13 b20 b21 b22 b23 b30 b31 b32 b33.
  intros T0 T1 T2 T3 HA B0 B1 B2 B3 PA a0 a1 a2 a3.
  assert (S0 : x0 * (0 + b00 + b01 + b02 + b03) <= x0 * nB) by (apply Rmult_le_compat_l; lra).
  assert (S1 : x1 * (0 + b10 + b11 + b12 + b13) <= x1 * nB) by (apply Rmult_le_compat_l; lra).
  assert (S2 : x2 * (0 + b20 + b21 + b22 + b23) <= x2 * nB) by (apply Rmult_le_compat_l; lra).
  assert (S3 : x3 * (0 + b30 + b31 + b32 + b33) <= x3 * nB) by (apply Rmult_le_compat_l; lra).
  assert (SA : (0 + x0 + x1 + x2 + x3) * nB <= nA * nB)
    by (apply Rmult_le_compat_r; lra).
  lra.
Qed.

Lemma inverse_cond_formula (A Ainv0 : mat4 R) (d0 c0 eps : R) :
  r_ok (inverse A Ainv0 d0 c0 eps) = true ->
  r_cond_inf (inverse A Ainv0 d0 c0 eps)
  = norm_inf A * norm_inf (r_Ainv (inverse A Ainv0 d0 c0 eps)).
Proof.
  unfold inverse, inverse_call, inverse_call. destruct (forward _ _ _); cbn; [discriminate | reflexivity].
Qed.

(** The condition number that [inverse] reports is at least one. *)
Lemma inverse_cond_ge_one (A Ainv0 : mat4 R) (d0 c0 eps : R) :
  0 < eps ->
  r_ok (inverse A Ainv0 d0 c0 eps) = true ->
  1 <= r_cond_inf (inverse A Ainv0 d0 c0 eps).
Proof.
  intros Heps Hok.
  destruct (inverse_exact A Ainv0 d0 c0 eps Heps Hok) as (_ & HR & _).
  rewrite (inverse_cond_formula A Ainv0 d0 c0 eps Hok).
  pose proof (row_sum_mul A (r_Ainv (inverse A Ainv0 d0 c0 eps)) I0) as H.
  rewrite HR in H.
  replace (row_sum identity I0) with 1 in H; [exact H|].
  unfold row_sum, sum_over, all_idx. cbn [fold_left]. unfold identity.
  rewrite !mget_mtab. cbn [idx_eqb idx_nat Nat.eqb radd rabs exactR].
  rewrite R_lit_0, R_lit_1, Rabs_R0, Rabs_R1. ring.
Qed.

(** The in-place call differs from the call with a separate output only in
    the condition estimate, which is the square of the norm of the
    inverse. *)
Lemma inverse_in_place_result (A : mat4 R) (d0 c0 eps : R) :
  r_ok (inverse_in_place A d0 c0 eps) = r_ok (inverse A A d0 c0 eps) /\
  r_Ainv (inverse_in_place A d0 c0 eps) = r_Ainv (inverse A A d0 c0 eps) /\
  r_det (inverse_in_place A d0 c0 eps) = r_det (inverse A A d0 c0 eps) /\
  (r_ok (inverse_in_place A d0 c0 eps) = true ->
   r_cond_inf (inverse_in_place A d0 c0 eps)
   = norm_inf (r_Ainv (inverse_in_place A d0 c0 eps))
     * norm_inf (r_Ainv (inverse_in_place A d0 c0 eps))).
Proof.
  unfold inverse_in_place, inverse, inverse_call.
  destruct (forward _ _ _); cbn [r_ok r_Ainv r_det r_cond_inf];
    repeat split; try reflexivity; discriminate.
Qed.

(** *** The kernel weights of the stress-energy sum *)

Lemma kernel_weight_bounds (gm : sym4 R) (x xi : vec4 R) (sigma : R) :
  symmetric gm -> sigma <> 0 ->
  let w := StressEnergy.kernel_exp exp
             (StressEnergy.d2 (pd_proxy_square gm) x xi) sigma in
  0 <= StressEnergy.d2 (pd_proxy_square gm) x xi /\ 0 < w <= 1.
Proof.
  intros S Hs. cbv zeta.
  assert (D : 0 <= StressEnergy.d2 (pd_proxy_square gm) x xi).
  { rewrite d2_is_qform. now apply pd_proxy_square_psd_exact. }
  split; [exact D|]. unfold StressEnergy.kernel_exp. cbv zeta.
  split; [apply exp_pos|].
  rewrite <- exp_0.
  set (r2 := StressEnergy.d2 (pd_proxy_square gm) x xi) in *.
  assert (I : 0 < (lit 5 (-1) / (sigma * sigma))%real).
  { rewrite R_lit_half. cbn [rdiv rmul exactR].
    apply Rdiv_lt_0_compat; [lra|]. nra. }
  set (inv := (lit 5 (-1) / (sigma * sigma))%real) in *.
  cbn [ropp rmul exactR].
  destruct (Req_dec (- r2 * inv) 0) as [E|N].
  - rewrite E. lra.
  - apply Rlt_le, exp_increasing. nra.
Qed.

(** *** Raising and lowering an index *)

Lemma mulv_mul (A B : mat4 R) (v : vec4 R) : mulv A (mulv B v) = mulv (mul A B) v.
Proof.
  apply V4_ext. intros r. unfold mulv, mul. rewrite !get_tab.
  unfold sum_over, all_idx. cbn [fold_left]. rewrite !get_tab, !mget_mtab.
  unfold sum_over, all_idx. cbn [fold_left radd rmul exactR].
  rewrite !R_lit_0. ring.
Qed.

Lemma mulv_identity (v : vec4 R) : mulv identity v = v.
Proof.
  apply V4_ext. intros r. unfold mulv, identity. rewrite get_tab.
  unfold sum_over, all_idx. cbn [fold_left]. rewrite !mget_mtab.
  destruct r; cbn [idx_eqb idx_nat Nat.eqb radd rmul exactR];
    rewrite R_lit_0, R_lit_1; ring.
Qed.

Lemma raise_lower_exact (K : Constants R) (F : IMetricField R) (x v : vec4 R) :
  inv_ok (prepare_metric K F x) = true ->
  raise (g_inv (prepare_metric K F x)) (lower (g (prepare_metric K F x)) v) = v /\
  lower (g (prepare_metric K F x)) (raise (g_inv (prepare_metric K F x)) v) = v.
Proof.
  unfold prepare_metric. cbn [inv_ok g_inv g]. intros Hok.
  destruct (inverse_exact (F x) mat4_zero (lit 0 0) (lit 0 0) (lit 1 (-14))
              R_lit_tol14 Hok) as (HL & HR & _).
  change (@raise R exactR) with (@mulv R exactR).
  change (@lower R exactR) with (@mulv R exactR).
  rewrite !mulv_mul, HL, HR. split; apply mulv_identity.
Qed.

(** Where the metric is singular everywhere the integrator moves along
    straight lines. *)
Lemma geodesic_step_singular_exact (K : Constants R) (F : IMetricField R)
      (x u : vec4 R) (dtau : R) :
  (forall y, inv_ok (prepare_metric K F y) = false) ->
  geodesic_step K F None x u dtau
  = (tab (fun i => get i x + dtau * get i u),
     renormalize_timelike (F (tab (fun i => get i x + dtau * get i u))) u).
Proof.
  intros H. unfold geodesic_step, verlet_update. cbv zeta.
  rewrite (accel_singular_exact K F x u (H x)).
  assert (Eu : tab (fun i => (get i u + lit 5 (-1) * dtau * get i vec4_zero)%real) = u).
  { apply V4_ext. intros i. rewrite get_tab. unfold vec4_zero. rewrite get_tab.
    cbn [radd rmul exactR]. rewrite R_lit_0. ring. }
  rewrite Eu.
  rewrite (accel_singular_exact K F _ u (H _)), Eu.
  reflexivity.
Qed.

End ExactNorm.

Module ExactEval.
Import ExactR ExactGeometry ExactCholesky ExactDet ExactInverse ExactFlat ExactNorm.
Local Open Scope R_scope.

Lemma R_eqb_eq (x y : R) : x = y -> R_eqb x y = true.
Proof. intros H. unfold R_eqb. destruct (Req_dec_T x y); [reflexivity | contradiction]. Qed.

Lemma R_eqb_neq (x y : R) : x <> y -> R_eqb x y = false.
Proof. intros H. unfold R_eqb. destruct (Req_dec_T x y); [contradiction | reflexivity]. Qed.

Lemma row_scale_one (row : @augrow R) : row_scale (1 / 1) row = row.
Proof.
  destruct row as [l r]. unfold row_scale. cbn [lft rgt].
  f_equal; apply V4_ext; intros c; rewrite get_vmap; cbn [rmul exactR]; field.
Qed.

(** A step of the elimination on a system whose left block is already the
    identity changes nothing. *)
Lemma forward_step_identity (eps : R) (aug : V4 augrow) (s : Z) (d : R) (k : idx) :
  eps <= 1 ->
  lblock aug = identity ->
  forward_step eps {| g_aug := aug; g_sign := s; g_det := d |} k
  = Some {| g_aug := aug; g_sign := s; g_det := d * 1 |}.
Proof.
  intros He Hl.
  assert (Hentry : forall r c, aget aug r c = if idx_eqb r c then 1 else 0).
  { intros r c. pose proof (f_equal (fun M => mget M r c) Hl) as E.
    cbn beta in E. unfold lblock, identity in E. rewrite !mget_mtab in E.
    rewrite E. destruct (idx_eqb r c); [apply R_lit_1 | apply R_lit_0]. }
  unfold forward_step, pivot_of. cbn [g_aug g_sign g_det].
  assert (Hpiv : pivot_search (fun r => aget aug r k) k = (k, 1)).
  { unfold pivot_search. destruct k; unfold after, all_idx;
      cbn [filter idx_ltb idx_nat Nat.ltb Nat.leb fold_left];
      rewrite !Hentry; cbn [idx_eqb idx_nat Nat.eqb rabs rltb exactR snd];
      rewrite ?Rabs_R0, ?Rabs_R1;
      repeat (cbn [snd]; rewrite (R_ltb_ge 1 0) by lra); reflexivity. }
  rewrite Hpiv. cbn [rltb exactR]. rewrite (R_ltb_ge 1 eps He).
  assert (Ekk : idx_eqb k k = true) by (destruct k; reflexivity).
  rewrite Ekk, (Hentry k k), Ekk, R_lit_1.
  cbn [rdiv exactR]. rewrite row_scale_one, upd_get_same.
  assert (Hel : forall js, (forall j, In j js -> idx_eqb j k = false) ->
                           fold_left (eliminate k) js aug = aug).
  { induction js as [|j js IH]; intros Hj; [reflexivity|].
    cbn [fold_left]. unfold eliminate at 2.
    rewrite (Hentry j k), (Hj j (or_introl eq_refl)).
    cbn [reqb exactR]. rewrite R_lit_0, (R_eqb_eq 0 0 eq_refl).
    apply IH. intros j' Hj'. apply Hj. now right. }
  rewrite Hel; [reflexivity|].
  intros j Hj. destruct k, j; cbn in Hj |- *; try reflexivity;
    repeat (destruct Hj as [Hj | Hj]; try discriminate Hj); contradiction.
Qed.

Lemma lblock_init (A : mat4 R) : lblock (init_aug A) = A.
Proof.
  apply mat_ext. intros r c. unfold lblock, init_aug, aget.
  rewrite mget_mtab, get_tab. cbn [lft]. now rewrite get_tab.
Qed.

Lemma inverse_identity_ok (Ainv0 : mat4 R) (d0 c0 : R) :
  r_ok (inverse (identity : mat4 R) Ainv0 d0 c0 (lit 1 (-14))) = true.
Proof.
  assert (T1 : @lit R exactR 1 (-14) <= 1).
  { change (@lit R exactR 1 (-14)) with (1 / 100000000000000). lra. }
  unfold inverse, inverse_call, all_idx. cbn [forward].
  pose proof (lblock_init identity) as Hl.
  rewrite !(forward_step_identity _ _ _ _ _ T1 Hl). reflexivity.
Qed.

End ExactEval.

(* ------------------------------------------------------------------ *)
(** ** The claims *)
(* ------------------------------------------------------------------ *)

Module Claims.
Import Inputs Binary64 ExactR ExactFlat ExactJacobi ExactSignature.

(** C1 (defect of the code).  [einstein_at] returns a [sym4] that is not
    symmetric: for the metric field [diag(-1, 1 + 100 t + 200 x, 1, 1)],
    which is symmetric at every point, the Einstein tensor at the origin
    has component (0,1) equal to [0] and component (1,0) below [-3]. *)
Theorem einstein_at_asymmetric :
  (forall x, symmetric (slope_field x)) /\
  mget (einstein_at default_constants slope_field origin) I0 I1 = 0%float /\
  PrimFloat.ltb (mget (einstein_at default_constants slope_field origin) I1 I0)
                (-3)%float = true.
Proof.
  split; [|split].
  - intros x i j. unfold slope_field.
    destruct i, j; reflexivity.
  - vm_compute. reflexivity.
  - vm_compute. reflexivity.
Qed.

(** C2, refuted as stated.  Ten steps of size [0.1] from the origin of flat
    spacetime, at rest: the time coordinate is [0.99999999999999989], not
    [0 + 10 * 0.1 = 1].  (With an infinite step the velocity becomes NaN.) *)
Lemma flat_geodesic_time_not_linear :
  let xu := geodesic_steps 10 default_constants MinkowskiField None
                           (origin, u_rest) tenth in
  PrimFloat.ltb (get I0 (fst xu)) 1%float = true /\
  (0 + 10 * tenth)%float = 1%float /\
  snd (geodesic_steps 1 default_constants MinkowskiField None
                      (origin, u_rest) infinity)
  = mkV4 nan nan nan nan.
Proof. vm_compute. repeat split; reflexivity. Qed.

(** C2, amended.  In flat spacetime without potential, from the velocity
    [(1,0,0,0)] and any position [x0], after [n] steps:
    - in double precision, for every finite step [dtau] (and a finite
      difference scale [0.5 / fd_h]): the velocity is exactly [(1,0,0,0)];
      the time coordinate is that of [x0] with [dtau] added [n] times, each
      addition rounded; every spatial coordinate is unchanged, except that
      a negative zero may have become a positive zero;
    - in exact arithmetic: the velocity is [(1,0,0,0)] and the position is
      [x0] with its time coordinate advanced by [n * dtau]. *)
Theorem flat_geodesic_straight_line (n : nat) :
  (forall (K : Constants float) (x0 : vec4 float) (dtau : float),
     PrimFloat.is_finite (lit 5 (-1) / fd_h K)%real = true ->
     PrimFloat.is_finite dtau = true ->
     let xu := geodesic_steps n K MinkowskiField None (x0, u_rest) dtau in
     snd xu = u_rest /\
     get I0 (fst xu) = iterate n (fun t => (t + dtau)%float) (get I0 x0) /\
     forall i, i <> I0 ->
       get i (fst xu) = get i x0 \/
       (get i x0 = (-0)%float /\ get i (fst xu) = 0%float)) /\
  (forall (K : Constants R) (x0 : vec4 R) (dtau : R),
     geodesic_steps n K MinkowskiField None (x0, u_rest_exact) dtau
     = (mkV4 (e0 x0 + INR n * dtau)%R (e1 x0) (e2 x0) (e3 x0), u_rest_exact)).
Proof.
  split.
  - intros K x0 dtau Hs Hf xu. subst xu.
    rewrite (minkowski_steps K x0 dtau n Hs Hf). cbn [fst snd].
    split; [reflexivity|]. split.
    + apply minkowski_time.
    + intros i Hi. now apply minkowski_space.
  - intros K x0 dtau. apply minkowski_steps_exact.
Qed.

Lemma flat_geodesic_straight_line_witness :
  PrimFloat.is_finite (lit 5 (-1) / fd_h default_constants)%real = true /\
  PrimFloat.is_finite tenth = true /\
  snd (geodesic_steps 3 default_constants MinkowskiField None (ones, u_rest) tenth)
  = u_rest.
Proof.
  split; [reflexivity|]. split; [reflexivity|].
  exact (proj1 (proj1 (flat_geodesic_straight_line 3) default_constants ones
                      tenth eq_refl eq_refl)).
Defined.

(** C3, refuted as stated.  For the symmetric rank-one matrix with all
    entries [1e8], [validate_signature] counts 2 negative and 2 positive
    eigenvalues on the result of [project_signature]. *)
Lemma project_signature_rank_one :
  symmetric rank_one /\
  validate_signature (project_signature rank_one project_default_eps)
                     validate_default_eps = (2, 2, 0)%Z.
Proof.
  split; [intros i j; destruct i, j; reflexivity | vm_compute; reflexivity].
Qed.

(** C3, amended.  The matrix that [project_signature] returns is exactly
    symmetric in double precision, for every input.  In exact arithmetic,
    for every symmetric [g] and every [eps > 0], with [Q] and [lam] the
    result of the eigen-solver on [g] and [L] the repaired spectrum: [Q] is
    orthogonal, [lam] is the diagonal of [Q^T g Q], the returned matrix is
    [Q diag(L) Q^T], one entry of [L] (the one chosen by the repair) is
    [-max(|lam_j|, eps) <= -eps] and the three others are
    [max(|lam_i|, eps) >= eps]; so the quadratic form of the result is
    [sum_i L_i w_i^2] in the orthonormal coordinates [w = Q^T v], its
    inertia is (1,3,0), and its determinant is negative.
    In double precision the inertia that [validate_signature] counts on
    the result can differ: for the rank-one matrix it is (2,2,0), and the
    function then writes its warning with these counts exactly when the
    logger is enabled and admits the level [warn]; the matrix is returned
    in either case.  For [eta] no warning is written. *)
Theorem project_signature_lorentzian :
  (forall (gm : sym4 float) (eps : float),
     symmetric (project_signature gm eps)) /\
  (forall (gm : sym4 R) (eps : R),
     symmetric gm -> (0 < eps)%R ->
     let Q := fst (jacobi_symmetric_4x4 gm 64 (lit 1 (-14))) in
     let lam := snd (jacobi_symmetric_4x4 gm 64 (lit 1 (-14))) in
     let L := repaired_spectrum lam eps in
     mul (transpose Q) Q = identity /\
     mul Q (transpose Q) = identity /\
     (forall i, get i lam = mget (mul (mul (transpose Q) gm) Q) i i) /\
     project_signature gm eps
     = mul (mul Q (from_diag (get I0 L) (get I1 L) (get I2 L) (get I3 L)))
           (transpose Q) /\
     (exists j, choose_negative lam = Some j /\
        (forall i, get i L
                   = if idx_eqb i j then (- rmax (Rabs (get i lam)) eps)%R
                     else rmax (Rabs (get i lam)) eps) /\
        (get j L <= - eps)%R /\
        (forall i, i <> j -> (eps <= get i L)%R)) /\
     (forall v : vec4 R,
        qform (project_signature gm eps) v
        = (get I0 L * (get I0 (mulv (transpose Q) v) * get I0 (mulv (transpose Q) v))
           + get I1 L * (get I1 (mulv (transpose Q) v) * get I1 (mulv (transpose Q) v))
           + get I2 L * (get I2 (mulv (transpose Q) v) * get I2 (mulv (transpose Q) v))
           + get I3 L * (get I3 (mulv (transpose Q) v) * get I3 (mulv (transpose Q) v)))%R) /\
     (det (project_signature gm eps) < 0)%R) /\
  (forall (lg : Telemetry.Logger) (gm : sym4 float) (eps : float),
     fst (project_signature_traced lg gm eps) = project_signature gm eps) /\
  (forall lg : Telemetry.Logger,
     snd (project_signature_traced lg rank_one project_default_eps)
     = if Telemetry.logs lg Telemetry.warn then Some (2, 2, 0)%Z else None) /\
  (forall lg : Telemetry.Logger,
     snd (project_signature_traced lg (minkowski_eta : sym4 float)
                                   project_default_eps) = None).
Proof.
  split; [|split; [|split; [|split]]].
  - intros gm eps. unfold project_signature.
    destruct (jacobi_symmetric_4x4 gm 64 (lit 1 (-14))) as [Q lam].
    apply sym4_of_symmetric_comm. exact float_add_comm.
  - intros gm eps S He Q lam L.
    destruct (jacobi_symmetric_exact gm 64 (lit 1 (-14)) S)
      as (O1 & O2 & D & _).
    pose proof (project_signature_congruence gm eps) as C.
    cbn zeta in C. fold Q in C. fold lam in C. fold L in C.
    split; [exact O1|]. split; [exact O2|]. split; [exact D|].
    split; [exact C|].
    split; [exact (repaired_spectrum_lorentzian lam eps)|].
    split.
    + intros v. rewrite C. apply qform_congruence.
    + rewrite ExactDet.det_is_laplace_det.
      apply project_signature_det; assumption.
  - intros lg gm eps. unfold project_signature_traced.
    destruct (validate_signature _ _) as [[nneg npos] nzero]. reflexivity.
  - intros [en ml]. destruct en, ml; vm_compute; reflexivity.
  - intros [en ml]. destruct en, ml; vm_compute; reflexivity.
Qed.

Lemma project_signature_lorentzian_witness :
  symmetric (minkowski_eta : sym4 R) /\
  (0 < @project_default_eps R exactR)%R /\
  (det (project_signature (minkowski_eta : sym4 R) project_default_eps) < 0)%R.
Proof.
  assert (S : symmetric (minkowski_eta : sym4 R))
    by (intros i j; destruct i, j; reflexivity).
  assert (P : (0 < @project_default_eps R exactR)%R)
    by (unfold project_default_eps; exact (proj1 R_lit_eps9)).
  split; [exact S|]. split; [exact P|].
  destruct project_signature_lorentzian as (_ & E & _).
  destruct (E minkowski_eta project_default_eps S P)
    as (_ & _ & _ & _ & _ & _ & Z).
  exact Z.
Defined.

(** C4.  In [geodesic_step] (double precision), with [u_new] the velocity
    formed before renormalisation, [x_new] the updated position and
    [q = qform(g(x_new), u_new)]: the returned position is [x_new]; when
    [q < 0] the returned velocity is [u_new] with every component
    multiplied by [1 / sqrt(-q)]; when [q >= 0] it is [u_new] itself.
    In exact arithmetic the rescaled velocity satisfies [g(u,u) = -1] at
    the returned position. *)
Theorem geodesic_step_renormalization
  (K : Constants float) (F : IMetricField float)
  (P : option (IPotential float)) (x u : vec4 float) (dtau : float) :
  let M := prepare_metric K F x in
  let a0 := accel K M (christoffel M) u P x in
  let u_half := tab (fun i => (get i u + lit 5 (-1) * dtau * get i a0)%real) in
  let x_new := tab (fun i => (get i x + dtau * get i u_half)%real) in
  let M1 := prepare_metric K F x_new in
  let a1 := accel K M1 (christoffel M1) u_half P x_new in
  let u_new := tab (fun i => (get i u_half + lit 5 (-1) * dtau * get i a1)%real) in
  let q := qform (F x_new) u_new in
  fst (geodesic_step K F P x u dtau) = x_new /\
  ((q <? lit 0 0)%real = true ->
   snd (geodesic_step K F P x u dtau)
   = vmap (fun ui => (ui * (lit 1 0 / rsqrt (- q)))%real) u_new) /\
  ((lit 0 0 <=? q)%real = true ->
   snd (geodesic_step K F P x u dtau) = u_new) /\
  (forall (KR : Constants R) (FR : IMetricField R)
          (PR : option (IPotential R)) (xR uR : vec4 R) (dR : R),
     let xu := geodesic_step KR FR PR xR uR dR in
     let uR_new := snd (fst (verlet_update KR FR PR xR uR dR)) in
     (qform (FR (fst xu)) uR_new < 0)%R ->
     qform (FR (fst xu)) (snd xu) = (-1)%R).
Proof.
  intros M a0 u_half x_new M1 a1 u_new q.
  split; [|split; [|split]].
  - reflexivity.
  - intros Hq.
    unfold geodesic_step, verlet_update. cbv beta iota zeta.
    fold M. fold a0. fold u_half. fold x_new. fold M1. fold a1. fold u_new.
    cbn [fst snd]. unfold renormalize_timelike.
    change (g M1) with (F x_new). fold q.
    change (PrimFloat.ltb q 0 = true) in Hq.
    change (lit 0 0 <=? q)%real with (PrimFloat.leb 0 q).
    rewrite (float_lt_not_ge q Hq). reflexivity.
  - intros Hq.
    unfold geodesic_step, verlet_update. cbv beta iota zeta.
    fold M. fold a0. fold u_half. fold x_new. fold M1. fold a1. fold u_new.
    cbn [fst snd]. unfold renormalize_timelike.
    change (g M1) with (F x_new). fold q.
    rewrite Hq. reflexivity.
  - intros KR FR PR xR uR dR xu uR_new. subst xu uR_new.
    unfold geodesic_step, verlet_update. cbv beta iota zeta.
    cbn [fst snd g prepare_metric].
    apply renormalize_on_shell.
Qed.

Lemma geodesic_step_renormalization_witness :
  snd (geodesic_step default_constants MinkowskiField None origin
                     (mkV4 2 0 0 0)%float tenth) = u_rest /\
  snd (geodesic_step default_constants MinkowskiField None origin
                     (mkV4 0 1 0 0)%float tenth) = (mkV4 0 1 0 0)%float.
Proof.
  destruct (geodesic_step_renormalization default_constants MinkowskiField None
              origin (mkV4 2 0 0 0)%float tenth) as [_ [Hneg _]].
  destruct (geodesic_step_renormalization default_constants MinkowskiField None
              origin (mkV4 0 1 0 0)%float tenth) as [_ [_ [Hpos _]]].
  split.
  - rewrite Hneg by (vm_compute; reflexivity). vm_compute. reflexivity.
  - rewrite Hpos by (vm_compute; reflexivity). vm_compute. reflexivity.
Defined.

(** C5.  When the four matrices [dg[a]] of a [MetricPack] are symmetric,
    [christoffel] returns coefficients that are exactly symmetric in the
    lower index pair, in double precision: [G[mu][a][b] = G[mu][b][a]]. *)
Theorem christoffel_lower_symmetric (M : MetricPack float) :
  (forall a, symmetric (get a (dg M))) ->
  forall mu a b, Gget (christoffel M) mu a b = Gget (christoffel M) mu b a.
Proof.
  apply christoffel_symmetric_comm. exact float_add_comm.
Qed.

Lemma christoffel_lower_symmetric_witness :
  (forall a, symmetric (get a (dg (prepare_metric default_constants slope_field origin)))) /\
  Gget (christoffel (prepare_metric default_constants slope_field origin)) I1 I0 I1
  = Gget (christoffel (prepare_metric default_constants slope_field origin)) I1 I1 I0.
Proof.
  assert (H : forall a, symmetric (get a (dg (prepare_metric default_constants slope_field origin)))).
  { intros a i j. destruct a, i, j; vm_compute; reflexivity. }
  split; [exact H|].
  exact (christoffel_lower_symmetric _ H I1 I0 I1).
Defined.

(** C6, refuted as stated.  For the conformally flat field
    [(1 + t + 2x + 3y) * eta] at the point [(1,1,1,1)], the components
    [R[2][0][0][2]] and [-R[2][0][2][0]] computed in double precision
    differ (in the last bit). *)
Lemma riemann_antisymmetry_rounding :
  PrimFloat.eqb
    (Rget (riemann_at default_constants conformal_field ones) I2 I0 I0 I2)
    (- Rget (riemann_at default_constants conformal_field ones) I2 I0 I2 I0)
  = false.
Proof. vm_compute. reflexivity. Qed.

(** C6, amended.  In exact real arithmetic the tensor returned by
    [riemann_at] is antisymmetric in its last two indices, for every
    metric field and every point.  (In double precision the two components
    are the same terms accumulated in a different order, so they agree
    only up to rounding.) *)
Theorem riemann_antisymmetric_exact
  (K : Constants R) (F : IMetricField R) (x : vec4 R) (mu nu a b : idx) :
  Rget (riemann_at K F x) mu nu a b = (- Rget (riemann_at K F x) mu nu b a)%R.
Proof.
  unfold riemann_at, Rget. rewrite !get_tab.
  apply riemann_component_antisymmetric_exact.
Qed.

(** C7.  In double precision, [inverse] returns [false] at the default
    tolerance [1e-14] for every matrix with a row of zeros, and leaves its
    output argument [Ainv] as it was; and for every tolerance it returns
    [false] whenever an elimination step is reached at which the largest
    pivot candidate of the current column is below the tolerance. *)
Theorem inverse_reports_failure (A Ainv0 : mat4 float) (d0 c0 : float) :
  (forall r, zero_row A r ->
     r_ok (inverse A Ainv0 d0 c0 inverse_default_eps) = false /\
     r_Ainv (inverse A Ainv0 d0 c0 inverse_default_eps) = Ainv0) /\
  (forall eps k st,
     state_at_step eps A k = Some st ->
     (snd (pivot_of st k) <? eps)%real = true ->
     r_ok (inverse A Ainv0 d0 c0 eps) = false).
Proof.
  split.
  - intros r Hz.
    assert (H : r_ok (inverse A Ainv0 d0 c0 inverse_default_eps) = false).
    { apply (inverse_zero_row inverse_default_eps) with (r := r); [|exact Hz].
      intros z Hzero. destruct (float_is_zero_cases z Hzero) as [-> | ->];
        vm_compute; reflexivity. }
    split; [exact H|]. now apply inverse_failure_keeps_output in H.
  - intros eps k st. apply inverse_small_pivot.
Qed.

Lemma inverse_reports_failure_witness :
  zero_row zero_row_matrix I2 /\
  r_ok (inverse zero_row_matrix mat4_zero 0%float 0%float inverse_default_eps)
  = false.
Proof.
  assert (H : zero_row zero_row_matrix I2) by (intros c; destruct c; reflexivity).
  split; [exact H|].
  exact (proj1 (proj1 (inverse_reports_failure zero_row_matrix mat4_zero
                         0%float 0%float) I2 H)).
Defined.

(** C8, refuted as stated.  The matrix [near_singular] is symmetric and
    non-singular ([inverse] succeeds at the default tolerance, [det] is not
    zero), yet the Cholesky check rejects its square computed in double
    precision. *)
Lemma pd_proxy_square_not_pd :
  symmetric near_singular /\
  r_ok (inverse near_singular mat4_zero 0%float 0%float inverse_default_eps)
  = true /\
  PrimFloat.eqb (det near_singular) 0%float = false /\
  fst (cholesky4 (pd_proxy_square near_singular) 0%float) = false /\
  pd_ok (check_pd (pd_proxy_square near_singular)) = false.
Proof.
  split; [intros i j; destruct i, j; reflexivity|].
  vm_compute. repeat split; reflexivity.
Qed.

(** C8, amended.  [pd_proxy_square(g)] is exactly symmetric for every
    symmetric [g], in double precision as in exact arithmetic; the Cholesky
    check accepts it for [g = eta] in double precision, and in exact real
    arithmetic for every symmetric non-singular [g].  (In double precision
    the check can reject the square of an ill-conditioned non-singular
    matrix.) *)
Theorem pd_proxy_square_symmetric_pd :
  (forall gm : sym4 float, symmetric gm -> symmetric (pd_proxy_square gm)) /\
  pd_ok (check_pd (pd_proxy_square (minkowski_eta : sym4 float))) = true /\
  (forall gm : sym4 R,
     symmetric gm -> nonsingular gm ->
     symmetric (pd_proxy_square gm) /\
     pd_ok (check_pd (pd_proxy_square gm)) = true).
Proof.
  split; [|split].
  - intros gm. apply mul_self_symmetric_comm. exact float_mul_comm.
  - vm_compute. reflexivity.
  - intros gm S N.
    assert (S2 : symmetric (pd_proxy_square gm)).
    { apply mul_self_symmetric_comm; [|exact S]. exact Rmult_comm. }
    split; [exact S2|].
    rewrite pd_ok_check_pd. apply cholesky4_spd; [exact S2|].
    intros v Hv. now apply qform_square_pos.
Qed.

Lemma pd_proxy_square_symmetric_pd_witness :
  symmetric (minkowski_eta : sym4 R) /\
  nonsingular (minkowski_eta : sym4 R) /\
  pd_ok (check_pd (pd_proxy_square (minkowski_eta : sym4 R))) = true.
Proof.
  assert (S : symmetric (minkowski_eta : sym4 R))
    by (intros i j; destruct i, j; reflexivity).
  split; [exact S|]. split; [exact minkowski_nonsingular_exact|].
  exact (proj2 (proj2 (proj2 pd_proxy_square_symmetric_pd) minkowski_eta S
                      minkowski_nonsingular_exact)).
Defined.

(** C9.  [rk4_geodesic] updates the state exactly as [geodesic_step] does. *)
Theorem rk4_geodesic_is_geodesic_step
  (real : Type) (RR : Real real) (K : Constants real) (F : IMetricField real)
  (P : option (IPotential real)) (x u : vec4 real) (dtau : real) :
  rk4_geodesic K F x u dtau P = geodesic_step K F P x u dtau.
Proof.
  unfold rk4_geodesic. reflexivity.
Qed.

(** C10.  When [prepare_metric] reports that the inversion failed, the
    [g_inv] field of the pack is the zero matrix. *)
Theorem prepare_metric_failure_zero_inverse
  (real : Type) (RR : Real real) (K : Constants real) (F : IMetricField real)
  (x : vec4 real) :
  inv_ok (prepare_metric K F x) = false ->
  g_inv (prepare_metric K F x) = mat4_zero.
Proof.
  unfold prepare_metric. cbn [inv_ok g_inv]. intros H.
  now apply inverse_failure_keeps_output in H.
Qed.

Lemma prepare_metric_failure_zero_inverse_witness :
  inv_ok (prepare_metric default_constants null_field origin) = false /\
  g_inv (prepare_metric default_constants null_field origin) = mat4_zero.
Proof.
  split; [reflexivity|].
  exact (prepare_metric_failure_zero_inverse float binary64 default_constants
           null_field origin eq_refl).
Defined.

End Claims.

(* ------------------------------------------------------------------ *)
(** ** Correctness, edge cases and algebraic laws of the library

    Statements at [float] are about the code as compiled by default
    (IEEE-754 double precision); statements at [R] are about the same
    code read in exact arithmetic. *)
(* ------------------------------------------------------------------ *)

Module Extras.
Import Inputs Binary64 ExactR ExactGeometry ExactCholesky Binary64Geometry.
Import ExactDet ExactInverse ExactJacobi Binary64Order ExactFlat ExactRepair.
Import ExactSignature ExactNorm ExactEval.

(** *** Auxiliary facts about the inputs of the examples *)

Lemma identity_symmetric_exact : symmetric (identity : mat4 R).
Proof. intros i j; destruct i, j; reflexivity. Qed.

Lemma identity_positive_definite : positive_definite identity.
Proof.
  intros v Hv.
  assert (E : qform identity v
              = (get I0 v * get I0 v + get I1 v * get I1 v
                 + get I2 v * get I2 v + get I3 v * get I3 v)%R).
  { destruct v as [v0 v1 v2 v3]. cbv [qform identity sum_over all_idx fold_left
      mget mtab tab get idx_eqb idx_nat Nat.eqb].
    cbn [radd rmul exactR e0 e1 e2 e3]. rewrite ?R_lit_0, ?R_lit_1. ring. }
  rewrite E.
  destruct (Req_dec (get I0 v) 0) as [Z0|N0];
    [destruct (Req_dec (get I1 v) 0) as [Z1|N1];
     [destruct (Req_dec (get I2 v) 0) as [Z2|N2];
      [destruct (Req_dec (get I3 v) 0) as [Z3|N3]|]|]|].
  - exfalso. apply Hv. apply V4_ext. intros i. unfold vec4_zero.
    rewrite get_tab, R_lit_0. destruct i; assumption.
  - nra.
  - nra.
  - nra.
  - nra.
Qed.

Lemma cholesky4_identity_ok :
  fst (cholesky4 (identity : mat4 R) (lit 0 0)) = true.
Proof.
  apply cholesky4_spd;
    [exact identity_symmetric_exact | exact identity_positive_definite].
Qed.

Lemma R_lit_tol12_le : (@lit R exactR 1 (-12) <= 1)%R.
Proof. change (@lit R exactR 1 (-12)) with (1 / 1000000000000)%R. lra. Qed.

Lemma R_lit_tol14_small : (forall x : R, is_zero x ->
  (rabs x <? @lit R exactR 1 (-14))%real = true).
Proof.
  intros x Hx. unfold is_zero in Hx. apply R_eqb_true in Hx.
  rewrite R_lit_0 in Hx. subst x. cbn [rabs rltb exactR].
  apply R_ltb_lt. rewrite Rabs_R0. exact R_lit_tol14.
Qed.

Lemma prepare_zero_fails (K : Constants R) (y : vec4 R) :
  inv_ok (prepare_metric K (fun _ => mat4_zero) y) = false.
Proof.
  unfold prepare_metric. cbn [inv_ok].
  apply (@inverse_zero_row R exactR _ R_lit_tol14_small) with (r := I0).
  intros c. unfold is_zero, mat4_zero. rewrite mget_mtab.
  apply R_eqb_eq. reflexivity.
Qed.

(* ------------------------------------------------------------------ *)
(** *** linalg.hpp *)
(* ------------------------------------------------------------------ *)

(** X1.  In double precision, [transpose] is an involution, the transpose
    of a product is the product of the transposes in reverse order, and
    [A * transpose(A)] is exactly symmetric, for all matrices (including
    those with infinite or NaN entries). *)
Theorem transpose_laws (A B : mat4 float) :
  transpose (transpose A) = A /\
  transpose (mul A B) = mul (transpose B) (transpose A) /\
  symmetric (mul A (transpose A)).
Proof.
  split; [apply transpose_involutive|].
  split; [apply mul_transpose_comm; exact float_mul_comm|].
  apply gram_symmetric_comm; exact float_mul_comm.
Qed.

(** X2.  In double precision, every way the library builds a [sym4] gives
    an exactly symmetric matrix: the symmetrising constructor
    [sym4(const mat4&)], [sym4::from_diag], [minkowski_eta], the pull-back
    [from_A] and [to_sym4] (which computes the same matrix as the
    constructor). *)
Theorem sym4_constructors_symmetric (A : mat4 float) (a0 a1 a2 a3 : float) :
  symmetric (sym4_of A) /\
  to_sym4 A = sym4_of A /\
  symmetric (from_A A) /\
  symmetric (from_diag a0 a1 a2 a3) /\
  symmetric (minkowski_eta : sym4 float).
Proof.
  split; [apply sym4_of_symmetric_comm; exact float_add_comm|].
  split; [reflexivity|].
  split; [apply sym4_of_symmetric_comm; exact float_add_comm|].
  split; apply from_diag_symmetric.
Qed.

(** X3.  Partial pivoting in double precision: the pivot row chosen for
    column [k] is at or below the diagonal, the recorded magnitude is the
    absolute value of its entry, and no entry of the column at or below
    the diagonal has a strictly larger absolute value (whatever the
    entries are, NaN included). *)
Theorem pivot_search_maximal (col : idx -> float) (k : idx) :
  idx_leb k (fst (pivot_search col k)) = true /\
  snd (pivot_search col k) = PrimFloat.abs (col (fst (pivot_search col k))) /\
  forall r, idx_leb k r = true ->
    PrimFloat.ltb (snd (pivot_search col k)) (PrimFloat.abs (col r)) = false.
Proof.
  destruct (pivot_search_spec col k) as [E L].
  split; [exact L|]. split; [exact E|].
  intros r Hr. apply pivot_search_max. exact Hr.
Qed.

(** X4.  In exact arithmetic, [det] (Gaussian elimination with partial
    pivoting, with its early return of zero when a pivot vanishes) computes
    the determinant: its result is the cofactor expansion of the matrix. *)
Theorem det_is_determinant (A : mat4 R) : det A = laplace_det A.
Proof. apply det_is_laplace_det. Qed.

(** X5.  In exact arithmetic, [det] is multiplicative over [mul], is
    invariant under [transpose], and is 1 on [identity]. *)
Theorem det_algebra (A B : mat4 R) :
  det (mul A B) = (det A * det B)%R /\
  det (transpose A) = det A /\
  det (identity : mat4 R) = 1%R.
Proof.
  rewrite !det_is_laplace_det.
  split; [apply laplace_det_mul|].
  split; [apply laplace_det_transpose | apply laplace_det_identity].
Qed.

(** X6.  In exact arithmetic and for a positive tolerance, when [inverse]
    reports success the matrix it writes to [Ainv] is the two-sided
    inverse of [A], the value it writes to [det_out] is the determinant of
    [A] (the value [det] returns), and that determinant is not zero. *)
Theorem inverse_correct (A Ainv0 : mat4 R) (d0 c0 eps : R) :
  (0 < eps)%R ->
  r_ok (inverse A Ainv0 d0 c0 eps) = true ->
  mul (r_Ainv (inverse A Ainv0 d0 c0 eps)) A = identity /\
  mul A (r_Ainv (inverse A Ainv0 d0 c0 eps)) = identity /\
  r_det (inverse A Ainv0 d0 c0 eps) = det A /\
  det A <> 0%R.
Proof.
  intros He Hok. rewrite det_is_laplace_det.
  apply inverse_exact; assumption.
Qed.

Lemma inverse_correct_witness :
  (0 < @lit R exactR 1 (-14))%R /\
  r_ok (inverse (identity : mat4 R) mat4_zero 0%R 0%R (lit 1 (-14))) = true /\
  mul (r_Ainv (inverse (identity : mat4 R) mat4_zero 0%R 0%R (lit 1 (-14))))
      identity = identity.
Proof.
  split; [exact R_lit_tol14|].
  split; [apply inverse_identity_ok|].
  destruct (inverse_correct identity mat4_zero 0%R 0%R (lit 1 (-14))
              R_lit_tol14 (inverse_identity_ok mat4_zero 0%R 0%R))
    as (L & _).
  exact L.
Defined.

(** X7.  In exact arithmetic, [norm_inf] is the largest absolute row sum
    of the matrix.  When [inverse] succeeds (positive tolerance) with an
    output object other than [A], the condition estimate it writes to
    [out_cond_inf] is the product of the norms of [A] and of the computed
    inverse, and is at least 1.  When it is called in place,
    [inverse(A, A, ...)], the matrix written is still the inverse of the
    original [A], but the estimate is the square of the norm of the
    inverse, because [norm_inf(A)] is read after [Ainv] is written; in
    double precision the in-place call on [diag(2,2,2,2)] succeeds with
    the estimate [0.25]. *)
Theorem condition_estimate (A Ainv0 : mat4 R) (d0 c0 eps : R) :
  (forall r, row_sum A r <= norm_inf A)%R /\
  (exists r, norm_inf A = row_sum A r) /\
  ((0 < eps)%R ->
   r_ok (inverse A Ainv0 d0 c0 eps) = true ->
   r_cond_inf (inverse A Ainv0 d0 c0 eps)
   = (norm_inf A * norm_inf (r_Ainv (inverse A Ainv0 d0 c0 eps)))%R /\
   (1 <= r_cond_inf (inverse A Ainv0 d0 c0 eps))%R) /\
  ((0 < eps)%R ->
   r_ok (inverse_in_place A d0 c0 eps) = true ->
   mul (r_Ainv (inverse_in_place A d0 c0 eps)) A = identity /\
   mul A (r_Ainv (inverse_in_place A d0 c0 eps)) = identity /\
   r_cond_inf (inverse_in_place A d0 c0 eps)
   = (norm_inf (r_Ainv (inverse_in_place A d0 c0 eps))
      * norm_inf (r_Ainv (inverse_in_place A d0 c0 eps)))%R) /\
  (r_ok (inverse_in_place (from_diag 2%float 2%float 2%float 2%float) 0%float 0%float
                          inverse_default_eps) = true /\
   r_cond_inf (inverse_in_place (from_diag 2%float 2%float 2%float 2%float) 0%float 0%float
                                inverse_default_eps) = 0.25%float).
Proof.
  destruct (norm_inf_spec A) as [U W].
  split; [exact U|]. split; [exact W|]. split; [|split].
  - intros He Hok.
    split; [apply inverse_cond_formula; exact Hok|].
    apply inverse_cond_ge_one; assumption.
  - intros He Hok.
    destruct (inverse_in_place_result A d0 c0 eps) as (E1 & E2 & _ & E4).
    rewrite E1 in Hok.
    destruct (inverse_exact A A d0 c0 eps He Hok) as (L & R & _).
    rewrite E2. rewrite <- E2 at 3 4.
    split; [exact L|]. split; [exact R|].
    apply E4. rewrite E1. exact Hok.
  - split; vm_compute; reflexivity.
Qed.

Lemma condition_estimate_witness :
  (0 < @lit R exactR 1 (-14))%R /\
  r_ok (inverse (identity : mat4 R) mat4_zero 0%R 0%R (lit 1 (-14))) = true /\
  (1 <= r_cond_inf
          (inverse (identity : mat4 R) mat4_zero 0%R 0%R (lit 1 (-14))))%R.
Proof.
  split; [exact R_lit_tol14|].
  split; [apply inverse_identity_ok|].
  destruct (condition_estimate identity mat4_zero 0%R 0%R (lit 1 (-14)))
    as (_ & _ & C & _).
  destruct (C R_lit_tol14 (inverse_identity_ok mat4_zero 0%R 0%R)) as [_ C1].
  exact C1.
Defined.

(* ------------------------------------------------------------------ *)
(** *** eigen_jacobi.hpp *)
(* ------------------------------------------------------------------ *)

(** X8.  In double precision, [max_offdiag_abs] returns a position [(p,q)]
    strictly above the diagonal together with the absolute value of the
    entry there, and no entry above the diagonal has a strictly larger
    absolute value. *)
Theorem max_offdiag_abs_maximal (A : mat4 float) :
  let '(p, q, v) := max_offdiag_abs A in
  idx_ltb p q = true /\
  v = PrimFloat.abs (mget A p q) /\
  forall i j, idx_ltb i j = true ->
    PrimFloat.ltb v (PrimFloat.abs (mget A i j)) = false.
Proof.
  pose proof (max_offdiag_abs_spec A) as H.
  pose proof (max_offdiag_abs_max A) as M.
  destruct (max_offdiag_abs A) as [[p q] v]. cbn [snd] in M.
  destruct H as [H1 H2]. split; [exact H1|]. split; [exact H2|exact M].
Qed.

(** X9.  One Jacobi rotation in double precision: it does nothing when
    [p = q] or when the entry [(p,q)] is zero; otherwise it leaves exact
    zeros at [(p,q)] and [(q,p)]; and in every case it maps a symmetric
    matrix to an exactly symmetric one. *)
Theorem jacobi_rotate_effect (A Q : mat4 float) (p q : idx) :
  (idx_eqb p q = true \/ PrimFloat.eqb (mget A p q) 0 = true ->
   jacobi_rotate A Q p q = (A, Q)) /\
  (idx_eqb p q = false -> PrimFloat.eqb (mget A p q) 0 = false ->
   mget (fst (jacobi_rotate A Q p q)) p q = 0%float /\
   mget (fst (jacobi_rotate A Q p q)) q p = 0%float) /\
  (symmetric A -> symmetric (fst (jacobi_rotate A Q p q))).
Proof.
  split; [intros H; apply jacobi_rotate_noop; exact H|].
  split; [intros Hpq Hz; exact (jacobi_rotate_annihilates A Q p q Hpq Hz)|].
  apply jacobi_rotate_symmetric.
Qed.

Lemma jacobi_rotate_effect_witness :
  idx_eqb I0 I1 = false /\
  PrimFloat.eqb (mget near_singular I0 I1) 0 = false /\
  mget (fst (jacobi_rotate near_singular identity I0 I1)) I0 I1 = 0%float.
Proof.
  split; [reflexivity|]. split; [reflexivity|].
  destruct (jacobi_rotate_effect near_singular identity I0 I1)
    as (_ & Z & _).
  destruct (Z eq_refl eq_refl) as [Z1 _]. exact Z1.
Defined.

(** X10.  In exact arithmetic, for every symmetric input, every sweep
    limit and every tolerance, [jacobi_symmetric_4x4] returns an orthogonal
    matrix [Q] and a vector [lam] that is the diagonal of
    [transpose(Q) * A * Q]; the sum of the entries of [lam] is the trace
    of [A]. *)
Theorem jacobi_orthogonal_similarity (A0 : mat4 R) (n : nat) (tol : R) :
  symmetric A0 ->
  let Q := fst (jacobi_symmetric_4x4 A0 n tol) in
  let lam := snd (jacobi_symmetric_4x4 A0 n tol) in
  mul (transpose Q) Q = identity /\
  mul Q (transpose Q) = identity /\
  (forall i, get i lam = mget (mul (mul (transpose Q) A0) Q) i i) /\
  (get I0 lam + get I1 lam + get I2 lam + get I3 lam)%R = trace A0.
Proof. apply jacobi_symmetric_exact. Qed.

Lemma jacobi_orthogonal_similarity_witness :
  symmetric (identity : mat4 R) /\
  mul (transpose (fst (jacobi_symmetric_4x4 (identity : mat4 R) 32 (lit 1 (-12)))))
      (fst (jacobi_symmetric_4x4 (identity : mat4 R) 32 (lit 1 (-12))))
  = identity.
Proof.
  split; [exact identity_symmetric_exact|].
  destruct (jacobi_orthogonal_similarity identity 32 (lit 1 (-12))
              identity_symmetric_exact) as (O & _).
  exact O.
Defined.

(** X11.  In double precision, for a matrix whose entries above the
    diagonal are all (positive or negative) zero and a positive tolerance,
    [jacobi_symmetric_4x4] performs no rotation: it returns the identity
    and the diagonal of the input, bit for bit, for every sweep limit. *)
Theorem jacobi_diagonal_input (D : mat4 float) (n : nat) (tol : float) :
  (forall i j, idx_ltb i j = true -> fzero (mget D i j)) ->
  PrimFloat.ltb 0 tol = true ->
  jacobi_symmetric_4x4 D n tol = (identity, tab (fun i => mget D i i)).
Proof. apply jacobi_diagonal. Qed.

Lemma jacobi_diagonal_input_witness :
  (forall i j, idx_ltb i j = true ->
     fzero (mget (minkowski_eta : sym4 float) i j)) /\
  PrimFloat.ltb 0 (@lit float binary64 1 (-14)) = true /\
  jacobi_symmetric_4x4 (minkowski_eta : sym4 float) 64 (@lit float binary64 1 (-14))
  = (identity, tab (fun i => mget (minkowski_eta : sym4 float) i i)).
Proof.
  assert (H : forall i j, idx_ltb i j = true ->
                fzero (mget (minkowski_eta : sym4 float) i j)).
  { intros i j Hij. destruct i, j; try discriminate Hij; left; reflexivity. }
  split; [exact H|]. split; [reflexivity|].
  exact (jacobi_diagonal_input minkowski_eta 64 (@lit float binary64 1 (-14))
           H eq_refl).
Defined.

(* ------------------------------------------------------------------ *)
(** *** metric.hpp *)
(* ------------------------------------------------------------------ *)

(** X12.  In double precision, [validate_signature] at its default
    tolerance [1e-10] counts the inertia (1,3,0) on every diagonal matrix
    [from_diag(a0,a1,a2,a3)] with [a0 < -1e-10] and [a1, a2, a3 > 1e-10]. *)
Theorem validate_signature_diagonal_lorentzian (a0 a1 a2 a3 : float) :
  PrimFloat.ltb a0 (- @validate_default_eps float binary64) = true ->
  PrimFloat.ltb (@validate_default_eps float binary64) a1 = true ->
  PrimFloat.ltb (@validate_default_eps float binary64) a2 = true ->
  PrimFloat.ltb (@validate_default_eps float binary64) a3 = true ->
  validate_signature (from_diag a0 a1 a2 a3) validate_default_eps
  = (1, 3, 0)%Z.
Proof. apply validate_signature_lorentzian. Qed.

Lemma validate_signature_diagonal_lorentzian_witness :
  PrimFloat.ltb (-2)%float (- @validate_default_eps float binary64) = true /\
  PrimFloat.ltb (@validate_default_eps float binary64) 3%float = true /\
  validate_signature (from_diag (-2) 3 3 3)%float validate_default_eps
  = (1, 3, 0)%Z.
Proof.
  split; [reflexivity|]. split; [reflexivity|].
  exact (validate_signature_diagonal_lorentzian (-2) 3 3 3 eq_refl eq_refl
           eq_refl eq_refl)%float.
Defined.

(** X13.  In exact arithmetic, [from_A(A)] is the pull-back of the
    Minkowski form along [A]: its quadratic form at [v] is the Minkowski
    quadratic form at [A v]. *)
Theorem from_A_is_pullback (A : mat4 R) (v : vec4 R) :
  qform (from_A A) v = qform (minkowski_eta : sym4 R) (mulv A v).
Proof. apply from_A_pullback. Qed.

(** X14.  The index to which [project_signature] gives the negative sign
    (exact arithmetic): [choose_negative] always finds one; when some
    eigenvalue is negative it is a negative eigenvalue of largest
    magnitude among the negative ones; when none is negative it is an
    eigenvalue of smallest magnitude. *)
Theorem choose_negative_selection (lam : vec4 R) :
  exists j, choose_negative lam = Some j /\
    ((exists i, (get i lam < 0)%R) ->
       (get j lam < 0)%R /\
       forall i, (get i lam < 0)%R -> (Rabs (get i lam) <= Rabs (get j lam))%R) /\
    ((forall i, (0 <= get i lam)%R) ->
       forall i, (Rabs (get j lam) <= Rabs (get i lam))%R).
Proof. apply choose_negative_rule. Qed.

Lemma choose_negative_selection_witness :
  exists j, choose_negative (mkV4 (-1) 1 1 1)%R = Some j /\
            (get j (mkV4 (-1) 1 1 1) < 0)%R.
Proof.
  destruct (choose_negative_selection (mkV4 (-1) 1 1 1)%R)
    as (j & E & N & _).
  exists j. split; [exact E|].
  apply N. exists I0. cbn [get e0]. lra.
Defined.

(** X15.  In exact arithmetic, [project_signature] leaves a diagonal
    Lorentzian matrix unchanged when its entries are at least [eps] in
    magnitude: [from_diag(a0,a1,a2,a3)] with [a0 <= -eps < 0] and
    [a1, a2, a3 >= eps]. *)
Theorem project_signature_fixes_lorentzian (a0 a1 a2 a3 eps : R) :
  (a0 < 0)%R -> (0 < a1)%R -> (0 < a2)%R -> (0 < a3)%R ->
  (eps <= - a0)%R -> (eps <= a1)%R -> (eps <= a2)%R -> (eps <= a3)%R ->
  project_signature (from_diag a0 a1 a2 a3) eps = from_diag a0 a1 a2 a3.
Proof. apply project_signature_diagonal. Qed.

Lemma project_signature_fixes_lorentzian_witness :
  (-1 < 0)%R /\ (0 < 1)%R /\ (@lit R exactR 1 (-9) <= - -1)%R /\
  (@lit R exactR 1 (-9) <= 1)%R /\
  project_signature (from_diag (-1) 1 1 1)%R project_default_eps
  = from_diag (-1)%R 1%R 1%R 1%R.
Proof.
  pose proof R_lit_eps9 as [_ H9].
  split; [lra|]. split; [lra|].
  split; [replace (- -1)%R with 1%R by ring; exact H9|].
  split; [exact H9|].
  assert (N : (-1 < 0)%R) by lra. assert (P : (0 < 1)%R) by lra.
  assert (H9' : (@lit R exactR 1 (-9) <= - -1)%R)
    by (replace (- -1)%R with 1%R by ring; exact H9).
  exact (project_signature_fixes_lorentzian (-1) 1 1 1 (lit 1 (-9))
           N P P P H9' H9 H9 H9).
Defined.

(* ------------------------------------------------------------------ *)
(** *** field.hpp, deriv.hpp, connection.hpp, curvature.hpp, quadform.hpp *)
(* ------------------------------------------------------------------ *)

(** X16.  In double precision, for a metric field that is symmetric at
    every point, the four finite-difference matrices computed by
    [dmetric4] are exactly symmetric, and so the Christoffel symbols
    computed from [prepare_metric] are exactly symmetric in their lower
    indices. *)
Theorem symmetric_field_connection
  (K : Constants float) (F : IMetricField float) (x : vec4 float) :
  (forall y, symmetric (F y)) ->
  (forall a, symmetric (get a (dmetric4 F x (fd_h K)))) /\
  forall mu a b,
    Gget (christoffel (prepare_metric K F x)) mu a b
    = Gget (christoffel (prepare_metric K F x)) mu b a.
Proof.
  intros HF.
  assert (S : forall a, symmetric (get a (dmetric4 F x (fd_h K))))
    by (apply dmetric4_symmetric; exact HF).
  split; [exact S|].
  apply christoffel_symmetric_comm; [exact float_add_comm | exact S].
Qed.

Lemma symmetric_field_connection_witness :
  (forall y, symmetric (slope_field y)) /\
  Gget (christoffel (prepare_metric default_constants slope_field origin)) I1 I0 I1
  = Gget (christoffel (prepare_metric default_constants slope_field origin)) I1 I1 I0.
Proof.
  assert (H : forall y, symmetric (slope_field y)).
  { intros y i j. unfold slope_field. destruct i, j; reflexivity. }
  split; [exact H|].
  destruct (symmetric_field_connection default_constants slope_field origin H)
    as [_ S].
  exact (S I1 I0 I1).
Defined.

(** X17.  In exact arithmetic, the central difference [gradV] is exact on
    the quadratic [RadialPotential]: for every non-zero step [h] it
    returns [(0, k x, k y, k z)]. *)
Theorem gradV_radial (k h : R) (x : vec4 R) :
  h <> 0%R ->
  gradV (RadialPotential k) x h
  = mkV4 0%R (k * get I1 x)%R (k * get I2 x)%R (k * get I3 x)%R.
Proof. apply gradV_radial_exact. Qed.

Lemma gradV_radial_witness :
  1%R <> 0%R /\
  gradV (RadialPotential 2%R) (mkV4 0 1 2 3)%R 1%R
  = mkV4 0%R (2 * get I1 (mkV4 0 1 2 3))%R (2 * get I2 (mkV4 0 1 2 3))%R
         (2 * get I3 (mkV4 0 1 2 3))%R.
Proof.
  assert (N : 1%R <> 0%R) by lra.
  split; [exact N|]. exact (gradV_radial 2 1 (mkV4 0 1 2 3) N)%R.
Defined.

(** X18.  Passing [ZeroPotential] is the same as passing no potential: in
    exact arithmetic [geodesic_step] returns the same state for every
    field and every input; in double precision [accel] returns the same
    vector, bit for bit, when the inverse metric has finite entries (and
    [0.5 / fd_h] is finite). *)
Theorem zero_potential_is_no_potential :
  (forall (K : Constants R) (F : IMetricField R) (x u : vec4 R) (dtau : R),
     geodesic_step K F (Some ZeroPotential) x u dtau
     = geodesic_step K F None x u dtau) /\
  (forall (K : Constants float) (M : MetricPack float) (G : Gamma float)
          (u x : vec4 float),
     PrimFloat.is_finite (lit 5 (-1) / fd_h K)%real = true ->
     (forall mu nu, PrimFloat.is_finite (mget (g_inv M) mu nu) = true) ->
     accel K M G u (Some ZeroPotential) x = accel K M G u None x).
Proof.
  split.
  - apply geodesic_step_zero_potential_exact.
  - apply accel_zero_potential.
Qed.

Lemma zero_potential_is_no_potential_witness :
  PrimFloat.is_finite (lit 5 (-1) / fd_h (@default_constants float binary64))%real
  = true /\
  (forall mu nu,
     PrimFloat.is_finite
       (mget (g_inv (prepare_metric default_constants MinkowskiField origin))
             mu nu) = true) /\
  accel default_constants
        (prepare_metric default_constants MinkowskiField origin)
        zero_gamma u_rest (Some ZeroPotential) origin
  = accel default_constants
          (prepare_metric default_constants MinkowskiField origin)
          zero_gamma u_rest None origin.
Proof.
  assert (H : forall mu nu,
     PrimFloat.is_finite
       (mget (g_inv (prepare_metric default_constants MinkowskiField origin))
             mu nu) = true).
  { intros mu nu. destruct mu, nu; vm_compute; reflexivity. }
  assert (Fh : PrimFloat.is_finite
                 (lit 5 (-1) / fd_h (@default_constants float binary64))%real
               = true) by (vm_compute; reflexivity).
  split; [exact Fh|]. split; [exact H|].
  destruct zero_potential_is_no_potential as [_ Z].
  exact (Z default_constants
           (prepare_metric default_constants MinkowskiField origin)
           zero_gamma u_rest origin Fh H).
Defined.

(** X19.  In exact arithmetic, a constant metric field is flat whatever
    the constant matrix is (singular or not): all Christoffel symbols, all
    components of the Riemann tensor, the Ricci tensor, the curvature
    scalar and the Einstein tensor computed by the library are zero. *)
Theorem constant_field_is_flat (K : Constants R) (G0 : sym4 R) (x : vec4 R) :
  (forall mu a b,
     Gget (christoffel (prepare_metric K (fun _ => G0) x)) mu a b = 0%R) /\
  (forall mu nu a b, Rget (riemann_at K (fun _ => G0) x) mu nu a b = 0%R) /\
  (forall a b, mget (ricci (riemann_at K (fun _ => G0) x)) a b = 0%R) /\
  curv_scalar K (fun _ => G0) x = 0%R /\
  einstein_at K (fun _ => G0) x = mat4_zero.
Proof.
  split; [intros; apply christoffel_constant_exact|].
  split; [intros; apply riemann_constant_exact|].
  split; [intros; apply ricci_constant_exact|].
  split; [apply curv_scalar_constant_exact | apply einstein_constant_exact].
Qed.

(** X20.  In double precision, for the Minkowski field at every point
    (whenever [0.5 / fd_h] is finite), the Riemann tensor, the Ricci
    tensor, the curvature scalar and the Einstein tensor are computed as
    exact positive zeros. *)
Theorem minkowski_curvature_zero (K : Constants float) (x : vec4 float) :
  PrimFloat.is_finite (lit 5 (-1) / fd_h K)%real = true ->
  riemann_at K MinkowskiField x = zero_riemann /\
  ricci (riemann_at K MinkowskiField x) = mat4_zero /\
  curv_scalar K MinkowskiField x = 0%float /\
  einstein_at K MinkowskiField x = mat4_zero.
Proof. apply curvature_minkowski. Qed.

Lemma minkowski_curvature_zero_witness :
  PrimFloat.is_finite (lit 5 (-1) / fd_h (@default_constants float binary64))%real
  = true /\
  riemann_at default_constants MinkowskiField origin = zero_riemann.
Proof.
  assert (Fh : PrimFloat.is_finite
                 (lit 5 (-1) / fd_h (@default_constants float binary64))%real
               = true) by (vm_compute; reflexivity).
  split; [exact Fh|].
  destruct (minkowski_curvature_zero default_constants origin Fh) as [Z _].
  exact Z.
Defined.

(** X21.  In exact arithmetic, at a point where the inversion of the
    metric fails, the connection and the acceleration (without potential)
    are zero; and for a field whose inversion fails at every point,
    [geodesic_step] without potential moves the particle along a straight
    line: the position advances by [dtau * u] and the velocity is [u],
    renormalised at the new position. *)
Theorem singular_metric_straight_step
  (K : Constants R) (F : IMetricField R) (x u : vec4 R) (dtau : R) :
  (inv_ok (prepare_metric K F x) = false ->
   (forall mu a b, Gget (christoffel (prepare_metric K F x)) mu a b = 0%R) /\
   accel K (prepare_metric K F x) (christoffel (prepare_metric K F x)) u None x
   = vec4_zero) /\
  ((forall y, inv_ok (prepare_metric K F y) = false) ->
   geodesic_step K F None x u dtau
   = (tab (fun i => (get i x + dtau * get i u)%R),
      renormalize_timelike (F (tab (fun i => (get i x + dtau * get i u)%R))) u)).
Proof.
  split.
  - intros H.
    split; [intros; apply christoffel_singular_exact; exact H|].
    apply accel_singular_exact; exact H.
  - intros H. apply geodesic_step_singular_exact. exact H.
Qed.

Lemma singular_metric_straight_step_witness :
  (forall y, inv_ok (prepare_metric (@default_constants R exactR)
                                    (fun _ => mat4_zero) y) = false) /\
  accel default_constants
        (prepare_metric default_constants (fun _ => mat4_zero) vec4_zero)
        (christoffel
           (prepare_metric default_constants (fun _ => mat4_zero) vec4_zero))
        u_rest_exact None vec4_zero
  = vec4_zero.
Proof.
  split; [apply prepare_zero_fails|].
  destruct (singular_metric_straight_step default_constants
              (fun _ => mat4_zero) vec4_zero u_rest_exact 1%R) as [Z _].
  destruct (Z (prepare_zero_fails default_constants vec4_zero)) as [_ Z1].
  exact Z1.
Defined.

(** X22.  In exact arithmetic, when [prepare_metric] reports a successful
    inversion, raising an index with [g_inv] undoes lowering it with [g],
    and conversely. *)
Theorem raise_lower_round_trip
  (K : Constants R) (F : IMetricField R) (x v : vec4 R) :
  inv_ok (prepare_metric K F x) = true ->
  raise (g_inv (prepare_metric K F x)) (lower (g (prepare_metric K F x)) v) = v /\
  lower (g (prepare_metric K F x)) (raise (g_inv (prepare_metric K F x)) v) = v.
Proof. apply raise_lower_exact. Qed.

Lemma raise_lower_round_trip_witness :
  inv_ok (prepare_metric (@default_constants R exactR) (fun _ => identity)
                         vec4_zero) = true /\
  raise (g_inv (prepare_metric default_constants (fun _ => identity) vec4_zero))
        (lower (g (prepare_metric default_constants (fun _ => identity) vec4_zero))
               u_rest_exact)
  = u_rest_exact.
Proof.
  assert (H : inv_ok (prepare_metric (@default_constants R exactR)
                                     (fun _ => identity) vec4_zero) = true).
  { unfold prepare_metric. cbn [inv_ok]. apply inverse_identity_ok. }
  split; [exact H|].
  destruct (raise_lower_round_trip default_constants (fun _ => identity)
              vec4_zero u_rest_exact H) as [Z _].
  exact Z.
Defined.

(* ------------------------------------------------------------------ *)
(** *** integrators.hpp *)
(* ------------------------------------------------------------------ *)

(** X23.  In exact arithmetic, [renormalize_timelike] is idempotent:
    renormalising a velocity that has already been renormalised with the
    same metric changes nothing, for every matrix and every vector. *)
Theorem renormalize_timelike_idempotent (gm : mat4 R) (u : vec4 R) :
  renormalize_timelike gm (renormalize_timelike gm u)
  = renormalize_timelike gm u.
Proof. apply renormalize_idempotent_exact. Qed.

(* ------------------------------------------------------------------ *)
(** *** audits/pd_proxy.hpp *)
(* ------------------------------------------------------------------ *)

(** X24.  In exact arithmetic, when [cholesky4] (tolerance 0) accepts a
    symmetric matrix [A], the factor [L] it returns is lower triangular
    with a positive diagonal and [L * transpose(L) = A]. *)
Theorem cholesky4_factorisation (A L : mat4 R) :
  symmetric A ->
  cholesky4 A (lit 0 0) = (true, L) ->
  mul L (transpose L) = A /\
  (forall i j, idx_ltb i j = true -> mget L i j = 0%R) /\
  (forall i, (0 < mget L i i)%R).
Proof. apply cholesky4_round_trip. Qed.

Lemma cholesky4_factorisation_witness :
  symmetric (identity : mat4 R) /\
  cholesky4 (identity : mat4 R) (lit 0 0)
  = (true, snd (cholesky4 (identity : mat4 R) (lit 0 0))) /\
  mul (snd (cholesky4 (identity : mat4 R) (lit 0 0)))
      (transpose (snd (cholesky4 (identity : mat4 R) (lit 0 0))))
  = identity.
Proof.
  assert (H : cholesky4 (identity : mat4 R) (lit 0 0)
              = (true, snd (cholesky4 (identity : mat4 R) (lit 0 0)))).
  { pose proof cholesky4_identity_ok as E.
    destruct (cholesky4 (identity : mat4 R) (lit 0 0)) as [b L].
    cbn [fst snd] in *. now rewrite E. }
  split; [exact identity_symmetric_exact|]. split; [exact H|].
  destruct (cholesky4_factorisation identity _ identity_symmetric_exact H)
    as [Z _].
  exact Z.
Defined.





(** X27.  The report of [check_pd] in exact arithmetic: when it says the
    matrix is positive definite, the recorded extreme diagonal entries of
    the factor satisfy [0 < min_diagL <= max_diagL]; when it says it is
    not, both are reported as zero. *)
Theorem check_pd_report_bounds (A : mat4 R) :
  (pd_ok (check_pd A) = true ->
   (0 < min_diagL (check_pd A) <= max_diagL (check_pd A))%R) /\
  (pd_ok (check_pd A) = false ->
   min_diagL (check_pd A) = 0%R /\ max_diagL (check_pd A) = 0%R).
Proof. apply check_pd_report. Qed.

Lemma check_pd_report_bounds_witness :
  pd_ok (check_pd (identity : mat4 R)) = true /\
  (0 < min_diagL (check_pd (identity : mat4 R))
     <= max_diagL (check_pd (identity : mat4 R)))%R.
Proof.
  assert (H : pd_ok (check_pd (identity : mat4 R)) = true)
    by (rewrite pd_ok_check_pd; exact cholesky4_identity_ok).
  split; [exact H|].
  destruct (check_pd_report_bounds identity) as [B _].
  exact (B H).
Defined.

(* ------------------------------------------------------------------ *)
(** *** physics/stress_energy.hpp *)
(* ------------------------------------------------------------------ *)

(** X28.  In double precision and whatever [std::exp] returns, the tensor
    accumulated by [stress_energy_at] is exactly symmetric when the metric
    at the evaluation point is symmetric, and it is the zero matrix for an
    empty list of events.  In exact arithmetic (symmetric metric, non-zero
    [sigma]), the squared distance fed to the kernel is non-negative and
    the kernel weight lies in (0, 1]. *)
Theorem stress_energy_symmetric_weights :
  (forall (rexp : float -> float) (F : IMetricField float)
          (evs : list (@StressEnergy.Event float)) (x : vec4 float)
          (P : @StressEnergy.TSParams float),
     symmetric (F x) ->
     symmetric (StressEnergy.stress_energy_at rexp F evs x P)) /\
  (forall (rexp : float -> float) (F : IMetricField float) (x : vec4 float)
          (P : @StressEnergy.TSParams float),
     StressEnergy.stress_energy_at rexp F [] x P = mat4_zero) /\
  (forall (gm : sym4 R) (x xi : vec4 R) (sg : R),
     symmetric gm -> sg <> 0%R ->
     (0 <= StressEnergy.d2 (pd_proxy_square gm) x xi)%R /\
     (0 < StressEnergy.kernel_exp exp
            (StressEnergy.d2 (pd_proxy_square gm) x xi) sg <= 1)%R).
Proof.
  split; [intros; apply stress_energy_symmetric_comm;
          [exact float_mul_comm | assumption]|].
  split; [reflexivity|].
  intros gm x xi sg Hs Hn. apply (kernel_weight_bounds gm x xi sg Hs Hn).
Qed.

Lemma stress_energy_symmetric_weights_witness :
  symmetric (MinkowskiField origin) /\
  symmetric (StressEnergy.stress_energy_at (fun t : float => t) MinkowskiField
               [StressEnergy.Build_Event origin u_rest 1%float 1%float]
               origin StressEnergy.default_params).
Proof.
  assert (H : symmetric (MinkowskiField origin)).
  { intros i j; destruct i, j; reflexivity. }
  split; [exact H|].
  destruct stress_energy_symmetric_weights as [S _].
  exact (S (fun t : float => t) MinkowskiField
           [StressEnergy.Build_Event origin u_rest 1%float 1%float]
           origin StressEnergy.default_params H).
Defined.

(* ------------------------------------------------------------------ *)
(** *** tetrad.hpp *)
(* ------------------------------------------------------------------ *)

(** X29.  [build_tetrad]: in double precision the matrix it writes to
    [g_tilde_out] is exactly symmetric for every input.  In exact
    arithmetic, for a diagonal Lorentzian metric [from_diag(a0,a1,a2,a3)]
    whose entries are at least [max(1e-12, eps)] in magnitude, the tetrad
    is [diag(1/sqrt(-a0), 1/sqrt(a1), 1/sqrt(a2), 1/sqrt(a3))], it brings
    the metric to [eta], the returned orthonormality error is 0, and
    [g_tilde] is [diag(1/|a_i|)]. *)
Theorem build_tetrad_properties :
  (forall (gm : sym4 float) (eps : float),
     symmetric (t_gtilde (build_tetrad gm eps))) /\
  (forall a0 a1 a2 a3 eps : R,
     (a0 < 0)%R -> (0 < a1)%R -> (0 < a2)%R -> (0 < a3)%R ->
     (rmax (lit 1 (-12)) eps <= - a0)%R -> (rmax (lit 1 (-12)) eps <= a1)%R ->
     (rmax (lit 1 (-12)) eps <= a2)%R -> (rmax (lit 1 (-12)) eps <= a3)%R ->
     let r := build_tetrad (from_diag a0 a1 a2 a3) eps in
     t_fro r = 0%R /\
     t_E r = from_diag (1 / sqrt (- a0))%R (1 / sqrt a1)%R
                       (1 / sqrt a2)%R (1 / sqrt a3)%R /\
     mul (mul (transpose (t_E r)) (from_diag a0 a1 a2 a3)) (t_E r)
     = minkowski_eta /\
     t_gtilde r = from_diag (1 / - a0)%R (1 / a1)%R (1 / a2)%R (1 / a3)%R).
Proof.
  split.
  - intros gm eps. unfold build_tetrad.
    destruct (jacobi_symmetric_4x4 _ _ _) as [Q lam]. cbn [t_gtilde].
    apply gram_symmetric_comm. exact float_mul_comm.
  - apply build_tetrad_diagonal.
Qed.

Lemma build_tetrad_properties_witness :
  (rmax (lit 1 (-12)) build_tetrad_default_eps <= 1)%R /\
  t_fro (build_tetrad (from_diag (-1) 1 1 1)%R build_tetrad_default_eps) = 0%R.
Proof.
  assert (H : (rmax (lit 1 (-12)) build_tetrad_default_eps <= 1)%R).
  { unfold build_tetrad_default_eps. rewrite rmax_left by lra.
    exact R_lit_tol12_le. }
  split; [exact H|].
  assert (N : (-1 < 0)%R) by lra. assert (P : (0 < 1)%R) by lra.
  assert (H' : (rmax (lit 1 (-12)) build_tetrad_default_eps <= - -1)%R)
    by (replace (- -1)%R with 1%R by ring; exact H).
  destruct build_tetrad_properties as [_ B].
  destruct (B (-1)%R 1%R 1%R 1%R build_tetrad_default_eps N P P P H' H H H)
    as [Z _].
  exact Z.
Defined.

(* ------------------------------------------------------------------ *)
(** *** audits/time_dilation.hpp *)
(* ------------------------------------------------------------------ *)

(** X30.  In exact arithmetic and flat spacetime, [time_dilation] reports
    [gamma = u^0] and [q_u = eta(u,u)] for every velocity; for a
    future-directed unit timelike velocity the reported speed lies in
    [0, 1) and [gamma * sqrt(1 - v^2) = 1], the Lorentz factor. *)
Theorem time_dilation_flat_spacetime (u : vec4 R) :
  let r := time_dilation (minkowski_eta : sym4 R) u in
  td_gamma r = get I0 u /\
  td_q_u r = qform (minkowski_eta : sym4 R) u /\
  (qform (minkowski_eta : sym4 R) u = (-1)%R -> (0 < get I0 u)%R ->
   (0 <= td_v_norm r < 1)%R /\
   (td_gamma r * sqrt (1 - td_v_norm r * td_v_norm r))%R = 1%R).
Proof. apply time_dilation_flat. Qed.

Lemma time_dilation_flat_spacetime_witness :
  qform (minkowski_eta : sym4 R) u_rest_exact = (-1)%R /\
  (0 < get I0 u_rest_exact)%R /\
  (0 <= td_v_norm (time_dilation (minkowski_eta : sym4 R) u_rest_exact) < 1)%R.
Proof.
  assert (Q : qform (minkowski_eta : sym4 R) u_rest_exact = (-1)%R).
  { cbv [qform minkowski_eta from_diag mat4_zero mset mtab tab upd get mget
         sum_over all_idx fold_left u_rest_exact mulv].
    cbn [radd rmul exactR e0 e1 e2 e3]. rewrite ?R_lit_0, ?R_lit_1.
    change (@lit R exactR (-1) 0) with (-1)%R. ring. }
  assert (P : (0 < get I0 u_rest_exact)%R) by (cbn; lra).
  split; [exact Q|]. split; [exact P|].
  destruct (time_dilation_flat_spacetime u_rest_exact) as (_ & _ & T).
  destruct (T Q P) as [Z _]. exact Z.
Defined.

End Extras.
